(** * A shallow embedding of the heuristic NetHack agent of [heur/heur.py]

    The development follows the source file top to bottom: the glyph table
    [G], the neighbour enumeration, the [Level] grids and their update, the
    breadth-first distance field [bfs], the path reconstruction [path], the
    target selection of the strategies, and finally the effectful layer
    ([step], [direction], [move], [kick], [search], the strategies and the
    control loop [main]) as a state-and-exception monad over the agent and
    the class-level registry [Agent.levels], and the step-limit wrapper of
    the batch runs, [EnvLimitWrapper].

    Conventions.
    - A cell is a pair [(y, x)] of integers, row first, as in [arr[y, x]].
    - A numpy 2-D array is a total function on cells updated pointwise; every
      index the code uses is in bounds (loops range over the grid and
      [neighbors] filters by the bounds), so negative-index wrap-around and
      [IndexError] never arise for in-bounds arguments.
    - Fixed-width array elements are integers with the wrap-around of the
      store written out ([wrap16] for [np.int16], [wrapu16] for [np.uint16],
      [wrap32] for [np.int32]).  Scalar arithmetic follows numpy 1.x, the
      version the program was written for: a numpy scalar combined with a
      Python [int] is computed in 64 bits, so [x + 1] on an array element
      does not wrap before it is stored.
    - An element of an [np.float32] array that holds an integer is that
      integer rounded to 24 bits of mantissa ([float32]); an [np.float32]
      scalar combined with a Python [int] or a 64-bit integer is computed in
      [np.float64] ([float64]) and rounded again when it is stored.
    - [C.SIZE_Y], [C.SIZE_X] and the glyph sets built from the [glyph] module
      are not part of the source file; they are parameters of the model. *)

From stdpp Require Import base gmap list strings.
From Stdlib Require Import ZArith Lia Permutation Sorted.

Local Open Scope Z_scope.

(** * Part I: definitions *)

(** ** Cells and grids *)

Definition cell : Type := Z * Z.

Definition grid (A : Type) : Type := cell -> A.

(** [arr[:] = v] *)
Definition full {A : Type} (v : A) : grid A := fun _ => v.

(** [arr[y, x] = v] *)
Definition upd {A : Type} (g : grid A) (c : cell) (v : A) : grid A :=
  fun c' => if decide (c' = c) then v else g c'.

(** Fixed-width stores. *)
Definition wrap16 (z : Z) : Z := (z + 32768) mod 65536 - 32768.
Definition wrapu16 (z : Z) : Z := z mod 65536.
Definition wrap32 (z : Z) : Z := (z + 2147483648) mod 4294967296 - 2147483648.
Definition wrap64 (z : Z) : Z :=
  (z + 9223372036854775808) mod 18446744073709551616 - 9223372036854775808.

(** The integer nearest to [z] among those a binary float with [prec] bits
    of mantissa holds, ties going to the even mantissa.  The exponent range
    is not modelled: the integers rounded here stay far below the largest
    [float32]. *)
Definition round_float (prec : Z) (z : Z) : Z :=
  let a := Z.abs z in
  let e := Z.log2 a + 1 - prec in
  if e <=? 0 then z
  else
    let u := 2 ^ e in
    let q := a / u in
    let r := a mod u in
    let q' := if 2 * r <? u then q
              else if u <? 2 * r then q + 1
              else if Z.even q then q else q + 1 in
    Z.sgn z * (q' * u).

(** A store into an [np.float32] array; the value of an [np.float64]
    computation. *)
Definition float32 (z : Z) : Z := round_float 24 z.
Definition float64 (z : Z) : Z := round_float 53 z.

(** ** The glyph table [G]

    [class G] maps category names to sets of glyph ids taken from the
    [glyph] module ([SS], [MON]).  The sets are parameters; [DOORS] is
    derived in the source and so it is here. *)

Record Glyphs : Type := {
  FLOOR : gset Z;
  STONE : gset Z;
  WALL : gset Z;
  CORRIDOR : gset Z;
  STAIR_UP : gset Z;
  STAIR_DOWN : gset Z;
  DOOR_CLOSED : gset Z;
  DOOR_OPENED : gset Z;
  MONS : gset Z;
  PETS : gset Z
}.

(** [DOORS = set.union(DOOR_CLOSED, DOOR_OPENED)] *)
Definition DOORS (g : Glyphs) : gset Z := DOOR_CLOSED g ∪ DOOR_OPENED g.

(** [glyph in S] *)
Definition glyph_in (g : Z) (s : gset Z) : bool := bool_decide (g ∈ s).

(** ** The random stream

    [np.random.RandomState] is used for [rng.shuffle] only.  The generator is
    abstract: a state type, a seeding function and a shuffle that returns
    some permutation of its argument together with the next state. *)

Record Rng : Type := {
  RandomState : Type;
  rng_seed : Z -> RandomState;
  rng_shuffle : RandomState -> list cell -> list cell * RandomState;
  rng_shuffle_perm : forall r l, Permutation (rng_shuffle r l).1 l
}.

(** ** Observations and actions *)

(** The fields of [BLStats] the agent reads. *)
Record BLStats : Type := {
  bl_x : Z;
  bl_y : Z;
  dungeon_number : Z;
  level_number : Z
}.

Record Observation : Type := {
  obs_glyphs : grid Z;
  obs_blstats : BLStats;
  obs_message : string;
  obs_tty_chars : string
}.

Inductive Action : Type :=
| Command_ESC
| Command_KICK
| Command_SEARCH
| CompassDirection_N
| CompassDirection_S
| CompassDirection_E
| CompassDirection_W
| CompassDirection_NE
| CompassDirection_SE
| CompassDirection_NW
| CompassDirection_SW
| MiscDirection_DOWN
| MiscDirection_UP.

(** ** Levels *)

Record Level : Type := {
  walkable : grid bool;
  seen : grid bool;
  objects : grid Z;
  search_count : grid Z
}.

(** [Level.__init__] *)
Definition Level_init : Level :=
  {| walkable := full false;
     seen := full false;
     objects := full (-1);
     search_count := full 0 |}.

(** ** Parameters of the program

    The map size [C.SIZE_Y], [C.SIZE_X], the glyph table, the random
    generator and the environment behind [env.reset] and [env.step].  The
    reward is kept as an integer; [info] is dropped, the agent never reads
    it. *)

Class Config : Type := {
  SIZE_Y : Z;
  SIZE_X : Z;
  G : Glyphs;
  R : Rng;
  Env : Type;
  env_reset : Env -> Observation * Env;
  env_step : Env -> Action -> (Observation * Z * bool) * Env
}.

(** ** Exceptions and results *)

Inductive exn : Type :=
| AgentFinished
| AgentPanic (expected got : cell)
| AgentChangeStrategy
| AssertionError
| KeyError
| IndexError
| ValueError.

(** [Diverge] is the outcome of a run that exhausts the bound put on the
    recursion through prompts and on the [while] loops. *)
Inductive result (A : Type) : Type :=
| Ok (a : A)
| Raise (e : exn)
| Diverge.

Arguments Ok {A} a.
Arguments Raise {A} e.
Arguments Diverge {A}.

Section Core.

Context `{Config}.

(** [range(n)] *)
Definition range (n : Z) : list Z := seqZ 0 n.

(** The double loop [for y in range(C.SIZE_Y): for x in range(C.SIZE_X)],
    which is also the order of [ndarray.nonzero()]. *)
Definition all_cells : list cell :=
  flat_map (fun y => map (fun x => (y, x)) (range SIZE_X)) (range SIZE_Y).

Definition in_bounds (c : cell) : bool :=
  (0 <=? c.1) && (c.1 <? SIZE_Y) && (0 <=? c.2) && (c.2 <? SIZE_X).

(** ** [Agent.neighbors] *)

(** The list [ret] before the shuffle. *)
Definition neighbors_fixed (y x : Z) (diagonal : bool) : list cell :=
  flat_map (fun dy =>
    flat_map (fun dx =>
      if (dy =? 0) && (dx =? 0) then []
      else if negb diagonal && (1 <? Z.abs dy + Z.abs dx) then []
      else
        let ny := y + dy in
        let nx := x + dx in
        if (0 <=? ny) && (ny <? SIZE_Y) && (0 <=? nx) && (nx <? SIZE_X)
        then [(ny, nx)] else [])
      [-1; 0; 1])
    [-1; 0; 1].

Definition neighbors (rng : RandomState R) (y x : Z) (shuffle diagonal : bool)
  : list cell * RandomState R :=
  let ret := neighbors_fixed y x diagonal in
  if shuffle then rng_shuffle R rng ret else (ret, rng).

(** ** [Agent.update_level] *)

(** [any(map(lambda s: operator.contains(s, g), sets))] *)
Definition any_contains (g : Z) (sets : list (gset Z)) : bool :=
  existsb (glyph_in g) sets.

(** The body of the double loop, at one cell. *)
Definition update_cell (glyphs : grid Z) (level : Level) (c : cell) : Level :=
  let g := glyphs c in
  if any_contains g [FLOOR G; CORRIDOR G; STAIR_UP G; STAIR_DOWN G; DOOR_OPENED G]
  then {| walkable := upd (walkable level) c true;
          seen := upd (seen level) c true;
          objects := upd (objects level) c g;
          search_count := search_count level |}
  else if any_contains g [WALL G; DOOR_CLOSED G]
  then {| walkable := walkable level;
          seen := upd (seen level) c true;
          objects := upd (objects level) c g;
          search_count := search_count level |}
  else if any_contains g [MONS G; PETS G]
  then {| walkable := upd (walkable level) c true;
          seen := upd (seen level) c true;
          objects := objects level;
          search_count := search_count level |}
  else level.

(** The body of the second loop, over the neighbours of the agent. *)
Definition update_stone (glyphs : grid Z) (level : Level) (c : cell) : Level :=
  if glyph_in (glyphs c) (STONE G)
  then {| walkable := walkable level;
          seen := upd (seen level) c true;
          objects := upd (objects level) c (glyphs c);
          search_count := search_count level |}
  else level.

(** [update_level] on the level [st.1], with the agent at [(y, x)]. *)
Definition update_level (glyphs : grid Z) (y x : Z)
    (st : Level * RandomState R) : Level * RandomState R :=
  let level := fold_left (update_cell glyphs) all_cells st.1 in
  let '(nb, rng) := neighbors st.2 y x true true in
  (fold_left (update_stone glyphs) nb level, rng).

(** ** [Agent.bfs] *)

(** The test guarding a step from the dequeued cell [p] to its neighbour
    [q]: [level.walkable[py, px] and (abs(py - y) + abs(px - x) <= 1 or
    (level.objects[py, px] not in G.DOORS and level.objects[y, x] not in
    G.DOORS))]. *)
Definition step_ok (level : Level) (p q : cell) : bool :=
  walkable level q &&
  ((Z.abs (q.1 - p.1) + Z.abs (q.2 - p.2) <=? 1) ||
   (negb (glyph_in (objects level q) (DOORS G)) &&
    negb (glyph_in (objects level p) (DOORS G)))).

(** The body of the inner [for] loop.  [st] is [(dis, buf)], where [buf]
    holds the entries [buf[0 .. size)] of the queue array. *)
Definition bfs_visit (level : Level) (p : cell)
    (st : grid Z * list cell) (q : cell) : grid Z * list cell :=
  if step_ok level p q then
    if st.1 q =? -1
    then (upd st.1 q (wrap16 (st.1 p + 1)), st.2 ++ [(wrapu16 q.1, wrapu16 q.2)])
    else st
  else st.

(** [while index < size], with [size = len buf]. *)
Fixpoint bfs_loop (fuel : nat) (level : Level) (rng : RandomState R)
    (dis : grid Z) (buf : list cell) (index : nat)
  : option (grid Z * RandomState R) :=
  match fuel with
  | O => None
  | S fuel' =>
    match buf !! index with
    | None => Some (dis, rng)
    | Some p =>
      let '(nb, rng') := neighbors rng p.1 p.2 true true in
      let '(dis', buf') := fold_left (bfs_visit level p) nb (dis, buf) in
      bfs_loop fuel' level rng' dis' buf' (S index)
    end
  end.

(** [bfs(y, x)] on [level].  The queue array has [SIZE_Y * SIZE_X] rows and
    the loop is given one more round than that; [None] would mean that the
    bound was not enough. *)
Definition bfs (level : Level) (rng : RandomState R) (y x : Z)
  : option (grid Z * RandomState R) :=
  let dis := upd (full (-1)) (y, x) 0 in
  let buf := [(wrapu16 y, wrapu16 x)] in
  bfs_loop (S (length all_cells)) level rng dis buf 0.

(** The field a call of [bfs] returns, [-1] everywhere if the bound of the
    loop were not enough. *)
Definition bfs_field (level : Level) (rng : RandomState R) (y x : Z) : grid Z :=
  match bfs level rng y x with
  | Some (dis, _) => dis
  | None => full (-1)
  end.

(** ** [Agent.path] *)

(** The [while] loop of [path]; [path_rev] grows at its end. *)
Fixpoint path_loop (fuel : nat) (rng : RandomState R) (dis : grid Z)
    (from cur : cell) (path_rev : list cell)
  : result (list cell) * RandomState R :=
  if decide (cur = from) then (Ok path_rev, rng)
  else
    match fuel with
    | O => (Diverge, rng)
    | S fuel' =>
      let '(nb, rng') := neighbors rng cur.1 cur.2 true true in
      match find (fun c => (dis c <? dis cur) && (0 <=? dis c)) nb with
      | Some c => path_loop fuel' rng' dis from c (path_rev ++ [c])
      | None => (Raise AssertionError, rng')
      end
    end.

(** [path] once the distance field is at hand: the assertion on the
    target, the loop and the two closing assertions.  The loop is given
    [dis[to] + 1] rounds, each round lowers [dis[cur]] and keeps it
    non-negative. *)
Definition path_with (rng : RandomState R) (from_y from_x to_y to_x : Z)
    (d : grid Z) : result (list cell) * RandomState R :=
  if d (to_y, to_x) =? -1 then (Raise AssertionError, rng)
  else
    match path_loop (S (Z.to_nat (d (to_y, to_x)))) rng d
            (from_y, from_x) (to_y, to_x) [(to_y, to_x)] with
    | (Ok path_rev, rng') =>
      if d (from_y, from_x) =? 0 then
        let p := rev path_rev in
        if bool_decide (head p = Some (from_y, from_x)
                        /\ last p = Some (to_y, to_x))
        then (Ok p, rng')
        else (Raise AssertionError, rng')
      else (Raise AssertionError, rng')
    | (r, rng') => (r, rng')
    end.

(** [path(from_y, from_x, to_y, to_x, dis)] on [level]; [dis = None]
    recomputes the field. *)
Definition path (level : Level) (rng : RandomState R)
    (from_y from_x to_y to_x : Z) (dis : option (grid Z))
  : result (list cell) * RandomState R :=
  if decide (from_y = to_y /\ from_x = to_x) then (Ok [(to_y, to_x)], rng)
  else
    match (match dis with
           | Some d => Some (d, rng)
           | None => bfs level rng from_y from_x
           end) with
    | None => (Diverge, rng)
    | Some (d, rng1) => path_with rng1 from_y from_x to_y to_x d
    end.

(** ** Target selection of [explore1] *)

(** The flag [to_explore[y, x]] computed for one cell; both neighbour lists
    are shuffled, which advances the generator. *)
Definition frontier_flag (level : Level) (glyphs : grid Z) (dis : grid Z)
    (rng : RandomState R) (c : cell) : bool * RandomState R :=
  if dis c =? -1 then (false, rng)
  else
    let '(nb8, rng1) := neighbors rng c.1 c.2 true true in
    let a := existsb (fun p => negb (seen level p)
                               && glyph_in (glyphs p) (STONE G)) nb8 in
    let '(nb4, rng2) := neighbors rng1 c.1 c.2 true false in
    let b := existsb (fun p => glyph_in (glyphs p) (DOOR_CLOSED G)) nb4 in
    (a || b, rng2).

Definition explore_flags (level : Level) (glyphs : grid Z) (dis : grid Z)
    (rng : RandomState R) : grid bool * RandomState R :=
  fold_left (fun st c =>
               let '(b, rng') := frontier_flag level glyphs dis st.2 c in
               (if b then upd st.1 c true else st.1, rng'))
            all_cells (full false, rng).

(** [arr.min()]; numpy raises [ValueError] on an empty array. *)
Definition array_min (l : list Z) : option Z :=
  match l with
  | [] => None
  | z :: l' => Some (fold_left Z.min l' z)
  end.

(** [(dis * to_explore - 1).astype(np.uint16)] at one cell. *)
Definition explore_key (dis : grid Z) (to_explore : grid bool) (c : cell) : Z :=
  wrapu16 (wrap16 (wrap16 (dis c * Z.b2z (to_explore c)) - 1)).

(** The list [nonzero] of [explore1]: the cells whose distance is the
    minimum key plus one (a 64-bit sum, it does not wrap) and whose flag is
    set, in row-major order. *)
Definition explore_nonzero (dis : grid Z) (to_explore : grid bool)
  : result (list cell) :=
  match array_min (map (explore_key dis to_explore) all_cells) with
  | None => Raise ValueError
  | Some m =>
    Ok (filter (fun c => (dis c =? m + 1) && to_explore c) all_cells)
  end.

(** [nonzero[0]] if there is one: the target of [explore1], [None] where it
    returns [False]. *)
Definition head_result (r : result (list cell)) : result (option cell) :=
  match r with
  | Ok l => Ok (head l)
  | Raise e => Raise e
  | Diverge => Diverge
  end.

(** ** Priorities of [search1] *)

(** A [float32] priority: minus infinity or an integer.  [float32] holds
    every integer up to magnitude [2^24]; beyond that every store rounds. *)
Inductive prio_t : Type :=
| NegInf
| Fin (z : Z).

Definition prio_eqb (a b : prio_t) : bool :=
  match a, b with
  | NegInf, NegInf => true
  | Fin x, Fin y => x =? y
  | _, _ => false
  end.

Definition prio_max (a b : prio_t) : prio_t :=
  match a, b with
  | NegInf, _ => b
  | _, NegInf => a
  | Fin x, Fin y => Fin (Z.max x y)
  end.

(** [prio[y, x]] as the double loop of [search1] leaves it.  [prio] is an
    [np.float32] array and every [-=] and [+=] reads the element, computes
    and stores it back: the subtraction of [dis[y, x]], an [np.int16], is
    done in [float32]; [search_count[y, x] ** 2 * 10] is a 64-bit integer
    and its subtraction is done in [float64], as are the additions of the
    Python integers of the bonuses. *)
Definition search_prio (level : Level) (dis : grid Z) (c : cell) : prio_t :=
  if negb (walkable level c) || (dis c =? -1) then NegInf
  else
    let p0 := -20 in
    let p1 := float32 (p0 - dis c) in
    let p2 := float32 (float64
                (p1 - float64 (wrap64 (wrap64 (search_count level c ^ 2) * 10)))) in
    let p3 := float32 (float64
                (p2 + (Z.b2z (glyph_in (objects level c) (CORRIDOR G)) * 15
                       + Z.b2z (glyph_in (objects level c) (DOORS G)) * 80))) in
    Fin (fold_left
           (fun acc p =>
              float32 (float64
                (acc + (Z.b2z (glyph_in (objects level p) (STONE G)) * 40
                        + Z.b2z (glyph_in (objects level p) (WALL G)) * 20))))
           (neighbors_fixed c.1 c.2 true) p3).

(** [prio.max()] *)
Definition search_max (level : Level) (dis : grid Z) : option prio_t :=
  match map (search_prio level dis) all_cells with
  | [] => None
  | p :: l => Some (fold_left prio_max l p)
  end.

(** [(prio == prio.max()).nonzero()], first entry. *)
Definition search_target (level : Level) (dis : grid Z) : result cell :=
  match search_max level dis with
  | None => Raise ValueError
  | Some m =>
    match filter (fun c => prio_eqb (search_prio level dis c) m) all_cells with
    | [] => Raise IndexError
    | c :: _ => Ok c
    end
  end.

End Core.

(** ** The agent and the process state

    [Agent] holds the attributes that [__init__] and [update_map] assign on
    [self].  [levels = {}] is assigned in the class body and no method ever
    assigns [self.levels]: every instance reads and writes the one dictionary
    of the class, which is the field [Agent_levels] of the process state.  A
    [Level] object is reached only through its key in that dictionary. *)

Record Agent `{Config} : Type := {
  env : Env;
  verbose : bool;
  rng : RandomState R;
  all_panics : list exn;
  last_observation : Observation;
  score : Z;
  blstats : BLStats;
  glyphs : grid Z;
  message : string
}.

Record World `{Config} : Type := {
  Agent_levels : gmap (Z * Z) Level;
  self : Agent
}.

(** Computations of one agent: a state transformer that may raise. *)
Definition M `{Config} (A : Type) : Type := World -> result A * World.

Definition ret `{Config} {A : Type} (a : A) : M A := fun w => (Ok a, w).

Definition raise `{Config} {A : Type} (e : exn) : M A := fun w => (Raise e, w).

Definition diverge `{Config} {A : Type} : M A := fun w => (Diverge, w).

Definition bind `{Config} {A B : Type} (m : M A) (k : A -> M B) : M B :=
  fun w =>
    match m w with
    | (Ok a, w') => k a w'
    | (Raise e, w') => (Raise e, w')
    | (Diverge, w') => (Diverge, w')
    end.

Notation "'do' x <- m ; k" := (bind m (fun x => k))
  (at level 10, x name, m at level 100, k at level 200).
Notation "'do_' m ; k" := (bind m (fun _ => k))
  (at level 10, m at level 100, k at level 200).

Section Effects.

Context `{Config}.

Definition get : M World := fun w => (Ok w, w).

Definition modify_self (f : Agent -> Agent) : M unit :=
  fun w => (Ok tt, {| Agent_levels := Agent_levels w; self := f (self w) |}).

Definition modify_levels (f : gmap (Z * Z) Level -> gmap (Z * Z) Level) : M unit :=
  fun w => (Ok tt, {| Agent_levels := f (Agent_levels w); self := self w |}).

Definition set_rng (r : RandomState R) (a : Agent) : Agent :=
  {| env := env a; verbose := verbose a; rng := r; all_panics := all_panics a;
     last_observation := last_observation a; score := score a;
     blstats := blstats a; glyphs := glyphs a; message := message a |}.

Definition set_all_panics (l : list exn) (a : Agent) : Agent :=
  {| env := env a; verbose := verbose a; rng := rng a; all_panics := l;
     last_observation := last_observation a; score := score a;
     blstats := blstats a; glyphs := glyphs a; message := message a |}.

(** [self.last_observation = obs; self.score += reward], with the
    environment advanced by the call. *)
Definition set_stepped (e : Env) (obs : Observation) (reward : Z) (a : Agent) : Agent :=
  {| env := e; verbose := verbose a; rng := rng a; all_panics := all_panics a;
     last_observation := obs; score := score a + reward;
     blstats := blstats a; glyphs := glyphs a; message := message a |}.

(** The first three assignments of [update_map]. *)
Definition set_observed (a : Agent) : Agent :=
  let obs := last_observation a in
  {| env := env a; verbose := verbose a; rng := rng a; all_panics := all_panics a;
     last_observation := obs; score := score a;
     blstats := obs_blstats obs; glyphs := obs_glyphs obs;
     message := obs_message obs |}.

(** [sub in s] on strings and bytes. *)
Fixpoint contains (sub s : string) : bool :=
  String.prefix sub s ||
  match s with
  | EmptyString => false
  | String _ s' => contains sub s'
  end.

(** The agent's cell [(self.blstats.y, self.blstats.x)]. *)
Definition position (w : World) : cell := (bl_y (blstats (self w)), bl_x (blstats (self w))).

(** ** [Agent.current_level]: the key of the current level, created on
    first use. *)
Definition current_level : M (Z * Z) :=
  do w <- get;
  let key := (dungeon_number (blstats (self w)), level_number (blstats (self w))) in
  match Agent_levels w !! key with
  | Some _ => ret key
  | None => do_ modify_levels (fun m => <[key := Level_init]> m); ret key
  end.

(** The [Level] object behind a key returned by [current_level]. *)
Definition level_at (key : Z * Z) : M Level :=
  do w <- get;
  match Agent_levels w !! key with
  | Some l => ret l
  | None => raise KeyError
  end.

(** [Agent.update_level] on the agent. *)
Definition update_level_m : M unit :=
  do key <- current_level;
  do level <- level_at key;
  do w <- get;
  let '(level', rng') :=
    update_level (glyphs (self w)) (bl_y (blstats (self w))) (bl_x (blstats (self w)))
                 (level, rng (self w)) in
  do_ modify_levels (fun m => <[key := level']> m);
  modify_self (set_rng rng').

(** [Agent.is_any_mon_on_map] *)
Definition is_any_mon_on_map (w : World) : bool :=
  existsb (fun c => negb (bool_decide (c = position w))
                    && glyph_in (glyphs (self w) c) (MONS G))
          all_cells.

(** [Agent.on_update] *)
Definition on_update (is_first : bool) : M unit :=
  if is_first then ret tt
  else
    do w <- get;
    if is_any_mon_on_map w then raise AgentChangeStrategy else ret tt.

(** [Agent.update_map], with the call [self.step] passed in. *)
Definition update_map_with (step : Action -> M unit) (is_first : bool) : M unit :=
  do_ modify_self set_observed;
  do w <- get;
  let tty := obs_tty_chars (last_observation (self w)) in
  if contains "--More--" tty then step Command_ESC
  else if contains "[yn]" tty then step CompassDirection_NW
  else do_ update_level_m; on_update is_first.

(** [Agent.step].  [fuel] bounds the nesting of [step] and [update_map]
    through prompts. *)
Fixpoint step (fuel : nat) (action : Action) : M unit :=
  match fuel with
  | O => diverge
  | S fuel' =>
    do w <- get;
    let '(obs, reward, done, e) := env_step (env (self w)) action in
    do_ modify_self (set_stepped e obs reward);
    if done : bool then raise AgentFinished
    else update_map_with (step fuel') false
  end.

(** [Agent.update_map] *)
Definition update_map (fuel : nat) (is_first : bool) : M unit :=
  update_map_with (step fuel) is_first.

(** [Agent.__init__] in a process whose class dictionary is [levels]. *)
Definition Agent_init (fuel : nat) (levels : gmap (Z * Z) Level)
    (e : Env) (seed : Z) (verb : bool) : result unit * World :=
  let '(obs, e') := env_reset e in
  update_map fuel true
    {| Agent_levels := levels;
       self := {| env := e'; verbose := verb; rng := rng_seed R seed;
                  all_panics := []; last_observation := obs; score := 0;
                  blstats := obs_blstats obs; glyphs := obs_glyphs obs;
                  message := obs_message obs |} |}.

(** ** Trivial actions *)

(** [Agent.calc_direction] *)
Definition calc_direction (from_y from_x to_y to_x : Z) : result string :=
  if (Z.abs (from_y - to_y) <=? 1) && (Z.abs (from_x - to_x) <=? 1) then
    let r0 := "" in
    let r1 := if to_y =? from_y + 1 then r0 +:+ "s" else r0 in
    let r2 := if to_y =? from_y - 1 then r1 +:+ "n" else r1 in
    let r3 := if to_x =? from_x + 1 then r2 +:+ "e" else r2 in
    let r4 := if to_x =? from_x - 1 then r3 +:+ "w" else r3 in
    Ok (if String.eqb r4 "" then "." else r4)
  else Raise AssertionError.

(** The first argument of [direction] and [move]: a direction word
    ([x is None]) or the absolute cell [(y, x)]. *)
Inductive target : Type :=
| Word (dir : string)
| At (y x : Z).

(** The dictionary literal of [direction]. *)
Definition direction_actions : gmap string Action :=
  list_to_map
    [("n", CompassDirection_N); ("s", CompassDirection_S);
     ("e", CompassDirection_E); ("w", CompassDirection_W);
     ("ne", CompassDirection_NE); ("se", CompassDirection_SE);
     ("nw", CompassDirection_NW); ("sw", CompassDirection_SW);
     (">", MiscDirection_DOWN); ("<", MiscDirection_UP)].

(** The common prologue of [direction] and [move]. *)
Definition resolve (t : target) : M string :=
  match t with
  | At y x =>
    do w <- get;
    match calc_direction (bl_y (blstats (self w))) (bl_x (blstats (self w))) y x with
    | Ok d => ret d
    | Raise e => raise e
    | Diverge => diverge
    end
  | Word d => ret d
  end.

(** [Agent.direction] *)
Definition direction (fuel : nat) (t : target) : M bool :=
  do dir <- resolve t;
  match direction_actions !! dir with
  | None => raise KeyError
  | Some action => do_ step fuel action; ret true
  end.

(** [Agent.move] *)
Definition move (fuel : nat) (t : target) : M unit :=
  do dir <- resolve t;
  do w <- get;
  let expected_y := bl_y (blstats (self w))
                    + Z.b2z (contains "s" dir) - Z.b2z (contains "n" dir) in
  let expected_x := bl_x (blstats (self w))
                    + Z.b2z (contains "e" dir) - Z.b2z (contains "w" dir) in
  do_ direction fuel (Word dir);
  do w' <- get;
  if negb (bl_y (blstats (self w')) =? expected_y)
     || negb (bl_x (blstats (self w')) =? expected_x)
  then raise (AgentPanic (expected_y, expected_x) (position w'))
  else ret tt.

(** [Agent.open_door] *)
Definition open_door (fuel : nat) (y x : Z) : M bool :=
  do w <- get;
  if glyph_in (glyphs (self w) (y, x)) (DOOR_CLOSED G) then
    do_ direction fuel (At y x);
    do w' <- get;
    ret (negb (glyph_in (glyphs (self w') (y, x)) (DOOR_CLOSED G)))
  else raise AssertionError.

(** [Agent.fight] *)
Definition fight (fuel : nat) (y x : Z) : M bool :=
  do w <- get;
  if glyph_in (glyphs (self w) (y, x)) (MONS G) then
    do_ direction fuel (At y x);
    ret true
  else raise AssertionError.

(** [Agent.kick] *)
Definition kick (fuel : nat) (y x : Z) : M bool :=
  do_ step fuel Command_KICK;
  do_ move fuel (At y x);
  do w <- get;
  ret ((bl_y (blstats (self w)) =? y) && (bl_x (blstats (self w)) =? x)).

(** [level.search_count[c] += 1] on an [np.int32] grid. *)
Definition bump_search_count (c : cell) (l : Level) : Level :=
  {| walkable := walkable l; seen := seen l; objects := objects l;
     search_count := upd (search_count l) c (wrap32 (search_count l c + 1)) |}.

(** [Agent.search] *)
Definition search (fuel : nat) : M bool :=
  do_ step fuel Command_SEARCH;
  do key <- current_level;
  do level <- level_at key;
  do w <- get;
  do_ modify_levels (fun m => <[key := bump_search_count (position w) level]> m);
  ret true.

(** ** [bfs] and [path] on the agent *)

(** [self.bfs(y, x)]; [None] stands for an omitted argument. *)
Definition bfs_m (y x : option Z) : M (grid Z) :=
  do w <- get;
  let y := default (bl_y (blstats (self w))) y in
  let x := default (bl_x (blstats (self w))) x in
  do key <- current_level;
  do level <- level_at key;
  match bfs level (rng (self w)) y x with
  | None => diverge
  | Some (dis, rng') => do_ modify_self (set_rng rng'); ret dis
  end.

(** [self.path(from_y, from_x, to_y, to_x, dis)].  The level is looked up
    where the source does, in the call of [bfs]. *)
Definition path_m (from_y from_x to_y to_x : Z) (dis : option (grid Z))
  : M (list cell) :=
  if decide (from_y = to_y /\ from_x = to_x) then ret [(to_y, to_x)]
  else
    do d <- match dis with
            | Some d => ret d
            | None => bfs_m (Some from_y) (Some from_x)
            end;
    do w <- get;
    let '(r, rng') := path_with (rng (self w)) from_y from_x to_y to_x d in
    do_ modify_self (set_rng rng');
    match r with
    | Ok p => ret p
    | Raise e => raise e
    | Diverge => diverge
    end.

(** ** Strategies

    A strategy returns [False] or [None]; [select_strategy] tests
    [is not False].  The boolean result here is that test. *)

(** The loop [for y, x in path[1:]] shared by [explore1], [search1] and
    [move_down]; [false] is the early [return]. *)
Fixpoint walk (fuel : nat) (cells : list cell) : M bool :=
  match cells with
  | [] => ret true
  | c :: rest =>
    do key <- current_level;
    do level <- level_at key;
    if negb (walkable level c) then ret false
    else do_ move fuel (At c.1 c.2); walk fuel rest
  end.

(** [Agent.fight1] *)
Definition fight1 (fuel : nat) : M bool :=
  do dis <- bfs_m None None;
  do w <- get;
  let closest :=
    fold_left
      (fun (closest : option cell) c =>
         if negb (bool_decide (c = position w))
            && glyph_in (glyphs (self w) c) (MONS G)
            && negb (dis c =? -1)
            && match closest with
               | None => true
               | Some c' => dis c <? dis c'
               end
         then Some c else closest)
      all_cells None in
  match closest with
  | None => ret false
  | Some (y, x) =>
    do p <- path_m (bl_y (blstats (self w))) (bl_x (blstats (self w))) y x None;
    match tail p with
    | [] => raise IndexError
    | [c] => do_ fight fuel c.1 c.2; ret true
    | c :: _ => do_ move fuel (At c.1 c.2); ret true
    end
  end.

(** [while self.glyphs[py, px] in G.DOOR_CLOSED: self.kick(py, px)] *)
Fixpoint kick_loop (rounds fuel : nat) (py px : Z) : M unit :=
  match rounds with
  | O => diverge
  | S rounds' =>
    do w <- get;
    if glyph_in (glyphs (self w) (py, px)) (DOOR_CLOSED G)
    then do_ kick fuel py px; kick_loop rounds' fuel py px
    else ret tt
  end.

(** [Agent.explore1] *)
Definition explore1 (fuel : nat) : M bool :=
  do w <- get;
  let '(nb, rng') := neighbors (rng (self w)) (bl_y (blstats (self w)))
                               (bl_x (blstats (self w))) true false in
  do_ modify_self (set_rng rng');
  do_ match find (fun c => glyph_in (glyphs (self w) c) (DOOR_CLOSED G)) nb with
      | None => ret tt
      | Some (py, px) =>
        do opened <- open_door fuel py px;
        if opened then ret tt else kick_loop fuel fuel py px
      end;
  do key <- current_level;
  do level <- level_at key;
  do dis <- bfs_m None None;
  do w1 <- get;
  let '(to_explore, rng1) := explore_flags level (glyphs (self w1)) dis (rng (self w1)) in
  do_ modify_self (set_rng rng1);
  match explore_nonzero dis to_explore with
  | Raise e => raise e
  | Diverge => diverge
  | Ok [] => ret false
  | Ok ((ty, tx) :: _) =>
    do p <- path_m (bl_y (blstats (self w1))) (bl_x (blstats (self w1))) ty tx (Some dis);
    do_ walk fuel (tail p);
    ret true
  end.

(** [Agent.search1] *)
Definition search1 (fuel : nat) : M bool :=
  do key <- current_level;
  do level <- level_at key;
  do dis <- bfs_m None None;
  match search_target level dis with
  | Raise e => raise e
  | Diverge => diverge
  | Ok (ty, tx) =>
    do w <- get;
    do p <- path_m (bl_y (blstats (self w))) (bl_x (blstats (self w))) ty tx (Some dis);
    do walked <- walk fuel (tail p);
    if walked : bool then do_ search fuel; ret true else ret true
  end.

(** [Agent.move_down] *)
Definition move_down (fuel : nat) : M bool :=
  do key <- current_level;
  do level <- level_at key;
  match find (fun c => glyph_in (objects level c) (STAIR_DOWN G)) all_cells with
  | None => ret false
  | Some (ty, tx) =>
    do dis <- bfs_m None None;
    if dis (ty, tx) =? -1 then ret false
    else
      do w <- get;
      do p <- path_m (bl_y (blstats (self w))) (bl_x (blstats (self w))) ty tx (Some dis);
      do walked <- walk fuel (tail p);
      if walked : bool then do_ direction fuel (Word ">"); ret true else ret true
  end.

(** [Agent.select_strategy] *)
Definition select_strategy (fuel : nat) : M unit :=
  do w <- get;
  do fought <- (if is_any_mon_on_map w then fight1 fuel else ret false);
  if fought : bool then ret tt
  else
    do explored <- explore1 fuel;
    if explored : bool then ret tt
    else
      do descended <- move_down fuel;
      if descended : bool then ret tt
      else
        do searched <- search1 fuel;
        if searched : bool then ret tt
        else raise AssertionError.

(** ** [Agent.main] *)

(** What one round of [while 1] leaves the loop to do. *)
Inductive loop_status : Type :=
| Continue
| Return
| Propagate (e : exn)
| Stuck.

(** One round of the loop: [select_strategy] under the two handlers. *)
Definition main_round (fuel : nat) (w : World) : loop_status * World :=
  match select_strategy fuel w with
  | (Ok _, w') => (Continue, w')
  | (Raise (AgentPanic expected got), w') =>
    (Continue,
     {| Agent_levels := Agent_levels w';
        self := set_all_panics (all_panics (self w') ++ [AgentPanic expected got])
                               (self w') |})
  | (Raise AgentChangeStrategy, w') => (Continue, w')
  | (Raise AgentFinished, w') => (Return, w')
  | (Raise e, w') => (Propagate e, w')
  | (Diverge, w') => (Stuck, w')
  end.

(** [main], run for at most [rounds] rounds of the loop. *)
Fixpoint main (rounds fuel : nat) : M unit :=
  match rounds with
  | O => diverge
  | S rounds' =>
    fun w =>
      match main_round fuel w with
      | (Continue, w') => main rounds' fuel w'
      | (Return, w') => (Ok tt, w')
      | (Propagate e, w') => (Raise e, w')
      | (Stuck, w') => (Diverge, w')
      end
  end.

(** ** Two agents in one process

    [Agent(env)] called twice in one interpreter gives two instances and one
    class dictionary.  A method of either instance runs on the process state
    made of that dictionary and of the instance's own attributes. *)

Record Process : Type := {
  class_levels : gmap (Z * Z) Level;
  agent1 : Agent;
  agent2 : Agent
}.

Definition as_agent1 (p : Process) : World :=
  {| Agent_levels := class_levels p; self := agent1 p |}.

Definition as_agent2 (p : Process) : World :=
  {| Agent_levels := class_levels p; self := agent2 p |}.

(** [agent1 = Agent(e1); agent2 = Agent(e2)], both constructors returning. *)
Definition two_agents (fuel : nat) (e1 e2 : Env) (seed : Z) : option Process :=
  match Agent_init fuel ∅ e1 seed false with
  | (Ok _, w1) =>
    match Agent_init fuel (Agent_levels w1) e2 seed false with
    | (Ok _, w2) =>
      Some {| class_levels := Agent_levels w2; agent1 := self w1; agent2 := self w2 |}
    | _ => None
    end
  | _ => None
  end.

(** A method call on the second instance. *)
Definition on_agent2 {A : Type} (m : M A) (p : Process) : result A * Process :=
  let '(r, w) := m (as_agent2 p) in
  (r, {| class_levels := Agent_levels w; agent1 := agent1 p; agent2 := self w |}).

End Effects.

(** ** [EnvLimitWrapper]

    The wrapper of the batch runs.  The wrapped environment is a parameter:
    its [reset] and [step], the latter taken on the action itself (the
    position of the action in [env._actions] is the inner environment's
    business), and its turn counter [env._turns].  The attributes that
    [reset] creates do not exist before it: [counters] is [None] then, and a
    [step] fails on the first of them it reads. *)

Module EnvLimitWrapper.

Record Counters : Type := {
  cur_step : Z;
  last_turn : Z;
  levels : gset (Z * Z)
}.

Inductive error : Type :=
| AssertionError
| AttributeError.

Section Wrapper.

Variable Inner : Type.
Variable inner_reset : Inner -> Observation * Inner.
Variable inner_step : Inner -> Action -> (Observation * Z * bool) * Inner.
Variable turns : Inner -> Z.

Record t : Type := {
  env : Inner;
  step_limit : Z;
  counters : option Counters
}.

(** [__init__] *)
Definition init (e : Inner) (limit : Z) : t :=
  {| env := e; step_limit := limit; counters := None |}.

(** [reset] *)
Definition reset (w : t) : Observation * t :=
  let '(obs, e') := inner_reset (env w) in
  (obs, {| env := e'; step_limit := step_limit w;
           counters := Some {| cur_step := 0; last_turn := 0; levels := ∅ |} |}).

(** [step]: the reply, or the error raised, and the wrapper afterwards. *)
Definition step (w : t) (action : Action)
  : (Observation * Z * bool + error) * t :=
  let '(obs, reward, done, e') := inner_step (env w) action in
  match counters w with
  | None => (inr AttributeError, {| env := e'; step_limit := step_limit w; counters := None |})
  | Some c =>
    let blstats := obs_blstats obs in
    let c' := {| cur_step := cur_step c + 1;
                 last_turn := Z.max (last_turn c) (turns e');
                 levels := {[ (dungeon_number blstats, level_number blstats) ]}
                           ∪ levels c |} in
    let w' := {| env := e'; step_limit := step_limit w; counters := Some c' |} in
    if cur_step c' =? step_limit w + 1 then (inl (obs, reward, true), w')
    else if step_limit w + 1 <? cur_step c' then (inr AssertionError, w')
    else (inl (obs, reward, done), w')
  end.

End Wrapper.

End EnvLimitWrapper.

(** ** A concrete configuration

    The map of NetHack as NLE shows it, 21 rows of 79 columns, with the glyph
    numbering of NetHack 3.6 (monsters from 0, pets from 381, map symbols
    from 2359 in the order of [defsym.h]); a generator whose shuffle leaves
    the list as it is, one of the permutations [rng.shuffle] can produce; and
    an environment that replays a script of replies. *)

Definition S_stone : Z := 2359.
Definition S_vwall : Z := 2360.
Definition S_hwall : Z := 2361.
Definition S_ndoor : Z := 2371.
Definition S_vodoor : Z := 2372.
Definition S_hodoor : Z := 2373.
Definition S_vcdoor : Z := 2374.
Definition S_hcdoor : Z := 2375.
Definition S_room : Z := 2378.
Definition S_darkroom : Z := 2379.
Definition S_corr : Z := 2380.
Definition S_upstair : Z := 2382.
Definition S_dnstair : Z := 2383.

Definition nle_glyphs : Glyphs :=
  {| FLOOR := {[ S_room; S_ndoor; S_darkroom ]};
     STONE := {[ S_stone ]};
     WALL := list_to_set (seqZ S_vwall 11);
     CORRIDOR := {[ S_corr ]};
     STAIR_UP := {[ S_upstair ]};
     STAIR_DOWN := {[ S_dnstair ]};
     DOOR_CLOSED := {[ S_vcdoor; S_hcdoor ]};
     DOOR_OPENED := {[ S_vodoor; S_hodoor ]};
     MONS := list_to_set (seqZ 0 381);
     PETS := list_to_set (seqZ 381 381) |}.

(** The glyph under which the hero is drawn, a monster glyph. *)
Definition hero : Z := 337.

(** A hostile monster glyph. *)
Definition jackal : Z := 10.

Definition fixed_rng : Rng :=
  {| RandomState := unit;
     rng_seed := fun _ => tt;
     rng_shuffle := fun r l => (l, r);
     rng_shuffle_perm := fun _ l => Permutation_refl l |}.

(** A generator whose shuffle reverses the list. *)
Definition reversing_rng : Rng :=
  {| RandomState := unit;
     rng_seed := fun _ => tt;
     rng_shuffle := fun r l => (rev l, r);
     rng_shuffle_perm := fun _ l => Permutation_sym (Permutation_rev l) |}.

(** An observation: the agent at [(y, x)] on level [(0, 1)], the listed
    glyphs on a map of stone. *)
Definition observe (y x : Z) (cells : list (cell * Z)) (tty : string) : Observation :=
  {| obs_glyphs := fold_left (fun g e => upd g e.1 e.2) cells (full S_stone);
     obs_blstats := {| bl_x := x; bl_y := y; dungeon_number := 0; level_number := 1 |};
     obs_message := "";
     obs_tty_chars := tty |}.

(** The scripted environment: [reset] and [step] hand out the next reply;
    past the end of the script the episode is done. *)
Definition script : Type := list (Observation * bool).

Definition script_reset (s : script) : Observation * script :=
  match s with
  | [] => (observe 0 0 [] "", [])
  | (obs, _) :: s' => (obs, s')
  end.

Definition script_step (s : script) (a : Action) : (Observation * Z * bool) * script :=
  match s with
  | [] => ((observe 0 0 [] "", 0, true), [])
  | (obs, done) :: s' => ((obs, 0, done), s')
  end.

Definition nle_with (r : Rng) : Config :=
  {| SIZE_Y := 21; SIZE_X := 79; G := nle_glyphs; R := r;
     Env := script; env_reset := script_reset; env_step := script_step |}.

Definition nle : Config := nle_with fixed_rng.

(** The level a fresh [Level] becomes after one [update_level] on an
    observation, under the fixed generator. *)
Definition level_of (obs : Observation) : Level :=
  (@update_level nle (obs_glyphs obs) (bl_y (obs_blstats obs))
                 (bl_x (obs_blstats obs)) (Level_init, tt)).1.

(** The agent at [(1, 1)], floor at [(1, 2)], an open door at [(2, 2)]. *)
Definition door_corner : Observation :=
  observe 1 1 [((1, 1), hero); ((1, 2), S_room); ((2, 2), S_vodoor)] "".

(** The agent at [(1, 1)], floor at [(1, 2)], a closed door at [(1, 3)]. *)
Definition closed_door_row : Observation :=
  observe 1 1 [((1, 1), hero); ((1, 2), S_room); ((1, 3), S_vcdoor)] "".

(** The agent at [(5, 5)] between floor at [(5, 4)], a door just opened at
    [(5, 6)] and a second door, still closed, at [(4, 5)]. *)
Definition two_doors : Observation :=
  observe 5 5 [((5, 5), hero); ((5, 4), S_room); ((5, 6), S_vodoor);
               ((4, 5), S_hcdoor)] "".

(** The agent at [(5, 5)], floor on three sides and a closed door to the
    east, at [(5, 6)]. *)
Definition by_door : Observation :=
  observe 5 5 [((5, 5), hero); ((5, 4), S_room); ((5, 6), S_vcdoor);
               ((4, 5), S_room); ((6, 5), S_room)] "".

(** The same view with a jackal come into sight at [(5, 8)]. *)
Definition by_door_jackal : Observation :=
  observe 5 5 [((5, 5), hero); ((5, 4), S_room); ((5, 6), S_vcdoor);
               ((4, 5), S_room); ((6, 5), S_room); ((5, 8), jackal)] "".

(** The agent at [(5, 5)] with floor on its four sides. *)
Definition open_floor : Observation :=
  observe 5 5 [((5, 5), hero); ((5, 4), S_room); ((5, 6), S_room);
               ((4, 5), S_room); ((6, 5), S_room)] "".

(** The same view with a jackal come into sight at [(5, 8)]. *)
Definition open_floor_jackal : Observation :=
  observe 5 5 [((5, 5), hero); ((5, 4), S_room); ((5, 6), S_room);
               ((4, 5), S_room); ((6, 5), S_room); ((5, 8), jackal)] "".

(** A closet of two cells between walls: floor at [(1, 1)] and the agent
    at [(1, 2)]. *)
Definition closet : Observation :=
  observe 1 2 [((1, 2), hero); ((1, 1), S_room);
               ((0, 0), S_hwall); ((0, 1), S_hwall); ((0, 2), S_hwall);
               ((0, 3), S_hwall); ((1, 0), S_vwall); ((1, 3), S_vwall);
               ((2, 0), S_hwall); ((2, 1), S_hwall); ((2, 2), S_hwall);
               ((2, 3), S_hwall)] "".

(** The level [l] with every cell searched [n] times. *)
Definition searched (n : Z) (l : Level) : Level :=
  {| walkable := walkable l; seen := seen l; objects := objects l;
     search_count := full n |}.

(** [Agent(env)] in a fresh process, on the environment that replays [s]. *)
Definition agent_on (s : script) : World :=
  (@Agent_init nle 10 ∅ s 0 false).2.

(** * Part II: properties stated about the program *)

Section Properties.

Context `{Config}.

(** [walkable[c]] implies [seen[c]], at every cell of a level. *)
Definition level_inv (l : Level) : Prop :=
  forall c, walkable l c = true -> seen l c = true.

(** The same of every level of the registry. *)
Definition registry_inv (w : World) : Prop :=
  forall key l, Agent_levels w !! key = Some l -> level_inv l.

(** [search_count[c]] of the level under [key]; a level that is not in the
    registry yet is created with zeros. *)
Definition count_of (w : World) (key : Z * Z) (c : cell) : Z :=
  match Agent_levels w !! key with
  | Some l => search_count l c
  | None => 0
  end.

(** The key [current_level] computes. *)
Definition current_key (w : World) : Z * Z :=
  (dungeon_number (blstats (self w)), level_number (blstats (self w))).

(** A computation keeps a property of the process state, whatever its
    outcome. *)
Definition preserves {A : Type} (P : World -> Prop) (m : M A) : Prop :=
  forall w, P w -> P (m w).2.

(** A computation leaves every search counter of every level as it was. *)
Definition counts_kept {A : Type} (m : M A) : Prop :=
  forall w key c, count_of (m w).2 key c = count_of w key c.

(** A computation leaves the run log as it was. *)
Definition log_kept {A : Type} (m : M A) : Prop :=
  forall w, all_panics (self (m w).2) = all_panics (self w).

(** The cell [move] expects to reach with the direction word [dir]. *)
Definition predicted (w : World) (dir : string) : cell :=
  (bl_y (blstats (self w)) + Z.b2z (contains "s" dir) - Z.b2z (contains "n" dir),
   bl_x (blstats (self w)) + Z.b2z (contains "e" dir) - Z.b2z (contains "w" dir)).

(** The eight direction words and the displacement each stands for. *)
Definition compass : list (string * Action * cell) :=
  [("n", CompassDirection_N, (-1, 0)); ("s", CompassDirection_S, (1, 0));
   ("e", CompassDirection_E, (0, 1)); ("w", CompassDirection_W, (0, -1));
   ("ne", CompassDirection_NE, (-1, 1)); ("se", CompassDirection_SE, (1, 1));
   ("nw", CompassDirection_NW, (-1, -1)); ("sw", CompassDirection_SW, (1, -1))].

End Properties.

Section Reachability.

Context `{Config}.

(** Paths of [n] steps from [src] along a step relation. *)
Inductive reach_by (step : cell -> cell -> Prop) (src : cell) : nat -> cell -> Prop :=
| reach_0 : reach_by step src 0 src
| reach_S n p q : reach_by step src n p -> step p q -> reach_by step src (S n) q.

(** The step relation [bfs] expands: [q] is one of the up to eight
    in-bounds neighbours of [p] and passes the test of the inner loop, which
    looks at [walkable] of [q] only. *)
Definition legal (level : Level) (p q : cell) : Prop :=
  In q (neighbors_fixed p.1 p.2 true) /\ step_ok level p q = true.

(** The movement-legality relation as the specification words it: both cells
    walkable, orthogonal steps always legal, diagonal steps legal only if
    neither cell's recorded object is a door. *)
Definition spec_legal (level : Level) (p q : cell) : Prop :=
  In q (neighbors_fixed p.1 p.2 true) /\
  walkable level p = true /\ walkable level q = true /\
  (Z.abs (q.1 - p.1) + Z.abs (q.2 - p.2) <= 1 \/
   ((objects level p ∉ DOORS G) /\ (objects level q ∉ DOORS G))).

Definition reach (level : Level) : cell -> nat -> cell -> Prop :=
  reach_by (legal level).

Definition spec_reach (level : Level) : cell -> nat -> cell -> Prop :=
  reach_by (spec_legal level).

(** [dis] is the field of shortest distances from [src] along [step]:
    [-1] exactly at the cells no path reaches, the least path length
    elsewhere. *)
Definition distance_field (step : cell -> cell -> Prop) (src : cell)
    (dis : grid Z) : Prop :=
  forall c,
    (dis c = -1 /\ forall n, ~ reach_by step src n c) \/
    (0 <= dis c /\ reach_by step src (Z.to_nat (dis c)) c /\
     forall n, reach_by step src n c -> (Z.to_nat (dis c) <= n)%nat).

(** Every legal step out of [p] leads to a cell that has its distance, at
    most one more than that of [p]. *)
Definition closed (level : Level) (dis : grid Z) (p : cell) : Prop :=
  forall q, legal level p q -> dis q <> -1 /\ dis q <= dis p + 1.

(** What holds of [dis] and the filled part of [buf] throughout [bfs]. *)
Record bfs_inv (level : Level) (src : cell) (dis : grid Z) (buf : list cell) : Prop := {
  inv_nodup : NoDup buf;
  inv_mem : forall c, dis c <> -1 <-> In c buf;
  inv_bounds : forall c, In c buf -> in_bounds c = true;
  inv_reach : forall c, In c buf ->
    0 <= dis c /\ reach level src (Z.to_nat (dis c)) c;
  inv_small : forall c, In c buf -> dis c < Z.of_nat (length buf);
  inv_sorted : forall i j a b,
    buf !! i = Some a -> buf !! j = Some b -> (i <= j)%nat -> dis a <= dis b;
  inv_src : dis src = 0
}.

(** The invariant of the [while] loop at [index]: the entries before
    [index] are closed and no distance exceeds that of the entry at [index]
    by more than one. *)
Definition outer_inv (level : Level) (src : cell) (dis : grid Z)
    (buf : list cell) (index : nat) : Prop :=
  bfs_inv level src dis buf /\
  (index <= length buf)%nat /\
  (forall i a, (i < index)%nat -> buf !! i = Some a -> closed level dis a) /\
  (forall p, buf !! index = Some p -> forall c, In c buf -> dis c <= dis p + 1).

(** The invariant of the inner [for] loop while [p = buf[index]] is
    expanded. *)
Definition inner_inv (level : Level) (src : cell) (dis : grid Z)
    (buf : list cell) (index : nat) (p : cell) : Prop :=
  bfs_inv level src dis buf /\
  buf !! index = Some p /\
  (forall i a, (i < index)%nat -> buf !! i = Some a -> closed level dis a) /\
  (forall c, In c buf -> dis c <= dis p + 1).

(** The neighbour [q] of [p] has been looked at. *)
Definition visited (level : Level) (dis : grid Z) (p q : cell) : Prop :=
  step_ok level p q = true -> dis q <> -1 /\ dis q <= dis p + 1.

(** Distances once given are kept. *)
Definition extends (dis dis' : grid Z) : Prop :=
  forall c, dis c <> -1 -> dis' c = dis c.

End Reachability.

Section StrategyProperties.

Context `{Config}.

(** Row-major order of the cells, the order of the double loops and of
    [nonzero()]. *)
Definition row_major_lt (a b : cell) : Prop :=
  a.1 < b.1 \/ (a.1 = b.1 /\ a.2 < b.2).

(** A neighbour that is unseen and shows stone, the test of [explore1]. *)
Definition unseen_stone (level : Level) (glyphs : grid Z) (p : cell) : bool :=
  negb (seen level p) && glyph_in (glyphs p) (STONE G).

(** A frontier cell: reached by the field, with one of its up to eight
    neighbours unseen and stone or one of its up to four orthogonal
    neighbours a closed door. *)
Definition frontier (level : Level) (glyphs : grid Z) (dis : grid Z) (c : cell) : bool :=
  negb (dis c =? -1) &&
  (existsb (unseen_stone level glyphs) (neighbors_fixed c.1 c.2 true) ||
   existsb (fun p => glyph_in (glyphs p) (DOOR_CLOSED G)) (neighbors_fixed c.1 c.2 false)).

(** The number of cells of [l] that pass [f]. *)
Definition count_in (f : cell -> bool) (l : list cell) : Z :=
  Z.of_nat (length (filter f l)).

(** The priority of a walkable, reached cell by the formula of [search1],
    in exact integers: the [+40] goes to a neighbour whose recorded object
    is stone. *)
Definition search_score (level : Level) (dis : grid Z) (c : cell) : Z :=
  -20 - dis c - 10 * search_count level c ^ 2
  + 15 * Z.b2z (glyph_in (objects level c) (CORRIDOR G))
  + 80 * Z.b2z (glyph_in (objects level c) (DOORS G))
  + 40 * count_in (fun p => glyph_in (objects level p) (STONE G))
                  (neighbors_fixed c.1 c.2 true)
  + 20 * count_in (fun p => glyph_in (objects level p) (WALL G))
                  (neighbors_fixed c.1 c.2 true).

(** The priority as the specification words it: the [+40] goes to a
    neighbour that is unseen and stone. *)
Definition spec_search_score (level : Level) (glyphs : grid Z) (dis : grid Z)
    (c : cell) : Z :=
  -20 - dis c - 10 * search_count level c ^ 2
  + 15 * Z.b2z (glyph_in (objects level c) (CORRIDOR G))
  + 80 * Z.b2z (glyph_in (objects level c) (DOORS G))
  + 40 * count_in (unseen_stone level glyphs) (neighbors_fixed c.1 c.2 true)
  + 20 * count_in (fun p => glyph_in (objects level p) (WALL G))
                  (neighbors_fixed c.1 c.2 true).

(** The order of priorities, minus infinity below every number. *)
Definition prio_le (a b : prio_t) : Prop :=
  match a, b with
  | NegInf, _ => True
  | Fin _, NegInf => False
  | Fin x, Fin y => x <= y
  end.

(** Whatever is written into [objects] at a cell, the cell is marked seen. *)
Definition recorded_seen (l : Level) : Prop :=
  forall c, objects l c <> -1 -> seen l c = true.

End StrategyProperties.

Section LevelProperties.

Context `{Config}.

(** The three classes of glyphs [update_level] tells apart, in the order
    of its tests. *)
Definition walk_glyph (g : Z) : bool :=
  any_contains g [FLOOR G; CORRIDOR G; STAIR_UP G; STAIR_DOWN G; DOOR_OPENED G].

Definition wall_glyph (g : Z) : bool :=
  any_contains g [WALL G; DOOR_CLOSED G].

Definition mon_glyph (g : Z) : bool :=
  any_contains g [MONS G; PETS G].

(** A cell next to the agent at [(y, x)] that shows stone. *)
Definition stone_near (glyphs : grid Z) (y x : Z) (c : cell) : bool :=
  bool_decide (c ∈ neighbors_fixed y x true) && glyph_in (glyphs c) (STONE G).

(** [l'] has every cell that [l] has seen or found walkable. *)
Definition grows (l l' : Level) : Prop :=
  forall c, (walkable l c = true -> walkable l' c = true) /\
            (seen l c = true -> seen l' c = true).

End LevelProperties.

Section RegistryProperties.

Context `{Config}.

(** Every level of [m] is still in [m'], under the same key, with every
    cell it had seen or found walkable. *)
Definition registry_grows (m m' : gmap (Z * Z) Level) : Prop :=
  forall key l, m !! key = Some l -> exists l', m' !! key = Some l' /\ grows l l'.

End RegistryProperties.

Section PathProperties.

Context `{Config}.

(** Each cell of [p] is followed by one of its up to eight neighbours, of
    greater distance. *)
Fixpoint climbs (dis : grid Z) (p : list cell) : Prop :=
  match p with
  | [] => True
  | a :: rest =>
    match rest with
    | [] => True
    | b :: _ => In b (neighbors_fixed a.1 a.2 true) /\ dis a < dis b
    end /\ climbs dis rest
  end.

(** The cells [path] appends after [cur]: each a neighbour of the one
    before, of smaller distance and reached. *)
Fixpoint descends (dis : grid Z) (cur : cell) (ext : list cell) : Prop :=
  match ext with
  | [] => True
  | c :: ext' =>
    In c (neighbors_fixed cur.1 cur.2 true) /\ 0 <= dis c < dis cur /\
    descends dis c ext'
  end.

End PathProperties.

Section StepProperties.

Context `{Config}.

(** The state [update_map] leaves when it returns: no prompt is pending,
    the agent's attributes are those of the last observation, and the level
    of the current key is in the registry and holds what the observation
    shows of walkable terrain. *)
Definition settled (w : World) : Prop :=
  let obs := last_observation (self w) in
  contains "--More--" (obs_tty_chars obs) = false /\
  contains "[yn]" (obs_tty_chars obs) = false /\
  blstats (self w) = obs_blstats obs /\
  glyphs (self w) = obs_glyphs obs /\
  message (self w) = obs_message obs /\
  exists l, Agent_levels w !! current_key w = Some l /\
    forall c, in_bounds c = true -> walk_glyph (glyphs (self w) c) = true ->
      walkable l c = true /\ seen l c = true /\ objects l c = glyphs (self w) c.

(** No cell of the grid other than the agent's shows a monster. *)
Definition no_monster (w : World) : Prop :=
  forall c, in_bounds c = true -> c <> position w -> glyphs (self w) c ∉ MONS G.

End StepProperties.

Section Protocol.

Context `{Config}.

(** A computation keeps a protocol of the environment: started on an
    environment of which [I] holds, it leaves one of which [I] holds again,
    unless it raises [AgentFinished], and then [V] holds of the environment
    it leaves. *)
Definition ensures (I V : Env -> Prop) {A : Type} (m : M A) : Prop :=
  forall w, I (env (self w)) ->
    match m w with
    | (Raise AgentFinished, w') => V (env (self w'))
    | (_, w') => I (env (self w'))
    end.

End Protocol.

(** The environment of [H] with two flags: the episode has been reported
    done; a step was asked for after that. *)
Definition monitored (H : Config) : Config :=
  {| SIZE_Y := @SIZE_Y H; SIZE_X := @SIZE_X H; G := @G H; R := @R H;
     Env := @Env H * (bool * bool);
     env_reset := fun e =>
       let '(obs, e') := @env_reset H e.1 in (obs, (e', (false, e.2.2)));
     env_step := fun e a =>
       let '(r, e') := @env_step H e.1 a in
       (r, (e', (e.2.1 || r.2, e.2.2 || e.2.1))) |}.

(** The second flag. *)
Definition stepped_when_done {H : Config} (w : @World (monitored H)) : bool :=
  (@env (monitored H) (@self (monitored H) w)).2.2.

(** The configuration of a batch run: the environment of [H] inside an
    [EnvLimitWrapper], together with the error the wrapper has raised, if
    any.  Once it has raised, the run is over; the reply put in its place
    ends the episode. *)
Definition limited (H : Config) (turns : @Env H -> Z) : Config :=
  {| SIZE_Y := @SIZE_Y H; SIZE_X := @SIZE_X H; G := @G H; R := @R H;
     Env := EnvLimitWrapper.t (@Env H) * option EnvLimitWrapper.error;
     env_reset := fun e =>
       let '(obs, w') := EnvLimitWrapper.reset (@Env H) (@env_reset H) e.1 in
       (obs, (w', e.2));
     env_step := fun e a =>
       match EnvLimitWrapper.step (@Env H) (@env_step H) turns e.1 a with
       | (inl r, w') => (r, (w', e.2))
       | (inr err, w') =>
         (({| obs_glyphs := full 0;
              obs_blstats := {| bl_x := 0; bl_y := 0;
                                dungeon_number := 0; level_number := 0 |};
              obs_message := ""; obs_tty_chars := "" |}, 0, true),
          (w', Some err))
       end |}.

(** The wrapper of a run and the error it has raised. *)
Definition wrapper_of {H : Config} {turns : @Env H -> Z}
    (w : @World (limited H turns)) : EnvLimitWrapper.t (@Env H) :=
  (@env (limited H turns) (@self (limited H turns) w)).1.

Definition raised_by_wrapper {H : Config} {turns : @Env H -> Z}
    (w : @World (limited H turns)) : option EnvLimitWrapper.error :=
  (@env (limited H turns) (@self (limited H turns) w)).2.

(** The wrapper has counted at most [n] steps. *)
Definition steps_at_most {Inner : Type} (n : Z) (w : EnvLimitWrapper.t Inner) : Prop :=
  exists c, EnvLimitWrapper.counters Inner w = Some c /\ EnvLimitWrapper.cur_step c <= n.

Section TargetProperties.

Context `{Config}.

(** A monster [fight1] may head for: on another cell than the agent's and
    reached by the field. *)
Definition monster_at (w : World) (dis : grid Z) (c : cell) : bool :=
  negb (bool_decide (c = position w))
  && glyph_in (glyphs (self w) c) (MONS G)
  && negb (dis c =? -1).

(** The double loop of [fight1]. *)
Definition closest_monster (w : World) (dis : grid Z) : option cell :=
  fold_left
    (fun (closest : option cell) c =>
       if monster_at w dis c
          && match closest with
             | None => true
             | Some c' => dis c <? dis c'
             end
       then Some c else closest)
    all_cells None.

(** The double loop of [move_down]. *)
Definition first_stairs_down (level : Level) : option cell :=
  find (fun c => glyph_in (objects level c) (STAIR_DOWN G)) all_cells.

End TargetProperties.

(** * Part III: lemmas and theorems *)

Section GridFacts.

Lemma upd_eq {A : Type} (g : grid A) c v : upd g c v c = v.
Proof. unfold upd. destruct (decide (c = c)); congruence. Qed.

Lemma upd_ne {A : Type} (g : grid A) c c' v : c' <> c -> upd g c v c' = g c'.
Proof. unfold upd. intros Hne. destruct (decide (c' = c)); congruence. Qed.

Lemma wrap16_id z : -32768 <= z <= 32767 -> wrap16 z = z.
Proof. intros Hz. unfold wrap16. rewrite Z.mod_small; lia. Qed.

Lemma wrapu16_id z : 0 <= z <= 65535 -> wrapu16 z = z.
Proof. intros Hz. unfold wrapu16. rewrite Z.mod_small; lia. Qed.

Lemma wrap32_id z : -2147483648 <= z <= 2147483647 -> wrap32 z = z.
Proof. intros Hz. unfold wrap32. rewrite Z.mod_small; lia. Qed.

Lemma fold_left_preserves {A B : Type} (P : A -> Prop) (f : A -> B -> A) l :
  (forall a b, P a -> P (f a b)) -> forall a, P a -> P (fold_left f l a).
Proof. intros Hf. induction l as [|b l IH]; simpl; auto. Qed.

End GridFacts.

Section LevelFacts.

Context `{Config}.

Lemma Level_init_inv : level_inv Level_init.
Proof. intros c. unfold Level_init, full. simpl. discriminate. Qed.

Lemma update_cell_inv glyphs l c : level_inv l -> level_inv (update_cell glyphs l c).
Proof.
  intros Hl c'. unfold update_cell.
  repeat match goal with |- context [if ?b then _ else _] => destruct b end;
    simpl; unfold upd; try apply Hl;
    destruct (decide (c' = c)); auto.
Qed.

Lemma update_stone_inv glyphs l c : level_inv l -> level_inv (update_stone glyphs l c).
Proof.
  intros Hl c'. unfold update_stone.
  destruct (glyph_in _ _); simpl; unfold upd; try apply Hl.
  destruct (decide (c' = c)); auto.
Qed.

Lemma update_level_inv glyphs y x st :
  level_inv st.1 -> level_inv (update_level glyphs y x st).1.
Proof.
  intros Hl. unfold update_level.
  destruct (neighbors st.2 y x true true) as [nb r]. simpl.
  apply fold_left_preserves; [intros; by apply update_stone_inv|].
  apply fold_left_preserves; [intros; by apply update_cell_inv|]. done.
Qed.

Lemma bump_search_count_inv c l : level_inv l -> level_inv (bump_search_count c l).
Proof. intros Hl c'. simpl. apply Hl. Qed.

End LevelFacts.

Section GridEnumeration.

Context `{Config}.

Lemma in_range n z : In z (range n) <-> 0 <= z < n.
Proof.
  unfold range. rewrite <- list_elem_of_In, elem_of_seqZ. lia.
Qed.

Lemma in_all_cells c : In c all_cells <-> in_bounds c = true.
Proof.
  unfold all_cells, in_bounds. rewrite in_flat_map. split.
  - intros (y & Hy & Hc). apply in_map_iff in Hc as (x & <- & Hx).
    apply in_range in Hy, Hx. simpl. lia.
  - intros Hb. destruct c as [y x]. simpl in Hb. exists y.
    rewrite in_range, in_map_iff. split; [lia|]. exists x.
    rewrite in_range. split; [done | lia].
Qed.

Lemma length_all_cells :
  Z.of_nat (length all_cells) = Z.max 0 SIZE_Y * Z.max 0 SIZE_X.
Proof.
  unfold all_cells, range.
  assert (Hlen : forall l : list Z,
    length (flat_map (fun y => map (fun x => (y, x)) (seqZ 0 SIZE_X)) l)
    = (length l * Z.to_nat SIZE_X)%nat).
  { induction l as [|a l IH]; simpl; [done|].
    rewrite length_app, length_map, length_seqZ, IH. lia. }
  rewrite Hlen, length_seqZ. lia.
Qed.

Lemma neighbors_fixed_spec y x diagonal q :
  In q (neighbors_fixed y x diagonal) <->
  in_bounds q = true /\ q <> (y, x) /\
  Z.abs (q.1 - y) <= 1 /\ Z.abs (q.2 - x) <= 1 /\
  (diagonal = false -> Z.abs (q.1 - y) + Z.abs (q.2 - x) <= 1).
Proof.
  unfold neighbors_fixed, in_bounds. destruct q as [qy qx].
  rewrite in_flat_map. cbn [fst snd]. split.
  - intros (dy & Hdy & Hq). apply in_flat_map in Hq as (dx & Hdx & Hq).
    simpl in Hdy, Hdx.
    destruct Hdy as [<-|[<-|[<-|[]]]]; destruct Hdx as [<-|[<-|[<-|[]]]];
      simpl in Hq; destruct diagonal; simpl in Hq;
      repeat match type of Hq with
             | In _ (if ?b then _ else _) => destruct b eqn:?
             end;
      simpl in Hq; try tauto; destruct Hq as [Hq|[]]; inversion Hq; subst;
      (split; [lia|]); (split; [intros Heq; inversion Heq; lia|]);
      repeat split; try lia; intros; try discriminate; lia.
  - intros (Hb & Hne & Hy & Hx & Hd).
    exists (qy - y). split; [simpl; lia|].
    apply in_flat_map. exists (qx - x). split; [simpl; lia|].
    destruct ((qy - y =? 0) && (qx - x =? 0)) eqn:E0.
    { exfalso. apply Hne. f_equal; lia. }
    destruct (negb diagonal && (1 <? Z.abs (qy - y) + Z.abs (qx - x))) eqn:E1.
    { exfalso. destruct diagonal; simpl in E1; [discriminate|].
      specialize (Hd eq_refl). lia. }
    replace (y + (qy - y)) with qy by lia. replace (x + (qx - x)) with qx by lia.
    rewrite Hb. by left.
Qed.

Lemma neighbors_fixed_in_bounds y x diagonal q :
  In q (neighbors_fixed y x diagonal) -> in_bounds q = true.
Proof. intros Hq. by apply neighbors_fixed_spec in Hq as [? _]. Qed.

Lemma neighbors_perm rng y x shuffle diagonal :
  Permutation (neighbors rng y x shuffle diagonal).1 (neighbors_fixed y x diagonal).
Proof.
  unfold neighbors. destruct shuffle; simpl; [apply rng_shuffle_perm | done].
Qed.

Lemma in_neighbors rng y x shuffle diagonal q :
  In q (neighbors rng y x shuffle diagonal).1 <-> In q (neighbors_fixed y x diagonal).
Proof.
  split; apply Permutation_in;
    [apply neighbors_perm | apply Permutation_sym, neighbors_perm].
Qed.

End GridEnumeration.

Section BfsFacts.

Context `{Config}.

Variable level : Level.
Variable src : cell.

Hypothesis size_fits : SIZE_Y * SIZE_X <= 32767.

Lemma in_bounds_fits c :
  in_bounds c = true -> 0 <= c.1 <= 65535 /\ 0 <= c.2 <= 65535.
Proof. unfold in_bounds. intros Hb. nia. Qed.

Lemma in_bounds_wrapu16 c :
  in_bounds c = true -> (wrapu16 c.1, wrapu16 c.2) = c.
Proof.
  intros Hb. apply in_bounds_fits in Hb as [? ?].
  rewrite !wrapu16_id by lia. by destruct c.
Qed.

Lemma bfs_inv_length dis buf :
  bfs_inv level src dis buf -> Z.of_nat (length buf) <= 32767.
Proof.
  intros Hinv.
  assert (length buf <= length all_cells)%nat as Hle.
  { apply submseteq_length, NoDup_submseteq; [apply (inv_nodup _ _ _ _ Hinv)|].
    intros c Hc. apply list_elem_of_In, in_all_cells.
    by apply (inv_bounds _ _ _ _ Hinv), list_elem_of_In. }
  pose proof length_all_cells as Hlen.
  destruct buf as [|c0 buf'] eqn:Ebuf; [simpl; lia|].
  assert (in_bounds c0 = true) as Hb.
  { apply (inv_bounds _ _ _ _ Hinv). by left. }
  unfold in_bounds in Hb. rewrite <- Ebuf in *. nia.
Qed.

Lemma extends_refl dis : extends dis dis.
Proof. by intros c _. Qed.

Lemma extends_trans d1 d2 d3 : extends d1 d2 -> extends d2 d3 -> extends d1 d3.
Proof.
  intros H12 H23 c Hc. rewrite H23; [by apply H12|]. by rewrite H12.
Qed.

Lemma visited_extends dis dis' p q :
  dis p <> -1 -> extends dis dis' -> visited level dis p q -> visited level dis' p q.
Proof.
  intros Hp Hext Hv Hok. destruct (Hv Hok) as [Hq Hle].
  rewrite (Hext q Hq), (Hext p Hp). done.
Qed.

Lemma closed_extends dis dis' p :
  dis p <> -1 -> extends dis dis' -> closed level dis p -> closed level dis' p.
Proof.
  intros Hp Hext Hc q Hq. destruct (Hc q Hq) as [Hq1 Hle].
  rewrite (Hext q Hq1), (Hext p Hp). done.
Qed.

(** One round of the inner loop. *)
Lemma bfs_visit_inv dis buf index p q :
  inner_inv level src dis buf index p ->
  In q (neighbors_fixed p.1 p.2 true) ->
  let st := bfs_visit level p (dis, buf) q in
  inner_inv level src st.1 st.2 index p /\
  visited level st.1 p q /\
  extends dis st.1.
Proof.
  intros (Hinv & Hp & Hdone & Hhead) Hq. simpl.
  assert (In p buf) as Hpin by (apply list_elem_of_In; by eapply list_elem_of_lookup_2).
  destruct (inv_reach _ _ _ _ Hinv p Hpin) as [Hp0 Hpr].
  pose proof (inv_small _ _ _ _ Hinv p Hpin) as Hpsmall.
  pose proof (bfs_inv_length _ _ Hinv) as Hlen.
  unfold bfs_visit. cbn [fst snd].
  destruct (step_ok level p q) eqn:Hok; cycle 1.
  { split; [done|]. split; [|apply extends_refl]. intros Hok'. congruence. }
  destruct (dis q =? -1) eqn:Hdq; cycle 1.
  { apply Z.eqb_neq in Hdq. split; [done|]. split; [|apply extends_refl].
    intros _. split; [done|]. apply Hhead. by apply (inv_mem _ _ _ _ Hinv). }
  apply Z.eqb_eq in Hdq. cbn [fst snd].
  assert (in_bounds q = true) as Hqb by (by eapply neighbors_fixed_in_bounds).
  rewrite (in_bounds_wrapu16 q Hqb), wrap16_id by lia.
  assert (~ In q buf) as Hqnot.
  { intros Hin. apply (inv_mem _ _ _ _ Hinv) in Hin. done. }
  assert (Hold : forall c, In c buf -> upd dis q (dis p + 1) c = dis c).
  { intros c Hc. apply upd_ne. intros ->. done. }
  assert (Hext : extends dis (upd dis q (dis p + 1))).
  { intros c Hc. apply Hold. by apply (inv_mem _ _ _ _ Hinv). }
  split; [|split; [|done]].
  - split; [|split; [|split]].
    + split.
      * apply NoDup_app. repeat split;
          [apply (inv_nodup _ _ _ _ Hinv)| |apply NoDup_singleton].
        intros c Hc Hc'. apply list_elem_of_In in Hc, Hc'.
        destruct Hc' as [<-|[]]. done.
      * intros c. rewrite in_app_iff. split.
        -- intros Hc. destruct (decide (c = q)) as [->|Hne]; [right; by left|].
           left. rewrite upd_ne in Hc by done. by apply (inv_mem _ _ _ _ Hinv).
        -- intros [Hc|[<-|[]]].
           ++ rewrite Hold by done. by apply (inv_mem _ _ _ _ Hinv).
           ++ rewrite upd_eq. lia.
      * intros c. rewrite in_app_iff. intros [Hc|[<-|[]]]; [|done].
        by apply (inv_bounds _ _ _ _ Hinv).
      * intros c. rewrite in_app_iff. intros [Hc|[<-|[]]].
        -- rewrite Hold by done. by apply (inv_reach _ _ _ _ Hinv).
        -- rewrite upd_eq. split; [lia|].
           replace (Z.to_nat (dis p + 1)) with (S (Z.to_nat (dis p))) by lia.
           eapply reach_S; [exact Hpr|]. by split.
      * intros c. rewrite length_app, in_app_iff. simpl.
        intros [Hc|[<-|[]]].
        -- rewrite Hold by done. pose proof (inv_small _ _ _ _ Hinv c Hc). lia.
        -- rewrite upd_eq. lia.
      * intros i j a b Ha Hb Hij.
        apply lookup_app_Some in Ha, Hb.
        destruct Hb as [Hb|[Hjlen Hb]].
        -- destruct Ha as [Ha|[Hilen Ha]].
           ++ rewrite !Hold by (apply list_elem_of_In; by eapply list_elem_of_lookup_2).
              by eapply (inv_sorted _ _ _ _ Hinv).
           ++ apply lookup_lt_Some in Hb. lia.
        -- apply list_lookup_singleton_Some in Hb as [_ <-]. rewrite upd_eq.
           destruct Ha as [Ha|[Hilen Ha]].
           ++ assert (In a buf) as Hain
                by (apply list_elem_of_In; by eapply list_elem_of_lookup_2).
              rewrite Hold by done. by apply Hhead.
           ++ apply list_lookup_singleton_Some in Ha as [_ <-]. rewrite upd_eq. lia.
      * rewrite upd_ne; [apply (inv_src _ _ _ _ Hinv)|]. intros ->.
        pose proof (inv_src _ _ _ _ Hinv). lia.
    + apply lookup_app_Some. by left.
    + intros i a Hi Ha. apply lookup_app_Some in Ha as [Ha|[Hlen' _]].
      * eapply closed_extends; [|exact Hext|by eapply Hdone].
        apply (inv_mem _ _ _ _ Hinv), list_elem_of_In. by eapply list_elem_of_lookup_2.
      * apply lookup_lt_Some in Hp. lia.
    + intros c. rewrite in_app_iff, (Hold p Hpin). intros [Hc|[<-|[]]].
      * rewrite Hold by done. by apply Hhead.
      * rewrite upd_eq. lia.
  - intros _. rewrite upd_eq, (Hold p Hpin). lia.
Qed.

(** The inner loop over a list of neighbours of [p]. *)
Lemma bfs_visit_fold l : forall dis buf index p,
  inner_inv level src dis buf index p ->
  (forall q, In q l -> In q (neighbors_fixed p.1 p.2 true)) ->
  let st := fold_left (bfs_visit level p) l (dis, buf) in
  inner_inv level src st.1 st.2 index p /\
  (forall q, In q l -> visited level st.1 p q) /\
  extends dis st.1.
Proof.
  induction l as [|q l IH]; intros dis buf index p Hinv Hl; simpl.
  { split; [done|]. split; [intros ? []|apply extends_refl]. }
  destruct (bfs_visit_inv dis buf index p q Hinv) as (Hinv1 & Hv1 & Hext1).
  { apply Hl. by left. }
  destruct (bfs_visit level p (dis, buf) q) as [dis1 buf1] eqn:E1. cbn [fst snd] in *.
  destruct (IH dis1 buf1 index p Hinv1) as (Hinv2 & Hv2 & Hext2).
  { intros q' Hq'. apply Hl. by right. }
  split; [done|]. split; [|by eapply extends_trans].
  intros q' [<-|Hq']; [|by apply Hv2].
  eapply visited_extends; [|exact Hext2|exact Hv1].
  destruct Hinv1 as (Hb1 & Hp1 & _).
  apply (inv_mem _ _ _ _ Hb1), list_elem_of_In. by eapply list_elem_of_lookup_2.
Qed.

Lemma bfs_inv_length_cells dis buf :
  bfs_inv level src dis buf -> (length buf <= length all_cells)%nat.
Proof.
  intros Hinv.
  apply submseteq_length, NoDup_submseteq; [apply (inv_nodup _ _ _ _ Hinv)|].
  intros c Hc. apply list_elem_of_In, in_all_cells.
  by apply (inv_bounds _ _ _ _ Hinv), list_elem_of_In.
Qed.

(** The [while] loop ends within its bound, with every queued cell closed. *)
Lemma bfs_loop_inv fuel : forall rng dis buf index,
  outer_inv level src dis buf index ->
  (length all_cells < index + fuel)%nat ->
  exists dis' rng' buf',
    bfs_loop fuel level rng dis buf index = Some (dis', rng') /\
    bfs_inv level src dis' buf' /\
    forall a, In a buf' -> closed level dis' a.
Proof.
  induction fuel as [|fuel IH]; intros rng dis buf index (Hinv & Hidx & Hdone & Hhead) Hfuel.
  { pose proof (bfs_inv_length_cells _ _ Hinv). lia. }
  cbn [bfs_loop]. destruct (buf !! index) as [p|] eqn:Hp; cycle 1.
  { exists dis, rng, buf. split; [done|]. split; [done|].
    intros a Ha. apply list_elem_of_In, list_elem_of_lookup in Ha as [i Hi].
    apply (Hdone i a); [|done].
    apply lookup_ge_None in Hp. apply lookup_lt_Some in Hi. lia. }
  destruct (neighbors rng p.1 p.2 true true) as [nb rng1] eqn:Hnb.
  destruct (bfs_visit_fold nb dis buf index p) as ((Hinv1 & Hp1 & Hdone1 & Hhead1) & Hv & Hext).
  { split; [done|]. split; [done|]. split; [done|]. by apply Hhead. }
  { intros q Hq. apply (in_neighbors rng p.1 p.2 true true). by rewrite Hnb. }
  destruct (fold_left (bfs_visit level p) nb (dis, buf)) as [dis1 buf1] eqn:Hfold.
  cbn [fst snd] in *.
  apply IH; [|lia].
  assert (closed level dis1 p) as Hclosed.
  { intros q [Hq Hok]. apply Hv; [|done].
    apply (in_neighbors rng p.1 p.2 true true) in Hq. by rewrite Hnb in Hq. }
  split; [done|]. split; [|split].
  - apply lookup_lt_Some in Hp1. lia.
  - intros i a Hi Ha. destruct (decide (i = index)) as [->|Hne].
    + assert (a = p) as -> by congruence. done.
    + apply (Hdone1 i a); [lia|done].
  - intros p' Hp' c Hc.
    pose proof (inv_sorted _ _ _ _ Hinv1 index (S index) p p' Hp1 Hp') as Hle.
    specialize (Hhead1 c Hc). lia.
Qed.

(** Every cell a path reaches has its distance, at most the length of the
    path. *)
Lemma closed_reach dis buf :
  bfs_inv level src dis buf ->
  (forall a, In a buf -> closed level dis a) ->
  forall n c, reach level src n c -> dis c <> -1 /\ dis c <= Z.of_nat n.
Proof.
  intros Hinv Hclosed n c Hr. induction Hr as [|n p q Hr IH Hstep].
  - rewrite (inv_src _ _ _ _ Hinv). lia.
  - destruct IH as [Hp Hle].
    apply (inv_mem _ _ _ _ Hinv) in Hp.
    destruct (Hclosed p Hp q Hstep) as [Hq Hle']. lia.
Qed.

Lemma bfs_run_inv rng y x :
  src = (y, x) ->
  in_bounds src = true ->
  exists dis rng' buf,
    bfs level rng y x = Some (dis, rng') /\
    bfs_inv level src dis buf /\
    forall a, In a buf -> closed level dis a.
Proof.
  intros Hsrc Hb. unfold bfs.
  pose proof (in_bounds_wrapu16 src Hb) as Hw. rewrite Hsrc in Hw. cbn [fst snd] in Hw.
  rewrite Hw, <- Hsrc.
  apply bfs_loop_inv; [|lia].
  split; [|split; [simpl; lia|split; [intros; lia|]]].
  - split.
    + apply NoDup_singleton.
    + intros c. simpl. destruct (decide (c = src)) as [->|Hne].
      * rewrite upd_eq. split; [by left|lia].
      * rewrite upd_ne by done. unfold full. split; [done|].
        intros [<-|[]]. done.
    + intros c [<-|[]]. done.
    + intros c [<-|[]]. rewrite upd_eq. split; [lia|]. apply reach_0.
    + intros c [<-|[]]. rewrite upd_eq. simpl. lia.
    + intros i j a b Ha Hb' _.
      apply list_lookup_singleton_Some in Ha as [_ <-].
      apply list_lookup_singleton_Some in Hb' as [_ <-]. lia.
    + apply upd_eq.
  - intros p Hp c [<-|[]]. apply list_lookup_singleton_Some in Hp as [_ <-]. lia.
Qed.

Lemma bfs_distance_field rng y x :
  src = (y, x) ->
  in_bounds src = true ->
  exists dis rng',
    bfs level rng y x = Some (dis, rng') /\
    dis src = 0 /\
    distance_field (legal level) src dis /\
    forall c, -1 <= dis c <= 32767.
Proof.
  intros Hsrc Hb.
  destruct (bfs_run_inv rng y x Hsrc Hb) as (dis & rng' & buf & Hrun & Hinv & Hclosed).
  exists dis, rng'. split; [done|]. split; [apply (inv_src _ _ _ _ Hinv)|]. split.
  - intros c. destruct (decide (dis c = -1)) as [Hc|Hc].
    + left. split; [done|]. intros n Hr.
      by destruct (closed_reach dis buf Hinv Hclosed n c Hr).
    + right. apply (inv_mem _ _ _ _ Hinv) in Hc.
      destruct (inv_reach _ _ _ _ Hinv c Hc) as [H0 Hr]. split; [done|]. split; [done|].
      intros n Hn. destruct (closed_reach dis buf Hinv Hclosed n c Hn). lia.
  - intros c. destruct (decide (dis c = -1)) as [Hc|Hc]; [lia|].
    apply (inv_mem _ _ _ _ Hinv) in Hc.
    destruct (inv_reach _ _ _ _ Hinv c Hc) as [H0 _].
    pose proof (inv_small _ _ _ _ Hinv c Hc).
    pose proof (bfs_inv_length _ _ Hinv). lia.
Qed.

End BfsFacts.

Section BfsClaims.

Context `{Config}.

Lemma step_ok_walkable level p q : step_ok level p q = true -> walkable level q = true.
Proof. unfold step_ok. intros Hok. by apply andb_prop in Hok as [? _]. Qed.

Lemma legal_spec_legal level p q :
  spec_legal level p q <-> walkable level p = true /\ legal level p q.
Proof.
  unfold spec_legal, legal, step_ok, glyph_in. split.
  - intros (Hq & Hp & Hwq & Hstep). split; [done|]. split; [done|].
    rewrite Hwq. simpl. destruct Hstep as [Ho|[Hdp Hdq]].
    + apply orb_true_iff. left. by apply Z.leb_le.
    + apply orb_true_iff. right.
      by rewrite !bool_decide_eq_false_2.
  - intros (Hp & Hq & Hok). apply andb_prop in Hok as [Hwq Hstep].
    split; [done|]. split; [done|]. split; [done|].
    apply orb_prop in Hstep as [Ho|Hd].
    + left. by apply Z.leb_le.
    + right. apply andb_prop in Hd as [Hdq Hdp].
      apply negb_true_iff, bool_decide_eq_false in Hdq, Hdp. done.
Qed.

(** From a walkable source the two relations reach the same cells by the
    same paths. *)
Lemma reach_spec_reach level src n c :
  walkable level src = true ->
  reach level src n c <-> spec_reach level src n c.
Proof.
  intros Hsrc. split.
  - intros Hr.
    assert (spec_reach level src n c /\ walkable level c = true) as [? _]; [|done].
    induction Hr as [|n p q Hr [IH Hp] Hstep].
    + split; [apply reach_0|done].
    + split.
      * eapply reach_S; [exact IH|]. by apply legal_spec_legal.
      * destruct Hstep as [_ Hok]. by eapply step_ok_walkable.
  - intros Hr. induction Hr as [|n p q Hr IH Hstep].
    + apply reach_0.
    + eapply reach_S; [exact IH|]. by apply legal_spec_legal in Hstep as [_ ?].
Qed.

(** C2, as amended: for every in-bounds source on a map whose cells fit the
    16-bit field, [bfs] returns; its field is 0 at the source, the least
    number of steps at every cell some path reaches, and -1 at every other
    cell, where a step from [p] to a neighbour [q] asks that [q] is walkable
    and that the step is orthogonal or neither cell records a door.  The
    walkability of the source itself is not asked for. *)
Theorem C2_bfs_distance_field (level : Level) (rng : RandomState R) (y x : Z) :
  SIZE_Y * SIZE_X <= 32767 ->
  in_bounds (y, x) = true ->
  exists dis rng',
    bfs level rng y x = Some (dis, rng') /\
    dis (y, x) = 0 /\
    distance_field (legal level) (y, x) dis.
Proof.
  intros Hsize Hb.
  destruct (bfs_distance_field level (y, x) Hsize rng y x eq_refl Hb)
    as (dis & rng' & Hrun & H0 & Hfield & _).
  by exists dis, rng'.
Qed.

(** For a walkable source the field is the one of the relation that asks
    both cells of a step to be walkable. *)
Lemma bfs_walkable_source (level : Level) (rng : RandomState R) (y x : Z) :
  SIZE_Y * SIZE_X <= 32767 ->
  in_bounds (y, x) = true ->
  walkable level (y, x) = true ->
  exists dis rng',
    bfs level rng y x = Some (dis, rng') /\
    dis (y, x) = 0 /\
    distance_field (spec_legal level) (y, x) dis.
Proof.
  intros Hsize Hb Hw.
  destruct (bfs_distance_field level (y, x) Hsize rng y x eq_refl Hb)
    as (dis & rng' & Hrun & H0 & Hfield & _).
  exists dis, rng'. split; [done|]. split; [done|].
  intros c. destruct (Hfield c) as [[Hc Hno]|(Hc & Hr & Hmin)].
  - left. split; [done|]. intros n Hn. apply (Hno n).
    by apply reach_spec_reach.
  - right. split; [done|]. split.
    + by apply reach_spec_reach.
    + intros n Hn. apply Hmin. by apply reach_spec_reach.
Qed.

End BfsClaims.

(** C2, the theorem at work: the field from the agent's cell of
    [door_corner] on the 21 by 79 map. *)
Lemma C2_bfs_distance_field_witness :
  @SIZE_Y nle * @SIZE_X nle <= 32767 /\
  @in_bounds nle (1, 1) = true /\
  exists dis rng',
    @bfs nle (level_of door_corner) tt 1 1 = Some (dis, rng') /\
    dis (1, 1) = 0 /\
    distance_field (@legal nle (level_of door_corner)) (1, 1) dis.
Proof.
  split; [vm_compute; discriminate|]. split; [reflexivity|].
  apply (@C2_bfs_distance_field nle (level_of door_corner) tt 1 1).
  - vm_compute. discriminate.
  - reflexivity.
Defined.

(** C2 as stated fails where the source is not walkable: from the closed
    door of [closed_door_row] the code gives the floor beside it distance 1,
    and no path of the relation that asks both cells to be walkable leaves
    the door. *)
Lemma C2_counterexample :
  exists dis rng',
    @bfs nle (level_of closed_door_row) tt 1 3 = Some (dis, rng') /\
    dis (1, 2) = 1 /\
    (forall n, ~ @spec_reach nle (level_of closed_door_row) (1, 3) n (1, 2)) /\
    ~ distance_field (@spec_legal nle (level_of closed_door_row)) (1, 3) dis.
Proof.
  assert (Hrun : option_map (fun r => r.1 (1, 2))
                   (@bfs nle (level_of closed_door_row) tt 1 3) = Some 1)
    by (vm_compute; reflexivity).
  destruct (@bfs nle (level_of closed_door_row) tt 1 3) as [[dis rng']|];
    [|discriminate].
  cbv beta iota delta [option_map fst] in Hrun. injection Hrun as Hdis.
  assert (Hno : forall n, ~ @spec_reach nle (level_of closed_door_row) (1, 3) n (1, 2)).
  { intros n Hr. inversion Hr as [|n' p q Hr' Hstep]; subst.
    clear Hr. revert Hstep. generalize (eq_refl (1, 2)).
    generalize (1, 2) at 1 3. intros q Hq Hstep.
    assert (Hw : forall m c, @spec_reach nle (level_of closed_door_row) (1, 3) m c ->
                 c = (1, 3)).
    { intros m c Hm. induction Hm as [|m a b Hm IH Hab]; [done|].
      subst a. destruct Hab as (_ & Hwa & _). vm_compute in Hwa. discriminate. }
    apply Hw in Hr'. subst p. destruct Hstep as (_ & Hwa & _).
    vm_compute in Hwa. discriminate. }
  exists dis, rng'. split; [done|]. split; [done|]. split; [done|].
  intros Hfield. destruct (Hfield (1, 2)) as [[Hc _]|(_ & Hr & _)].
  - lia.
  - by apply Hno in Hr.
Qed.

(** C1, the code at the failing input: on [door_corner] the open door at
    [(2, 2)] lies two steps from the agent at [(1, 1)], the path the code
    returns under the fixed order of neighbours has two cells instead of
    three, and its one step is a diagonal into the door, which is not a step
    of the relation. *)
Theorem C1_path_door_corner :
  option_map (fun r => r.1 (2, 2)) (@bfs nle (level_of door_corner) tt 1 1) = Some 2 /\
  (@path nle (level_of door_corner) tt 1 1 2 2 None).1 = Ok [(1, 1); (2, 2)] /\
  ~ @legal nle (level_of door_corner) (1, 1) (2, 2) /\
  ~ @spec_legal nle (level_of door_corner) (1, 1) (2, 2).
Proof.
  split; [vm_compute; reflexivity|]. split; [vm_compute; reflexivity|].
  assert (Hno : ~ @legal nle (level_of door_corner) (1, 1) (2, 2)).
  { intros [_ Hok]. vm_compute in Hok. discriminate. }
  split; [done|]. intros Hs. apply Hno. by apply legal_spec_legal in Hs as [_ ?].
Qed.

(** Under another order of the neighbours the same call returns the legal
    path: which one the code returns is up to the random stream. *)
Lemma path_door_corner_reversed :
  (@path (nle_with reversing_rng) (level_of door_corner) tt 1 1 2 2 None).1
  = Ok [(1, 1); (1, 2); (2, 2)].
Proof. vm_compute. reflexivity. Qed.

Section RowMajor.

Context `{Config}.

Lemma count_in_cons f p l :
  count_in f (p :: l) = Z.b2z (f p) + count_in f l.
Proof.
  unfold count_in. rewrite filter_cons.
  destruct (decide (f p)) as [Hf|Hf]; destruct (f p); simpl in *; try done; lia.
Qed.

Lemma count_in_nil f : count_in f [] = 0.
Proof. done. Qed.

Lemma StronglySorted_app_intro {A : Type} (Rel : A -> A -> Prop) l1 l2 :
  StronglySorted Rel l1 -> StronglySorted Rel l2 ->
  (forall a b, In a l1 -> In b l2 -> Rel a b) ->
  StronglySorted Rel (l1 ++ l2).
Proof.
  intros H1 H2 H12. induction H1 as [|a l1 Hs IH Hall]; simpl; [done|].
  constructor.
  - apply IH. intros a' b Ha Hb. apply H12; [by right|done].
  - apply Forall_app. split; [done|].
    apply Forall_forall. intros b Hb. apply H12; [by left|by apply list_elem_of_In].
Qed.

Lemma seqZ_sorted len : forall m, StronglySorted Z.lt (seqZ m (Z.of_nat len)).
Proof.
  induction len as [|len IH]; intros m.
  - simpl. constructor.
  - rewrite seqZ_cons by lia. constructor.
    + replace (Z.pred (Z.of_nat (S len))) with (Z.of_nat len) by lia. apply IH.
    + apply Forall_forall. intros z Hz. apply elem_of_seqZ in Hz. lia.
Qed.

Lemma range_sorted n : StronglySorted Z.lt (range n).
Proof.
  unfold range. destruct (decide (0 <= n)) as [Hn|Hn].
  - rewrite <- (Z2Nat.id n Hn). apply seqZ_sorted.
  - replace (seqZ 0 n) with (@nil Z); [constructor|].
    unfold seqZ. replace (Z.to_nat n) with 0%nat by lia. done.
Qed.

Lemma row_sorted y l :
  StronglySorted Z.lt l -> StronglySorted row_major_lt (map (fun x => (y, x)) l).
Proof.
  induction 1 as [|x l Hs IH Hall]; simpl; constructor; [done|].
  apply Forall_forall. intros c Hc. apply list_elem_of_In, in_map_iff in Hc as (x' & <- & Hx').
  right. simpl. split; [done|].
  rewrite Forall_forall in Hall. by apply Hall, list_elem_of_In.
Qed.

Lemma all_cells_sorted : StronglySorted row_major_lt all_cells.
Proof.
  unfold all_cells. pose proof (range_sorted SIZE_Y) as Hs.
  induction Hs as [|y ys Hs IH Hall]; simpl; [constructor|].
  apply StronglySorted_app_intro; [apply row_sorted, range_sorted|done|].
  intros a b Ha Hb. apply in_map_iff in Ha as (x & <- & _).
  apply in_flat_map in Hb as (y' & Hy' & Hb).
  apply in_map_iff in Hb as (x' & <- & _). left. simpl.
  rewrite Forall_forall in Hall. by apply Hall, list_elem_of_In.
Qed.

(** The head of a filtered sorted list comes first among the elements that
    pass the filter. *)
Lemma head_filter_sorted {A : Type} (Rel : A -> A -> Prop) (f : A -> bool) l t rest :
  StronglySorted Rel l ->
  filter f l = t :: rest ->
  In t l /\ f t = true /\
  forall c, In c l -> f c = true -> c = t \/ Rel t c.
Proof.
  intros Hs. induction Hs as [|a l Hs IH Hall]; [done|].
  rewrite filter_cons. destruct (decide (f a)) as [Hf|Hf].
  - intros Heq. injection Heq as <- _. split; [by left|]. split.
    { by destruct (f a). }
    intros c [<-|Hc] _; [by left|]. right.
    rewrite Forall_forall in Hall. by apply Hall, list_elem_of_In.
  - intros Heq. destruct (IH Heq) as (Ht & Hft & Hmin). split; [by right|].
    split; [done|]. intros c [<-|Hc] Hfc.
    + rewrite Hfc in Hf. by destruct Hf.
    + by apply Hmin.
Qed.

End RowMajor.

Section SearchFacts.

Context `{Config}.

Lemma prio_le_refl a : prio_le a a.
Proof. destruct a; simpl; [done|lia]. Qed.

Lemma prio_le_trans a b c : prio_le a b -> prio_le b c -> prio_le a c.
Proof. destruct a, b, c; simpl; try done; lia. Qed.

Lemma prio_max_l a b : prio_le a (prio_max a b).
Proof. destruct a, b; simpl; try done; lia. Qed.

Lemma prio_max_r a b : prio_le b (prio_max a b).
Proof. destruct a, b; simpl; try done; lia. Qed.

Lemma prio_max_cases a b : prio_max a b = a \/ prio_max a b = b.
Proof.
  destruct a, b; simpl; auto.
  destruct (Z.max_spec z z0) as [[_ ->]|[_ ->]]; auto.
Qed.

Lemma prio_eqb_eq a b : prio_eqb a b = true <-> a = b.
Proof.
  destruct a, b; simpl; split; try done.
  - intros Heq. apply Z.eqb_eq in Heq. by subst.
  - intros Heq. injection Heq as ->. apply Z.eqb_refl.
Qed.

Lemma fold_prio_max l : forall a,
  prio_le a (fold_left prio_max l a) /\
  (forall b, In b l -> prio_le b (fold_left prio_max l a)) /\
  (fold_left prio_max l a = a \/ In (fold_left prio_max l a) l).
Proof.
  induction l as [|b l IH]; intros a; simpl.
  - split; [apply prio_le_refl|]. split; [intros ? []|by left].
  - destruct (IH (prio_max a b)) as (Hle & Hall & Hin). split; [|split].
    + eapply prio_le_trans; [apply prio_max_l|exact Hle].
    + intros b' [<-|Hb'].
      * eapply prio_le_trans; [apply prio_max_r|exact Hle].
      * by apply Hall.
    + destruct Hin as [Heq|Hin]; [|right; by right].
      rewrite Heq. destruct (prio_max_cases a b) as [->| ->]; [by left|right; by left].
Qed.

(** [prio.max()] bounds every priority and is one of them. *)
Lemma search_max_spec level dis m :
  search_max level dis = Some m ->
  (forall c, In c all_cells -> prio_le (search_prio level dis c) m) /\
  exists c, In c all_cells /\ search_prio level dis c = m.
Proof.
  unfold search_max. destruct all_cells as [|c0 l]; [done|]. simpl.
  intros Hm. injection Hm as <-.
  destruct (fold_prio_max (map (search_prio level dis) l) (search_prio level dis c0))
    as (Hle & Hall & Hin).
  split.
  - intros c [<-|Hc]; [done|]. apply Hall, in_map_iff. by exists c.
  - destruct Hin as [Heq|Hin].
    + exists c0. split; [by left|done].
    + apply in_map_iff in Hin as (c & Heq & Hc). exists c. split; [by right|done].
Qed.

Lemma search_target_spec level dis t :
  search_target level dis = Ok t ->
  in_bounds t = true /\
  (forall c, in_bounds c = true ->
     prio_le (search_prio level dis c) (search_prio level dis t)) /\
  (forall c, in_bounds c = true ->
     search_prio level dis c = search_prio level dis t -> c = t \/ row_major_lt t c).
Proof.
  unfold search_target. destruct (search_max level dis) as [m|] eqn:Hm; [|done].
  destruct (search_max_spec level dis m Hm) as (Hle & _).
  destruct (filter _ all_cells) as [|t' rest] eqn:Hf; [done|].
  intros Heq. injection Heq as ->.
  destruct (head_filter_sorted row_major_lt
              (fun c => prio_eqb (search_prio level dis c) m) all_cells t rest
              all_cells_sorted Hf) as (Ht & Hpt & Hfirst).
  apply prio_eqb_eq in Hpt. split; [by apply in_all_cells|]. split.
  - intros c Hc. rewrite Hpt. by apply Hle, in_all_cells.
  - intros c Hc Heq. apply Hfirst; [by apply in_all_cells|].
    apply prio_eqb_eq. congruence.
Qed.

Lemma search_target_total level dis :
  all_cells <> [] -> exists t, search_target level dis = Ok t.
Proof.
  intros Hne. unfold search_target.
  destruct (search_max level dis) as [m|] eqn:Hm.
  - destruct (search_max_spec level dis m Hm) as (_ & c & Hc & Hpc).
    destruct (filter _ all_cells) as [|t rest] eqn:Hf; [|by exists t].
    exfalso. apply (filter_nil_not_elem_of _ _ c Hf); [|by apply list_elem_of_In].
    apply Is_true_true, prio_eqb_eq. done.
  - unfold search_max in Hm. destruct all_cells; done.
Qed.

End SearchFacts.

Section RecordedSeen.

Context `{Config}.

Lemma Level_init_recorded_seen : recorded_seen Level_init.
Proof. intros c Hc. by destruct Hc. Qed.

Lemma update_cell_recorded_seen glyphs l c :
  recorded_seen l -> recorded_seen (update_cell glyphs l c).
Proof.
  intros Hl c'. unfold update_cell.
  repeat match goal with |- context [if ?b then _ else _] => destruct b end;
    simpl; unfold upd; try apply Hl;
    destruct (decide (c' = c)); auto.
Qed.

Lemma update_stone_recorded_seen glyphs l c :
  recorded_seen l -> recorded_seen (update_stone glyphs l c).
Proof.
  intros Hl c'. unfold update_stone.
  destruct (glyph_in _ _); simpl; unfold upd; try apply Hl.
  destruct (decide (c' = c)); auto.
Qed.

(** After any number of updates of a fresh level, a cell whose recorded
    object is stone has been marked seen. *)
Lemma update_level_recorded_seen glyphs y x st :
  recorded_seen st.1 -> recorded_seen (update_level glyphs y x st).1.
Proof.
  intros Hl. unfold update_level.
  destruct (neighbors st.2 y x true true) as [nb r]. simpl.
  apply fold_left_preserves; [intros; by apply update_stone_recorded_seen|].
  apply fold_left_preserves; [intros; by apply update_cell_recorded_seen|]. done.
Qed.

Lemma recorded_stone_seen l c :
  recorded_seen l -> -1 ∉ STONE G ->
  glyph_in (objects l c) (STONE G) = true -> seen l c = true.
Proof.
  intros Hl Hno Hin. apply Hl. intros Heq. rewrite Heq in Hin.
  unfold glyph_in in Hin. apply bool_decide_eq_true in Hin. done.
Qed.

End RecordedSeen.

(** C3 as stated fails on [door_corner]: the agent's cell is walkable, at
    distance 0 and never searched, and every one of its neighbours is seen,
    so none is unseen stone and the stated priority is -20; the code gives
    220, forty for each of the six neighbours whose recorded object is
    stone. *)
Lemma C3_counterexample :
  (exists rng', @bfs nle (level_of door_corner) tt 1 1
                = Some (@bfs_field nle (level_of door_corner) tt 1 1, rng')) /\
  walkable (level_of door_corner) (1, 1) = true /\
  @bfs_field nle (level_of door_corner) tt 1 1 (1, 1) = 0 /\
  (forall p, In p (@neighbors_fixed nle 1 1 true) ->
     seen (level_of door_corner) p = true) /\
  @search_prio nle (level_of door_corner)
    (@bfs_field nle (level_of door_corner) tt 1 1) (1, 1) = Fin 220 /\
  @spec_search_score nle (level_of door_corner) (obs_glyphs door_corner)
    (@bfs_field nle (level_of door_corner) tt 1 1) (1, 1) = -20.
Proof.
  split.
  { assert (Hs : option_map (fun _ => tt) (@bfs nle (level_of door_corner) tt 1 1)
                 = Some tt) by (vm_compute; reflexivity).
    unfold bfs_field.
    destruct (@bfs nle (level_of door_corner) tt 1 1) as [[dis rng']|];
      [by exists rng'|discriminate]. }
  split; [vm_compute; reflexivity|]. split; [vm_compute; reflexivity|].
  split; [apply forallb_forall; vm_compute; reflexivity|].
  split; vm_compute; reflexivity.
Qed.

Section ExploreFacts.

Context `{Config}.

Lemma existsb_perm {A : Type} (f : A -> bool) l l' :
  Permutation l l' -> existsb f l = existsb f l'.
Proof.
  intros Hp. apply eq_true_iff_eq. rewrite !existsb_exists. split.
  - intros (a & Ha & Hf). exists a. split; [|done]. by eapply Permutation_in.
  - intros (a & Ha & Hf). exists a. split; [|done].
    eapply Permutation_in; [apply Permutation_sym|]; done.
Qed.

Lemma frontier_flag_spec level glyphs dis rng c :
  (frontier_flag level glyphs dis rng c).1 = frontier level glyphs dis c.
Proof.
  unfold frontier_flag, frontier. destruct (dis c =? -1); [done|].
  pose proof (neighbors_perm rng c.1 c.2 true true) as H8.
  destruct (neighbors rng c.1 c.2 true true) as [nb8 rng1].
  pose proof (neighbors_perm rng1 c.1 c.2 true false) as H4.
  destruct (neighbors rng1 c.1 c.2 true false) as [nb4 rng2].
  cbn [fst snd negb andb] in *.
  by rewrite (existsb_perm _ _ _ H8), (existsb_perm _ _ _ H4).
Qed.

Lemma explore_flags_fold level glyphs dis l : forall te rng c,
  (fold_left (fun st c =>
                let '(b, rng') := frontier_flag level glyphs dis st.2 c in
                (if b then upd st.1 c true else st.1, rng'))
             l (te, rng)).1 c = true
  <-> te c = true \/ (In c l /\ frontier level glyphs dis c = true).
Proof.
  induction l as [|a l IH]; intros te rng c; simpl.
  - split; [by left|]. intros [?|[[] _]]. done.
  - pose proof (frontier_flag_spec level glyphs dis rng a) as Hflag.
    destruct (frontier_flag level glyphs dis rng a) as [b rng1].
    cbn [fst snd] in *. subst b. rewrite IH.
    destruct (frontier level glyphs dis a) eqn:Hfa.
    + split.
      * intros [Hc|[Hc Hf]]; [|right; split; [by right|done]].
        destruct (decide (c = a)) as [->|Hne].
        -- right. split; [by left|done].
        -- left. by rewrite upd_ne in Hc.
      * intros [Hc|[[<-|Hc] Hf]].
        -- left. destruct (decide (c = a)) as [->|Hne];
             [apply upd_eq|by rewrite upd_ne].
        -- left. apply upd_eq.
        -- right. done.
    + split.
      * intros [Hc|[Hc Hf]]; [by left|right; split; [by right|done]].
      * intros [Hc|[[<-|Hc] Hf]]; [by left|congruence|by right].
Qed.

(** [to_explore] holds the frontier flag of every cell of the grid. *)
Lemma explore_flags_spec level glyphs dis rng c :
  (explore_flags level glyphs dis rng).1 c = in_bounds c && frontier level glyphs dis c.
Proof.
  apply eq_true_iff_eq. unfold explore_flags.
  rewrite explore_flags_fold, andb_true_iff, <- in_all_cells. unfold full.
  split; [intros [?|?]; done|by right].
Qed.

Lemma frontier_reached level glyphs dis c :
  frontier level glyphs dis c = true -> dis c <> -1.
Proof.
  unfold frontier. intros Hf. apply andb_prop in Hf as [Hd _].
  apply negb_true_iff, Z.eqb_neq in Hd. done.
Qed.

Lemma explore_key_spec dis te c :
  -1 <= dis c <= 32767 -> (te c = true -> dis c <> -1) ->
  explore_key dis te c = if te c && (1 <=? dis c) then dis c - 1 else 65535.
Proof.
  intros Hr Hte. unfold explore_key. destruct (te c) eqn:Et; simpl.
  - specialize (Hte eq_refl). rewrite Z.mul_1_r, (wrap16_id (dis c)) by lia.
    rewrite wrap16_id by lia.
    destruct (1 <=? dis c) eqn:E1.
    + apply Z.leb_le in E1. apply wrapu16_id. lia.
    + apply Z.leb_gt in E1. replace (dis c) with 0 by lia. done.
  - rewrite Z.mul_0_r. done.
Qed.

Lemma fold_min_spec l : forall a,
  fold_left Z.min l a <= a /\
  (forall z, In z l -> fold_left Z.min l a <= z) /\
  (fold_left Z.min l a = a \/ In (fold_left Z.min l a) l).
Proof.
  induction l as [|b l IH]; intros a; simpl.
  - split; [lia|]. split; [intros ? []|by left].
  - destruct (IH (Z.min a b)) as (Hle & Hall & Hin). split; [lia|]. split.
    + intros z [<-|Hz]; [lia|by apply Hall].
    + destruct Hin as [Heq|Hin]; [|right; by right].
      rewrite Heq. destruct (Z.min_spec a b) as [[_ ->]|[_ ->]];
        [by left|right; by left].
Qed.

Lemma array_min_spec l m :
  array_min l = Some m -> (forall z, In z l -> m <= z) /\ In m l.
Proof.
  destruct l as [|a l]; [done|]. simpl. intros Hm. injection Hm as <-.
  destruct (fold_min_spec l a) as (Hle & Hall & Hin). split.
  - intros z [<-|Hz]; [done|by apply Hall].
  - destruct Hin as [->|Hin]; [by left|by right].
Qed.

(** What [explore1] selects, for a field of 16-bit distances. *)
Lemma explore_nonzero_spec level glyphs dis rng :
  (forall c, -1 <= dis c <= 32767) ->
  match explore_nonzero dis (explore_flags level glyphs dis rng).1 with
  | Ok (t :: _) =>
    in_bounds t = true /\ frontier level glyphs dis t = true /\ 1 <= dis t /\
    (forall c, in_bounds c = true -> frontier level glyphs dis c = true ->
       1 <= dis c -> dis t <= dis c) /\
    (forall c, in_bounds c = true -> frontier level glyphs dis c = true ->
       dis c = dis t -> c = t \/ row_major_lt t c)
  | Ok [] =>
    forall c, in_bounds c = true -> frontier level glyphs dis c = true -> dis c = 0
  | _ => all_cells = []
  end.
Proof.
  intros Hr. unfold explore_nonzero.
  set (te := (explore_flags level glyphs dis rng).1).
  assert (Hte : forall c, te c = in_bounds c && frontier level glyphs dis c)
    by (intros c; apply explore_flags_spec).
  assert (Hkey : forall c, explore_key dis te c
                   = if te c && (1 <=? dis c) then dis c - 1 else 65535).
  { intros c. apply explore_key_spec; [done|]. rewrite Hte. intros Hc.
    apply andb_prop in Hc as [_ Hc]. by eapply frontier_reached. }
  destruct (array_min (map (explore_key dis te) all_cells)) as [m|] eqn:Hm; cycle 1.
  { destruct all_cells; [done|discriminate]. }
  apply array_min_spec in Hm as [Hmin Hin].
  assert (0 <= m) as Hm0.
  { apply in_map_iff in Hin as (c & <- & _). rewrite Hkey.
    destruct (te c && (1 <=? dis c)) eqn:E; [|lia].
    apply andb_prop in E as [_ E]. apply Z.leb_le in E. lia. }
  assert (Hlow : forall c, in_bounds c = true -> frontier level glyphs dis c = true ->
            1 <= dis c -> m + 1 <= dis c).
  { intros c Hb Hf Hd.
    assert (m <= explore_key dis te c) as Hle.
    { apply Hmin, in_map_iff. exists c. split; [done|]. by apply in_all_cells. }
    rewrite Hkey, Hte, Hb, Hf in Hle. simpl in Hle.
    destruct (1 <=? dis c) eqn:E; [lia|]. apply Z.leb_gt in E. lia. }
  destruct (filter _ all_cells) as [|t rest] eqn:Hf.
  - intros c Hb Hfc. pose proof (Hr c). pose proof (frontier_reached _ _ _ _ Hfc).
    destruct (decide (1 <= dis c)) as [Hd|Hd]; [|lia]. exfalso.
    apply in_map_iff in Hin as (c0 & Hc0 & Hin0). rewrite Hkey in Hc0.
    destruct (te c0 && (1 <=? dis c0)) eqn:E.
    + apply (filter_nil_not_elem_of _ _ c0 Hf); [|by apply list_elem_of_In].
      apply andb_prop in E as [E1 E2]. rewrite E1.
      apply Is_true_true, andb_true_iff. split; [|done]. apply Z.eqb_eq. lia.
    + specialize (Hlow c Hb Hfc Hd). pose proof (Hr c). lia.
  - destruct (head_filter_sorted row_major_lt
                (fun c => (dis c =? m + 1) && te c) all_cells t rest
                all_cells_sorted Hf) as (Ht & Hpt & Hfirst).
    apply andb_prop in Hpt as [Hdt Htt]. apply Z.eqb_eq in Hdt.
    rewrite Hte in Htt. apply andb_prop in Htt as [Hbt Hft].
    split; [done|]. split; [done|]. split; [lia|]. split.
    + intros c Hb Hfc Hd. rewrite Hdt. by apply Hlow.
    + intros c Hb Hfc Hd. apply Hfirst; [by apply in_all_cells|].
      apply andb_true_iff. split; [apply Z.eqb_eq; lia|].
      rewrite Hte, Hb, Hfc. done.
Qed.

End ExploreFacts.

Section ExploreClaim.

Context `{Config}.

Lemma bfs_field_range level rng y x :
  SIZE_Y * SIZE_X <= 32767 ->
  in_bounds (y, x) = true ->
  forall c, -1 <= bfs_field level rng y x c <= 32767.
Proof.
  intros Hsize Hb.
  destruct (bfs_distance_field level (y, x) Hsize rng y x eq_refl Hb)
    as (dis & rng' & Hrun & _ & _ & Hrange).
  unfold bfs_field. by rewrite Hrun.
Qed.


End ExploreClaim.



(** ** Properties kept by every operation

    A property [P] of the process state that survives the three ways the
    operations below change it: any change of the agent's own attributes
    that keeps the run log, the creation of a level under a fresh key, and
    the update of an existing level from an observation. *)

Create HintDb preserve discriminated.

Section Frame.

Context `{Config}.

Lemma preserves_ret {A : Type} (P : World -> Prop) (a : A) : preserves P (ret a).
Proof. by intros w Hw. Qed.

Lemma preserves_raise {A : Type} (P : World -> Prop) e : preserves P (@raise _ A e).
Proof. by intros w Hw. Qed.

Lemma preserves_diverge {A : Type} (P : World -> Prop) : preserves P (@diverge _ A).
Proof. by intros w Hw. Qed.

Lemma preserves_get (P : World -> Prop) : preserves P get.
Proof. by intros w Hw. Qed.

Lemma preserves_bind {A B : Type} (P : World -> Prop) (m : M A) (k : A -> M B) :
  preserves P m -> (forall a, preserves P (k a)) -> preserves P (bind m k).
Proof.
  intros Hm Hk w Hw. unfold bind. specialize (Hm w Hw).
  destruct (m w) as [[a| |] w1]; simpl in *; [by apply Hk|done|done].
Qed.

Ltac preserve_step :=
  first
    [ assumption
    | solve [eauto with preserve]
    | progress cbv zeta
    | match goal with
      | |- preserves _ (match ?x with _ => _ end) => destruct x
      | |- preserves _ (bind _ _) => apply preserves_bind; [|intros ?]
      end ].

Ltac preserve := repeat preserve_step.

Variable P : World -> Prop.

Hypothesis P_self : forall w a,
  all_panics a = all_panics (self w) ->
  P w -> P {| Agent_levels := Agent_levels w; self := a |}.

Hypothesis P_create : forall w key,
  Agent_levels w !! key = None ->
  P w -> P {| Agent_levels := <[key := Level_init]> (Agent_levels w); self := self w |}.

Hypothesis P_update : forall w key l glyphs y x rng,
  Agent_levels w !! key = Some l ->
  P w ->
  P {| Agent_levels := <[key := (update_level glyphs y x (l, rng)).1]> (Agent_levels w);
       self := self w |}.

Lemma P_self_at levels a a' :
  all_panics a' = all_panics a ->
  P {| Agent_levels := levels; self := a |} ->
  P {| Agent_levels := levels; self := a' |}.
Proof. intros Ha Hw. by apply (P_self {| Agent_levels := levels; self := a |} a'). Qed.

Lemma preserves_set_rng r : preserves P (modify_self (set_rng r)).
Proof. intros w Hw. simpl. by apply P_self. Qed.

Lemma preserves_set_stepped e obs reward :
  preserves P (modify_self (set_stepped e obs reward)).
Proof. intros w Hw. simpl. by apply P_self. Qed.

Lemma preserves_set_observed : preserves P (modify_self set_observed).
Proof. intros w Hw. simpl. by apply P_self. Qed.

Lemma preserves_current_level : preserves P current_level.
Proof.
  intros w Hw. unfold current_level, bind, get.
  destruct (Agent_levels w !! _) eqn:E; simpl; [done|].
  by apply P_create.
Qed.

Lemma preserves_level_at key : preserves P (level_at key).
Proof.
  intros w Hw. unfold level_at, bind, get.
  by destruct (Agent_levels w !! key).
Qed.

Lemma preserves_update_level_m : preserves P update_level_m.
Proof.
  intros w Hw. unfold update_level_m.
  assert (Hcur : exists w1, current_level w = (Ok (current_key w), w1) /\ P w1 /\
            self w1 = self w /\ is_Some (Agent_levels w1 !! current_key w)).
  { unfold current_level, bind, get, current_key.
    destruct (Agent_levels w !! _) eqn:E; simpl.
    - exists w. rewrite E. eauto.
    - eexists. split; [done|]. split; [by apply P_create|]. split; [done|].
      simpl. rewrite lookup_insert_eq. eauto. }
  destruct Hcur as (w1 & Hrun & Hw1 & Hself & [l Hl]).
  unfold bind at 1. rewrite Hrun.
  unfold bind at 1, level_at, bind at 1, get. rewrite Hl. unfold ret at 1.
  unfold bind at 1, get.
  destruct (update_level _ _ _ _) as [l' r'] eqn:Hupd.
  unfold bind, modify_levels, modify_self. simpl.
  apply (P_self_at _ (self w1)); [done|].
  pose proof (P_update w1 (current_key w) l (glyphs (self w1))
                (bl_y (blstats (self w1))) (bl_x (blstats (self w1)))
                (rng (self w1)) Hl Hw1) as Hp.
  by rewrite Hupd in Hp.
Qed.

Local Hint Resolve preserves_ret preserves_raise preserves_diverge preserves_get
  preserves_set_rng preserves_set_stepped preserves_set_observed
  preserves_current_level preserves_level_at preserves_update_level_m : preserve.

Lemma preserves_on_update is_first : preserves P (on_update is_first).
Proof. unfold on_update. preserve. Qed.

Local Hint Resolve preserves_on_update : preserve.

Lemma preserves_update_map_with step is_first :
  (forall a, preserves P (step a)) -> preserves P (update_map_with step is_first).
Proof. intros Hstep. unfold update_map_with. preserve. Qed.

Lemma preserves_step fuel : forall action, preserves P (step fuel action).
Proof.
  induction fuel as [|fuel IH]; intros action; simpl; [preserve|].
  apply preserves_bind; [preserve|]. intros w.
  destruct (env_step (env (self w)) action) as [[[obs reward] done] e].
  preserve. by apply preserves_update_map_with.
Qed.

Local Hint Resolve preserves_step : preserve.

Lemma preserves_update_map fuel is_first : preserves P (update_map fuel is_first).
Proof. unfold update_map. apply preserves_update_map_with. preserve. Qed.

Lemma preserves_resolve t : preserves P (resolve t).
Proof. unfold resolve. preserve. Qed.

Local Hint Resolve preserves_resolve : preserve.

Lemma preserves_direction fuel t : preserves P (direction fuel t).
Proof. unfold direction. preserve. Qed.

Local Hint Resolve preserves_direction : preserve.

Lemma preserves_move fuel t : preserves P (move fuel t).
Proof. unfold move. preserve. Qed.

Local Hint Resolve preserves_move : preserve.

Lemma preserves_open_door fuel y x : preserves P (open_door fuel y x).
Proof. unfold open_door. preserve. Qed.

Lemma preserves_fight fuel y x : preserves P (fight fuel y x).
Proof. unfold fight. preserve. Qed.

Lemma preserves_kick fuel y x : preserves P (kick fuel y x).
Proof. unfold kick. preserve. Qed.

Local Hint Resolve preserves_open_door preserves_fight preserves_kick : preserve.

Lemma preserves_bfs_m y x : preserves P (bfs_m y x).
Proof. unfold bfs_m. preserve. Qed.

Local Hint Resolve preserves_bfs_m : preserve.

Lemma preserves_path_m from_y from_x to_y to_x dis :
  preserves P (path_m from_y from_x to_y to_x dis).
Proof. unfold path_m. preserve. Qed.

Local Hint Resolve preserves_path_m : preserve.

Lemma preserves_walk fuel cells : preserves P (walk fuel cells).
Proof. induction cells as [|c cells IH]; simpl; preserve. Qed.

Lemma preserves_kick_loop rounds fuel py px : preserves P (kick_loop rounds fuel py px).
Proof. induction rounds as [|rounds IH]; simpl; preserve. Qed.

Local Hint Resolve preserves_walk preserves_kick_loop : preserve.

Lemma preserves_fight1 fuel : preserves P (fight1 fuel).
Proof. unfold fight1. preserve. Qed.

Lemma preserves_explore1 fuel : preserves P (explore1 fuel).
Proof. unfold explore1. preserve. Qed.

Lemma preserves_move_down fuel : preserves P (move_down fuel).
Proof. unfold move_down. preserve. Qed.

Local Hint Resolve preserves_fight1 preserves_explore1 preserves_move_down : preserve.

(** The operations that end in a search also bump a counter. *)
Hypothesis P_bump : forall w key l c,
  Agent_levels w !! key = Some l ->
  P w ->
  P {| Agent_levels := <[key := bump_search_count c l]> (Agent_levels w);
       self := self w |}.

Lemma preserves_bump : preserves P
  (do key <- current_level;
   do level <- level_at key;
   do w <- get;
   do_ modify_levels (fun m => <[key := bump_search_count (position w) level]> m);
   ret true).
Proof.
  intros w Hw.
  assert (Hcur : exists w1, current_level w = (Ok (current_key w), w1) /\ P w1 /\
            is_Some (Agent_levels w1 !! current_key w)).
  { unfold current_level, bind, get, current_key.
    destruct (Agent_levels w !! _) eqn:E; simpl.
    - exists w. rewrite E. eauto.
    - eexists. split; [done|]. split; [by apply P_create|].
      simpl. rewrite lookup_insert_eq. eauto. }
  destruct Hcur as (w1 & Hrun & Hw1 & [l Hl]).
  unfold bind at 1. rewrite Hrun.
  unfold bind at 1, level_at, bind at 1, get. rewrite Hl. unfold ret at 1.
  unfold bind, get, modify_levels, ret. simpl. by apply P_bump.
Qed.

Lemma preserves_search fuel : preserves P (search fuel).
Proof. unfold search. apply preserves_bind; [preserve|]. intros _. apply preserves_bump. Qed.

Local Hint Resolve preserves_search : preserve.

Lemma preserves_search1 fuel : preserves P (search1 fuel).
Proof. unfold search1. preserve. Qed.

Local Hint Resolve preserves_search1 : preserve.

Lemma preserves_select_strategy fuel : preserves P (select_strategy fuel).
Proof. unfold select_strategy. preserve. Qed.

End Frame.

Section RegistryInvariant.

Context `{Config}.

Lemma registry_inv_self w a :
  all_panics a = all_panics (self w) ->
  registry_inv w -> registry_inv {| Agent_levels := Agent_levels w; self := a |}.
Proof. intros _ Hw. exact Hw. Qed.

Lemma registry_inv_insert w key l :
  level_inv l -> registry_inv w ->
  registry_inv {| Agent_levels := <[key := l]> (Agent_levels w); self := self w |}.
Proof.
  intros Hl Hw key' l'. simpl. rewrite lookup_insert.
  destruct (decide (key = key')) as [_|_]; [|apply Hw].
  intros Heq. injection Heq as <-. done.
Qed.

Lemma registry_inv_create w key :
  Agent_levels w !! key = None ->
  registry_inv w ->
  registry_inv {| Agent_levels := <[key := Level_init]> (Agent_levels w); self := self w |}.
Proof. intros _. apply registry_inv_insert, Level_init_inv. Qed.

Lemma registry_inv_update w key l glyphs y x rng :
  Agent_levels w !! key = Some l ->
  registry_inv w ->
  registry_inv
    {| Agent_levels := <[key := (update_level glyphs y x (l, rng)).1]> (Agent_levels w);
       self := self w |}.
Proof.
  intros Hl Hw. apply registry_inv_insert; [|done].
  apply update_level_inv. simpl. by apply (Hw key).
Qed.

Lemma registry_inv_bump w key l c :
  Agent_levels w !! key = Some l ->
  registry_inv w ->
  registry_inv
    {| Agent_levels := <[key := bump_search_count c l]> (Agent_levels w);
       self := self w |}.
Proof.
  intros Hl Hw. apply registry_inv_insert; [|done].
  apply bump_search_count_inv. by apply (Hw key).
Qed.

Lemma registry_inv_select_strategy fuel : preserves registry_inv (select_strategy fuel).
Proof.
  apply preserves_select_strategy.
  - apply registry_inv_self.
  - apply registry_inv_create.
  - apply registry_inv_update.
  - apply registry_inv_bump.
Qed.

Lemma registry_inv_main_round fuel w :
  registry_inv w -> registry_inv (main_round fuel w).2.
Proof.
  intros Hw. unfold main_round.
  pose proof (registry_inv_select_strategy fuel w Hw) as Hs.
  destruct (select_strategy fuel w) as [[[]|[]|] w1]; simpl in *; done.
Qed.

Lemma registry_inv_main rounds fuel : preserves registry_inv (main rounds fuel).
Proof.
  induction rounds as [|rounds IH]; intros w Hw; simpl; [done|].
  pose proof (registry_inv_main_round fuel w Hw) as Hr.
  destruct (main_round fuel w) as [[| | |] w1]; simpl in *; [by apply IH|done..].
Qed.

Lemma registry_inv_Agent_init fuel levels e seed verb :
  (forall key l, levels !! key = Some l -> level_inv l) ->
  registry_inv (Agent_init fuel levels e seed verb).2.
Proof.
  intros Hl. unfold Agent_init. destruct (env_reset e) as [obs e'].
  apply preserves_update_map.
  - apply registry_inv_self.
  - apply registry_inv_create.
  - apply registry_inv_update.
  - exact Hl.
Qed.

(** C10: a fresh level has no walkable cell, so [walkable] implies [seen]
    on it; [update_level] keeps the implication at every cell; and so it
    holds of every level of the registry after the construction of the agent
    and after any number of rounds of its control loop, whatever the
    environment replies and whether the run returns, raises or is cut by
    the bound. *)
Theorem C10_walkable_implies_seen :
  level_inv Level_init /\
  (forall glyphs y x st,
     level_inv st.1 -> level_inv (update_level glyphs y x st).1) /\
  (forall fuel e seed verb,
     registry_inv (Agent_init fuel ∅ e seed verb).2) /\
  (forall rounds fuel fuel' e seed verb,
     registry_inv (main rounds fuel (Agent_init fuel' ∅ e seed verb).2).2).
Proof.
  split; [apply Level_init_inv|]. split; [apply update_level_inv|].
  assert (Hinit : forall fuel e seed verb,
            registry_inv (Agent_init fuel ∅ e seed verb).2).
  { intros. apply registry_inv_Agent_init. intros key l Hl.
    by rewrite lookup_empty in Hl. }
  split; [done|]. intros. by apply registry_inv_main.
Qed.

End RegistryInvariant.

Section DirectionFacts.

Context `{Config}.

Lemma calc_direction_self y x : calc_direction y x y x = Ok ".".
Proof.
  unfold calc_direction. rewrite !Z.sub_diag. simpl.
  replace (y =? y + 1) with false by (symmetry; apply Z.eqb_neq; lia).
  replace (y =? y - 1) with false by (symmetry; apply Z.eqb_neq; lia).
  replace (x =? x + 1) with false by (symmetry; apply Z.eqb_neq; lia).
  replace (x =? x - 1) with false by (symmetry; apply Z.eqb_neq; lia).
  reflexivity.
Qed.

Lemma calc_direction_far from_y from_x to_y to_x :
  1 < Z.max (Z.abs (from_y - to_y)) (Z.abs (from_x - to_x)) ->
  calc_direction from_y from_x to_y to_x = Raise AssertionError.
Proof.
  intros Hfar. unfold calc_direction.
  destruct (Z.abs (from_y - to_y) <=? 1) eqn:Ey; [|done].
  destruct (Z.abs (from_x - to_x) <=? 1) eqn:Ex; [|done].
  apply Z.leb_le in Ey, Ex. lia.
Qed.

(** The word for a displacement of at most one cell each way, and what
    [move] reads back from it. *)
Lemma calc_direction_near from_y from_x to_y to_x :
  Z.abs (from_y - to_y) <= 1 -> Z.abs (from_x - to_x) <= 1 ->
  exists dir,
    calc_direction from_y from_x to_y to_x = Ok dir /\
    from_y + Z.b2z (contains "s" dir) - Z.b2z (contains "n" dir) = to_y /\
    from_x + Z.b2z (contains "e" dir) - Z.b2z (contains "w" dir) = to_x /\
    (dir = "." <-> (to_y = from_y /\ to_x = from_x)) /\
    (dir <> "." ->
     exists a, In (dir, a, (to_y - from_y, to_x - from_x)) compass /\
               direction_actions !! dir = Some a).
Proof.
  intros Hy Hx. unfold calc_direction.
  destruct (Z.abs (from_y - to_y) <=? 1) eqn:Ey; [|apply Z.leb_gt in Ey; lia].
  destruct (Z.abs (from_x - to_x) <=? 1) eqn:Ex; [|apply Z.leb_gt in Ex; lia].
  cbn [andb].
  destruct (to_y =? from_y + 1) eqn:E1; destruct (to_y =? from_y - 1) eqn:E2;
    destruct (to_x =? from_x + 1) eqn:E3; destruct (to_x =? from_x - 1) eqn:E4;
    rewrite ?Z.eqb_eq, ?Z.eqb_neq in *; try lia.
  all: match goal with
       | |- context [Ok ?s] =>
         let s' := eval vm_compute in s in change s with s'
       end.
  all: eexists; split; [reflexivity|].
  all: repeat match goal with
         | |- context [contains ?a ?b] =>
           let v := eval vm_compute in (contains a b) in
           change (contains a b) with v
         end.
  all: cbn [Z.b2z].
  all: split; [lia|]; split; [lia|]; split;
         [split; [try discriminate; intros _; lia|try done; intros [? ?]; lia]|].
  all: try (intros Hd; exfalso; by apply Hd).
  all: intros _; eexists; split; [|vm_compute; reflexivity].
  all: unfold compass; cbn [In].
  all: repeat match goal with
         | |- _ = _ \/ _ => first [left; repeat f_equal; lia | right]
         end.
Qed.

Lemma calc_direction_ok from_y from_x to_y to_x dir :
  calc_direction from_y from_x to_y to_x = Ok dir ->
  Z.abs (from_y - to_y) <= 1 /\ Z.abs (from_x - to_x) <= 1.
Proof.
  unfold calc_direction.
  destruct (Z.abs (from_y - to_y) <=? 1) eqn:Ey; [|done].
  destruct (Z.abs (from_x - to_x) <=? 1) eqn:Ex; [|done].
  intros _. apply Z.leb_le in Ey, Ex. done.
Qed.

(** C9: asked for the agent's own cell, which is within distance 1 of the
    agent, [direction] raises [KeyError] and submits nothing: the word
    [calc_direction] returns there is not a key of its dictionary. *)
Theorem C9_direction_own_cell (fuel : nat) (w : World) :
  direction fuel (At (bl_y (blstats (self w))) (bl_x (blstats (self w)))) w
  = (Raise KeyError, w).
Proof.
  unfold direction, resolve, bind, get. rewrite calc_direction_self.
  unfold ret. reflexivity.
Qed.

End DirectionFacts.

Section StepFacts.

Context `{Config}.

(** [current_level] returns the key of the agent's level, answering from
    the registry or after adding a fresh level under that key. *)
Lemma current_level_spec w :
  exists w', current_level w = (Ok (current_key w), w') /\
    self w' = self w /\
    is_Some (Agent_levels w' !! current_key w) /\
    (forall key, key <> current_key w -> Agent_levels w' !! key = Agent_levels w !! key) /\
    (Agent_levels w' !! current_key w
     = Some (default Level_init (Agent_levels w !! current_key w))).
Proof.
  unfold current_level, bind, get, current_key.
  destruct (Agent_levels w !! _) as [l|] eqn:E; simpl.
  - exists w. rewrite E. eauto 10.
  - eexists. split; [done|]. simpl. split; [done|].
    rewrite lookup_insert_eq. split; [eauto|]. split; [|done].
    intros key Hne. by rewrite lookup_insert_ne.
Qed.

Lemma update_level_m_ok w : exists w', update_level_m w = (Ok tt, w').
Proof.
  unfold update_level_m.
  destruct (current_level_spec w) as (w1 & Hrun & Hself & [l Hl] & _).
  unfold bind at 1. rewrite Hrun.
  unfold bind at 1, level_at, bind at 1, get. rewrite Hl. unfold ret at 1.
  unfold bind at 1, get.
  destruct (update_level _ _ _ _) as [l' r'].
  unfold bind, modify_levels, modify_self. eauto.
Qed.

(** The exceptions [step] raises: the end of the episode and the sight of
    a monster. *)
Lemma step_raises fuel : forall action w,
  match (step fuel action w).1 with
  | Raise e => e = AgentFinished \/ e = AgentChangeStrategy
  | _ => True
  end.
Proof.
  induction fuel as [|fuel IH]; intros action w; [done|].
  cbn [step]. unfold bind at 1, get at 1.
  destruct (env_step (env (self w)) action) as [[[obs reward] done] e].
  unfold bind at 1, modify_self at 1.
  destruct done; [by left|].
  unfold update_map_with. unfold bind at 1, modify_self at 1.
  unfold bind at 1, get at 1. cbv zeta.
  destruct (contains "--More--" _); [apply IH|].
  destruct (contains "[yn]" _); [apply IH|].
  unfold bind at 1.
  match goal with |- context [update_level_m ?w0] =>
    destruct (update_level_m_ok w0) as [w' ->] end.
  unfold on_update, bind, get.
  destruct (is_any_mon_on_map w'); [by right|done].
Qed.

End StepFacts.

Section MoveFacts.

Context `{Config}.

(** [move] with a direction word: the step of [direction], then the
    comparison of the position with the predicted cell. *)
Lemma move_Word fuel dir w :
  move fuel (Word dir) w =
  match direction fuel (Word dir) w with
  | (Ok _, w') =>
    if decide (position w' = predicted w dir) then (Ok tt, w')
    else (Raise (AgentPanic (predicted w dir) (position w')), w')
  | (Raise e, w') => (Raise e, w')
  | (Diverge, w') => (Diverge, w')
  end.
Proof.
  unfold move, resolve. unfold bind at 1, ret at 1. unfold bind at 1, get at 1.
  unfold bind at 1.
  destruct (direction fuel (Word dir) w) as [[b| |] w']; [|done|done].
  unfold bind, get, predicted, position, raise, ret.
  destruct (Z.eqb_spec (bl_y (blstats (self w')))
              (bl_y (blstats (self w)) + Z.b2z (contains "s" dir)
               - Z.b2z (contains "n" dir))) as [Ey|Ey];
    destruct (Z.eqb_spec (bl_x (blstats (self w')))
                (bl_x (blstats (self w)) + Z.b2z (contains "e" dir)
                 - Z.b2z (contains "w" dir))) as [Ex|Ex];
    cbn [negb orb]; destruct (decide _) as [Heq|Hne]; try done;
    try (exfalso; congruence).
Qed.

(** [move] with a cell: the word of [calc_direction], then as above. *)
Lemma move_At fuel y x w :
  move fuel (At y x) w =
  match calc_direction (bl_y (blstats (self w))) (bl_x (blstats (self w))) y x with
  | Ok dir => move fuel (Word dir) w
  | Raise e => (Raise e, w)
  | Diverge => (Diverge, w)
  end.
Proof.
  unfold move, resolve. unfold bind at 1. unfold bind at 1, get at 1.
  destruct (calc_direction _ _ y x) as [dir| |]; try done.
Qed.

(** The cell [move] predicts for a target cell is that cell. *)
Lemma predicted_At y x w dir :
  calc_direction (bl_y (blstats (self w))) (bl_x (blstats (self w))) y x = Ok dir ->
  predicted w dir = (y, x).
Proof.
  intros Hd. destruct (calc_direction_ok _ _ _ _ _ Hd) as [Hy Hx].
  destruct (calc_direction_near _ _ _ _ Hy Hx) as (dir' & Hd' & Ey & Ex & _).
  rewrite Hd in Hd'. injection Hd' as <-. unfold predicted. by rewrite Ey, Ex.
Qed.

(** [move] to a cell returns only with the agent on that cell; the panic it
    raises names that cell and the cell the agent is on instead. *)
Lemma move_At_outcome fuel y x w :
  match move fuel (At y x) w with
  | (Ok _, w') => position w' = (y, x)
  | (Raise (AgentPanic expected got), w') =>
    expected = (y, x) /\ got = position w' /\ got <> (y, x)
  | _ => True
  end.
Proof.
  rewrite move_At.
  destruct (calc_direction _ _ y x) as [dir|e|] eqn:Hd; [| |done].
  - rewrite move_Word, (predicted_At _ _ _ _ Hd).
    unfold direction, resolve. unfold bind at 1, ret at 1.
    destruct (direction_actions !! dir) as [a|]; [|done].
    unfold bind.
    destruct (step fuel a w) as [[[]|e|] w1] eqn:Hs; cbn.
    + destruct (decide (position w1 = (y, x))); done.
    + pose proof (step_raises fuel a w) as Hr. rewrite Hs in Hr. cbn in Hr.
      by destruct Hr as [->| ->].
    + done.
  - unfold calc_direction in Hd.
    destruct (_ && _) in Hd; [done|]. by injection Hd as <-.
Qed.

(** C6: [kick] never answers [False].  It returns only with the agent on
    the kicked cell, and then answers [True]; when the agent has not reached
    the cell, the [move] inside it raises [AgentPanic] and [kick] with it, as
    on [by_door] when the door holds and the agent stays where it is. *)
Theorem C6_kick_never_false :
  (forall (fuel : nat) (y x : Z) (w : World),
     match kick fuel y x w with
     | (Ok b, w') => b = true /\ position w' = (y, x)
     | (Raise (AgentPanic expected got), w') =>
       expected = (y, x) /\ got = position w' /\ got <> (y, x)
     | _ => True
     end) /\
  (@kick nle 10 5 6
     (agent_on [(by_door, false); (by_door, false); (by_door, false)])).1
  = Raise (AgentPanic (5, 6) (5, 5)).
Proof.
  split; [|vm_compute; reflexivity].
  intros fuel y x w. unfold kick. unfold bind at 1.
  destruct (step fuel Command_KICK w) as [[[]|e|] w1] eqn:Hs.
  - unfold bind at 1. pose proof (move_At_outcome fuel y x w1) as Hm.
    destruct (move fuel (At y x) w1) as [[[]|e|] w2]; [|done|done].
    unfold bind, get, ret. unfold position in *. injection Hm as <- <-.
    by rewrite !Z.eqb_refl.
  - pose proof (step_raises fuel Command_KICK w) as Hr. rewrite Hs in Hr. cbn in Hr.
    by destruct Hr as [->| ->].
  - done.
Qed.

End MoveFacts.

Section SearchCount.

Context `{Config}.

Lemma update_cell_search_count glyphs l c :
  search_count (update_cell glyphs l c) = search_count l.
Proof. unfold update_cell. by repeat destruct (any_contains _ _). Qed.

Lemma update_stone_search_count glyphs l c :
  search_count (update_stone glyphs l c) = search_count l.
Proof. unfold update_stone. by destruct (glyph_in _ _). Qed.

(** [update_level] never writes [search_count]. *)
Lemma update_level_search_count glyphs y x st :
  search_count (update_level glyphs y x st).1 = search_count st.1.
Proof.
  unfold update_level.
  destruct (neighbors st.2 y x true true) as [nb r]. simpl.
  apply (fold_left_preserves (fun l => search_count l = search_count st.1));
    [intros l c <-; apply update_stone_search_count|].
  apply (fold_left_preserves (fun l => search_count l = search_count st.1));
    [intros l c <-; apply update_cell_search_count|]. done.
Qed.

Lemma count_of_insert levels a key l key' c :
  count_of {| Agent_levels := <[key := l]> levels; self := a |} key' c
  = if decide (key' = key) then search_count l c
    else count_of {| Agent_levels := levels; self := a |} key' c.
Proof.
  unfold count_of. simpl. destruct (decide (key' = key)) as [->|Hne].
  - by rewrite lookup_insert_eq.
  - by rewrite lookup_insert_ne.
Qed.

(** The three ways the operations other than [search] change the process
    state leave the counters as they were. *)
Lemma same_counts_self w0 w a :
  all_panics a = all_panics (self w) ->
  (forall key c, count_of w key c = count_of w0 key c) ->
  forall key c,
    count_of {| Agent_levels := Agent_levels w; self := a |} key c = count_of w0 key c.
Proof. intros _ Hw. exact Hw. Qed.

Lemma same_counts_create w0 w key :
  Agent_levels w !! key = None ->
  (forall key c, count_of w key c = count_of w0 key c) ->
  forall key' c,
    count_of {| Agent_levels := <[key := Level_init]> (Agent_levels w); self := self w |}
             key' c = count_of w0 key' c.
Proof.
  intros Hnone Hw key' c. rewrite count_of_insert, <- Hw.
  destruct (decide (key' = key)) as [->|_]; [|done].
  unfold count_of. by rewrite Hnone.
Qed.

Lemma same_counts_update w0 w key l glyphs y x rng :
  Agent_levels w !! key = Some l ->
  (forall key c, count_of w key c = count_of w0 key c) ->
  forall key' c,
    count_of {| Agent_levels := <[key := (update_level glyphs y x (l, rng)).1]>
                                  (Agent_levels w);
                self := self w |} key' c = count_of w0 key' c.
Proof.
  intros Hl Hw key' c. rewrite count_of_insert, <- Hw.
  destruct (decide (key' = key)) as [->|_]; [|done].
  rewrite update_level_search_count. unfold count_of. by rewrite Hl.
Qed.

Lemma counts_kept_intro {A : Type} (m : M A) :
  (forall w0, preserves (fun w => forall key c, count_of w key c = count_of w0 key c) m) ->
  counts_kept m.
Proof. intros Hp w key c. by apply (Hp w w). Qed.

Ltac counts_kept_by lem :=
  apply counts_kept_intro; intros w0;
  apply lem;
  first [apply same_counts_self|apply same_counts_create|apply same_counts_update].

Lemma counts_kept_step fuel action : counts_kept (step fuel action).
Proof. counts_kept_by preserves_step. Qed.

Lemma counts_kept_update_map fuel is_first : counts_kept (update_map fuel is_first).
Proof. counts_kept_by preserves_update_map. Qed.

Lemma counts_kept_direction fuel t : counts_kept (direction fuel t).
Proof. counts_kept_by preserves_direction. Qed.

Lemma counts_kept_move fuel t : counts_kept (move fuel t).
Proof. counts_kept_by preserves_move. Qed.

Lemma counts_kept_open_door fuel y x : counts_kept (open_door fuel y x).
Proof. counts_kept_by preserves_open_door. Qed.

Lemma counts_kept_fight fuel y x : counts_kept (fight fuel y x).
Proof. counts_kept_by preserves_fight. Qed.

Lemma counts_kept_kick fuel y x : counts_kept (kick fuel y x).
Proof. counts_kept_by preserves_kick. Qed.

Lemma counts_kept_bfs_m y x : counts_kept (bfs_m y x).
Proof. counts_kept_by preserves_bfs_m. Qed.

Lemma counts_kept_path_m from_y from_x to_y to_x dis :
  counts_kept (path_m from_y from_x to_y to_x dis).
Proof. counts_kept_by preserves_path_m. Qed.

Lemma counts_kept_fight1 fuel : counts_kept (fight1 fuel).
Proof. counts_kept_by preserves_fight1. Qed.

Lemma counts_kept_explore1 fuel : counts_kept (explore1 fuel).
Proof. counts_kept_by preserves_explore1. Qed.

Lemma counts_kept_move_down fuel : counts_kept (move_down fuel).
Proof. counts_kept_by preserves_move_down. Qed.

(** What [search] does to the counters, by the outcome of its step. *)
Lemma search_counts fuel w :
  match search fuel w with
  | (Ok _, w') =>
    forall key c,
      count_of w' key c =
      if decide (key = current_key w' /\ c = position w')
      then wrap32 (count_of w key c + 1) else count_of w key c
  | (_, w') => forall key c, count_of w' key c = count_of w key c
  end.
Proof.
  unfold search. unfold bind at 1.
  pose proof (counts_kept_step fuel Command_SEARCH w) as Hstep.
  destruct (step fuel Command_SEARCH w) as [[[]| |] w1]; [|done|done].
  simpl in Hstep.
  destruct (current_level_spec w1) as (w2 & Hrun & Hself & [l Hl] & Hother & Hcur).
  unfold bind at 1. rewrite Hrun.
  unfold bind at 1, level_at, bind at 1, get. rewrite Hl. unfold ret at 1.
  unfold bind, get, modify_levels, ret.
  intros key c. rewrite count_of_insert. unfold current_key, position. simpl.
  rewrite Hself. fold (current_key w1). fold (position w1).
  assert (Hl1 : search_count l = fun c => count_of w1 (current_key w1) c).
  { rewrite Hl in Hcur. injection Hcur as ->. unfold count_of.
    by destruct (Agent_levels w1 !! current_key w1). }
  destruct (decide (key = current_key w1)) as [->|Hne].
  - rewrite Hl1, <- !Hstep. unfold upd.
    destruct (decide (c = position w1)) as [->|Hc].
    + rewrite decide_True by done. done.
    + rewrite decide_False by (intros [_ ?]; done). done.
  - rewrite decide_False by (intros [? _]; done).
    rewrite <- Hstep. unfold count_of. simpl. by rewrite Hother.
Qed.


End SearchCount.


Section RunLog.

Context `{Config}.

Lemma log_kept_intro {A : Type} (m : M A) :
  (forall w0, preserves (fun w => all_panics (self w) = all_panics (self w0)) m) ->
  log_kept m.
Proof. intros Hp w. by apply (Hp w w). Qed.

Ltac log_kept_by lem :=
  apply log_kept_intro; intros w0; apply lem;
  solve [ intros w a Ha Hw; simpl; congruence | intros; simpl; assumption ].

Lemma log_kept_step fuel action : log_kept (step fuel action).
Proof. log_kept_by preserves_step. Qed.

Lemma log_kept_direction fuel t : log_kept (direction fuel t).
Proof. log_kept_by preserves_direction. Qed.

Lemma log_kept_move fuel t : log_kept (move fuel t).
Proof. log_kept_by preserves_move. Qed.

Lemma log_kept_kick fuel y x : log_kept (kick fuel y x).
Proof. log_kept_by preserves_kick. Qed.

Lemma log_kept_search fuel : log_kept (search fuel).
Proof. log_kept_by preserves_search. Qed.

Lemma log_kept_select_strategy fuel : log_kept (select_strategy fuel).
Proof. log_kept_by preserves_select_strategy. Qed.

(** One round of the loop adds to the log the panic its strategy raised,
    and nothing otherwise. *)
Lemma main_round_log fuel w :
  match select_strategy fuel w with
  | (Raise (AgentPanic expected got), _) =>
    (main_round fuel w).1 = Continue /\
    all_panics (self (main_round fuel w).2)
    = all_panics (self w) ++ [AgentPanic expected got]
  | _ => all_panics (self (main_round fuel w).2) = all_panics (self w)
  end.
Proof.
  unfold main_round. pose proof (log_kept_select_strategy fuel w) as Hlog.
  destruct (select_strategy fuel w) as [[[]|[]|] w1]; simpl in *;
    try done. by rewrite Hlog.
Qed.

(** The loop handles the three exceptions of the agent: none of them leaves
    [main]. *)
Lemma main_handles rounds fuel : forall w,
  match (main rounds fuel w).1 with
  | Raise (AgentPanic _ _) | Raise AgentChangeStrategy | Raise AgentFinished => False
  | _ => True
  end.
Proof.
  induction rounds as [|rounds IH]; intros w; simpl; [done|].
  unfold main_round.
  destruct (select_strategy fuel w) as [[[]|[]|] w1]; simpl; try done; apply IH.
Qed.

(** X15: the control loop only appends to the run log, and what it
    appends are position mismatches: the log after any number of rounds is
    the log before followed by [AgentPanic] entries. *)
Lemma main_log rounds fuel : forall w,
  exists l, all_panics (self (main rounds fuel w).2) = all_panics (self w) ++ l /\
            Forall (fun e => exists expected got, e = AgentPanic expected got) l.
Proof.
  induction rounds as [|rounds IH]; intros w; simpl.
  { exists []. by rewrite app_nil_r. }
  pose proof (main_round_log fuel w) as Hr. unfold main_round in *.
  destruct (select_strategy fuel w) as [[[]|[]|] w1]; simpl in *;
    try (exists []; rewrite app_nil_r; done);
    try (destruct (IH w1) as (l & -> & Hl); exists l; by rewrite Hr).
  destruct Hr as [_ Hr].
  match goal with |- context [main rounds fuel ?w2] =>
    destruct (IH w2) as (l & -> & Hl) end.
  simpl. rewrite Hr, <- app_assoc. eexists. split; [done|].
  constructor; [eauto|done].
Qed.

(** C8: when the step of a [move] returns and leaves the agent on another
    cell than the predicted one, [move] raises [AgentPanic] with the two
    cells, and returns when the cells agree; when the step raises, [move]
    raises what the step raised, whatever the position.  [move] itself does
    not write the log.  A round of the control loop whose strategy raises
    [AgentPanic] appends that one entry to the log and continues; any other
    round leaves the log as it is; and no [AgentPanic] leaves [main]. *)
Theorem C8_position_mismatch (fuel : nat) (w : World) :
  (forall dir,
     move fuel (Word dir) w =
     match direction fuel (Word dir) w with
     | (Ok _, w') =>
       if decide (position w' = predicted w dir) then (Ok tt, w')
       else (Raise (AgentPanic (predicted w dir) (position w')), w')
     | (Raise e, w') => (Raise e, w')
     | (Diverge, w') => (Diverge, w')
     end) /\
  (forall y x,
     match move fuel (At y x) w with
     | (Ok _, w') => position w' = (y, x)
     | (Raise (AgentPanic expected got), w') =>
       expected = (y, x) /\ got = position w' /\ got <> (y, x)
     | _ => True
     end) /\
  (forall t, all_panics (self (move fuel t w).2) = all_panics (self w)) /\
  match select_strategy fuel w with
  | (Raise (AgentPanic expected got), _) =>
    (main_round fuel w).1 = Continue /\
    all_panics (self (main_round fuel w).2)
    = all_panics (self w) ++ [AgentPanic expected got]
  | _ => all_panics (self (main_round fuel w).2) = all_panics (self w)
  end /\
  (forall rounds,
     match (main rounds fuel w).1 with
     | Raise (AgentPanic _ _) | Raise AgentChangeStrategy | Raise AgentFinished => False
     | _ => True
     end).
Proof.
  split; [intros; apply move_Word|].
  split; [intros; apply move_At_outcome|].
  split; [intros; apply log_kept_move|].
  split; [apply main_round_log|].
  intros. apply main_handles.
Qed.

End RunLog.

(** C8 as stated fails when the step of the [move] raises.  On
    [open_floor] the strategy moves north, towards [(4, 5)].  If the reply
    shows the agent still on [(5, 5)] and a jackal in sight, [move] raises
    [AgentChangeStrategy]: no mismatch is raised and the round leaves the log
    empty.  If the reply ends the episode, [move] raises [AgentFinished] and
    the loop returns. *)
Lemma C8_counterexample :
  let w := agent_on [(open_floor, false); (open_floor_jackal, false)] in
  let w' := agent_on [(open_floor, false); (open_floor, true)] in
  @predicted nle w "n" = (4, 5) /\
  (@move nle 10 (At 4 5) w).1 = Raise AgentChangeStrategy /\
  @position nle (@move nle 10 (At 4 5) w).2 = (5, 5) /\
  (@select_strategy nle 10 w).1 = Raise AgentChangeStrategy /\
  @all_panics nle (@self nle (@main_round nle 10 w).2) = [] /\
  (@move nle 10 (At 4 5) w').1 = Raise AgentFinished /\
  @position nle (@move nle 10 (At 4 5) w').2 = (5, 5) /\
  (@main nle 5 10 w').1 = Ok tt /\
  @all_panics nle (@self nle (@main nle 5 10 w').2) = [].
Proof.
  repeat apply conj; vm_compute; reflexivity.
Qed.

(** C5: the registry is one dictionary for all instances.  Whatever a
    method of the second agent leaves in it is what the first agent reads.
    On two environments that both start on level [(0, 1)]: the first agent,
    alone, has not seen the cell [(1, 2)]; once the second agent is
    constructed, the level the first agent reads under [(0, 1)] has [(1, 2)]
    walkable, from the second agent's map; and a [search] of the second agent
    raises the counter of [(1, 1)] on that level from 0 to 1. *)
Theorem C5_levels_shared :
  let e1 := [(by_door, false)] in
  let e2 := [(door_corner, false); (door_corner, false)] in
  let walkable_at (levels : gmap (Z * Z) Level) (c : cell) :=
    (fun l => walkable l c) <$> levels !! (0, 1) in
  (forall (A : Type) (m : @M nle A) (p : @Process nle),
     @Agent_levels nle (as_agent1 (on_agent2 m p).2)
     = @Agent_levels nle (m (as_agent2 p)).2 /\
     @self nle (as_agent1 (on_agent2 m p).2) = @self nle (as_agent1 p)) /\
  walkable_at (@Agent_levels nle (agent_on e1)) (1, 2) = Some false /\
  (@two_agents nle 10 e1 e2 0
     ≫= fun p => walkable_at (@Agent_levels nle (as_agent1 p)) (1, 2)) = Some true /\
  (fun p => @count_of nle (as_agent1 p) (0, 1) (1, 1))
    <$> @two_agents nle 10 e1 e2 0 = Some 0 /\
  (fun p => (on_agent2 (@search nle 10) p).1)
    <$> @two_agents nle 10 e1 e2 0 = Some (Ok true) /\
  (fun p => @count_of nle (as_agent1 (on_agent2 (@search nle 10) p).2) (0, 1) (1, 1))
    <$> @two_agents nle 10 e1 e2 0 = Some 1.
Proof.
  cbv zeta. split.
  { intros A m p. unfold on_agent2. by destruct (m (as_agent2 p)). }
  repeat apply conj; vm_compute; reflexivity.
Qed.

Section NeighborsFacts.

Context `{Config}.

(** The unshuffled list keeps the order of the two loops: it is a sublist
    of the eight cells around [(y, x)], or of the four orthogonal ones. *)
Lemma neighbors_fixed_sublist y x diagonal :
  sublist (neighbors_fixed y x diagonal)
    (if diagonal
     then [(y + -1, x + -1); (y + -1, x + 0); (y + -1, x + 1);
           (y + 0, x + -1); (y + 0, x + 1);
           (y + 1, x + -1); (y + 1, x + 0); (y + 1, x + 1)]
     else [(y + -1, x + 0); (y + 0, x + -1); (y + 0, x + 1); (y + 1, x + 0)]).
Proof.
  assert (Hone : forall (b : bool) (c : cell) l k,
            sublist l k -> sublist ((if b then [c] else []) ++ l) (c :: k)).
  { intros [] c l k Hl; [by apply sublist_skip|by apply sublist_cons]. }
  unfold neighbors_fixed. destruct diagonal; cbn -[Z.add Z.leb Z.ltb];
    repeat match goal with
           | |- context [1 <? Z.abs ?a + Z.abs ?b] =>
             let v := eval vm_compute in (1 <? Z.abs a + Z.abs b) in
             change (1 <? Z.abs a + Z.abs b) with v
           end;
    cbv iota; rewrite <- ?app_assoc, ?app_nil_r; cbn [app];
    repeat apply Hone;
    (destruct (_ && _); [apply sublist_skip|]; apply sublist_nil_l).
Qed.

Lemma around_NoDup (y x : Z) :
  NoDup [(y + -1, x + -1); (y + -1, x + 0); (y + -1, x + 1);
         (y + 0, x + -1); (y + 0, x + 1);
         (y + 1, x + -1); (y + 1, x + 0); (y + 1, x + 1)].
Proof.
  repeat (apply NoDup_cons; split;
          [rewrite ?not_elem_of_cons; repeat split;
           try apply not_elem_of_nil; intros [=]; lia|]).
  apply NoDup_nil_2.
Qed.

Lemma orthogonal_NoDup (y x : Z) :
  NoDup [(y + -1, x + 0); (y + 0, x + -1); (y + 0, x + 1); (y + 1, x + 0)].
Proof.
  repeat (apply NoDup_cons; split;
          [rewrite ?not_elem_of_cons; repeat split;
           try apply not_elem_of_nil; intros [=]; lia|]).
  apply NoDup_nil_2.
Qed.

Lemma neighbors_fixed_NoDup y x diagonal : NoDup (neighbors_fixed y x diagonal).
Proof.
  eapply sublist_NoDup; [|apply neighbors_fixed_sublist].
  destruct diagonal; [apply around_NoDup|apply orthogonal_NoDup].
Qed.

Lemma neighbors_fixed_length y x diagonal :
  (length (neighbors_fixed y x diagonal) <= if diagonal then 8 else 4)%nat.
Proof.
  pose proof (sublist_length _ _ (neighbors_fixed_sublist y x diagonal)) as Hl.
  by destruct diagonal.
Qed.

Lemma StronglySorted_sublist {A : Type} (Rel : A -> A -> Prop) (l k : list A) :
  sublist l k -> StronglySorted Rel k -> StronglySorted Rel l.
Proof.
  induction 1 as [|a l k Hs IH|a l k Hs IH]; intros Hk; [done| |].
  - apply StronglySorted_inv in Hk as [Hk Hall]. constructor; [by apply IH|].
    rewrite Forall_forall in *. intros c Hc. apply Hall.
    by eapply elem_of_sublist.
  - apply StronglySorted_inv in Hk as [Hk _]. by apply IH.
Qed.

(** Without the shuffle the list is in row-major order. *)
Lemma neighbors_fixed_sorted y x diagonal :
  StronglySorted row_major_lt (neighbors_fixed y x diagonal).
Proof.
  eapply StronglySorted_sublist; [apply neighbors_fixed_sublist|].
  destruct diagonal;
    repeat (constructor; [|repeat (constructor; [unfold row_major_lt; simpl; lia|]);
                            constructor]);
    constructor.
Qed.

(** X1: [neighbors] returns exactly the cells of the grid at distance one
    from [(y, x)], the eight around it or, without diagonals, the four
    orthogonal ones, each once, in some order; [(y, x)] itself is never
    among them. *)
Theorem neighbors_characterised (rng : RandomState R) (y x : Z)
    (shuffle diagonal : bool) :
  (forall q, In q (neighbors rng y x shuffle diagonal).1 <->
     in_bounds q = true /\ q <> (y, x) /\
     Z.abs (q.1 - y) <= 1 /\ Z.abs (q.2 - x) <= 1 /\
     (diagonal = false -> Z.abs (q.1 - y) + Z.abs (q.2 - x) <= 1)) /\
  NoDup (neighbors rng y x shuffle diagonal).1 /\
  (length (neighbors rng y x shuffle diagonal).1 <= if diagonal then 8 else 4)%nat /\
  (shuffle = false ->
   StronglySorted row_major_lt (neighbors rng y x shuffle diagonal).1).
Proof.
  pose proof (neighbors_perm rng y x shuffle diagonal) as Hp.
  split; [|split; [|split]].
  - intros q. rewrite in_neighbors. apply neighbors_fixed_spec.
  - rewrite Hp. apply neighbors_fixed_NoDup.
  - rewrite (Permutation_length Hp). apply neighbors_fixed_length.
  - intros ->. unfold neighbors. cbn [fst]. apply neighbors_fixed_sorted.
Qed.

End NeighborsFacts.

Section UpdateLevelFacts.

Context `{Config}.

Lemma update_cell_at glyphs l a c :
  walkable (update_cell glyphs l a) c
  = walkable l c
    || bool_decide (c = a)
       && (walk_glyph (glyphs c) || negb (wall_glyph (glyphs c)) && mon_glyph (glyphs c)) /\
  seen (update_cell glyphs l a) c
  = seen l c
    || bool_decide (c = a)
       && (walk_glyph (glyphs c) || wall_glyph (glyphs c) || mon_glyph (glyphs c)) /\
  objects (update_cell glyphs l a) c
  = if bool_decide (c = a) && (walk_glyph (glyphs c) || wall_glyph (glyphs c))
    then glyphs c else objects l c.
Proof.
  unfold update_cell, walk_glyph, wall_glyph, mon_glyph, upd.
  destruct (decide (c = a)) as [->|Hne].
  - rewrite bool_decide_eq_true_2 by done.
    repeat match goal with
           | |- context [any_contains (glyphs a) ?s] =>
             destruct (any_contains (glyphs a) s)
           end; simpl;
      rewrite ?decide_True by done; rewrite ?orb_true_r, ?orb_false_r; done.
  - rewrite bool_decide_eq_false_2 by done.
    repeat match goal with
           | |- context [any_contains (glyphs a) ?s] =>
             destruct (any_contains (glyphs a) s)
           end; simpl;
      rewrite ?decide_False by done; rewrite ?orb_false_r; done.
Qed.

Lemma update_stone_at glyphs l a c :
  walkable (update_stone glyphs l a) c = walkable l c /\
  seen (update_stone glyphs l a) c
  = seen l c || bool_decide (c = a) && glyph_in (glyphs c) (STONE G) /\
  objects (update_stone glyphs l a) c
  = if bool_decide (c = a) && glyph_in (glyphs c) (STONE G)
    then glyphs c else objects l c.
Proof.
  unfold update_stone, upd. destruct (decide (c = a)) as [->|Hne].
  - rewrite bool_decide_eq_true_2 by done.
    destruct (glyph_in (glyphs a) (STONE G)); simpl;
      rewrite ?decide_True by done; rewrite ?orb_true_r, ?orb_false_r; done.
  - rewrite bool_decide_eq_false_2 by done.
    destruct (glyph_in (glyphs a) (STONE G)); simpl;
      rewrite ?decide_False by done; rewrite ?orb_false_r; done.
Qed.

Lemma bool_decide_elem_of_cons (c a : cell) (cs : list cell) :
  bool_decide (c ∈ a :: cs) = bool_decide (c = a) || bool_decide (c ∈ cs).
Proof.
  apply eq_true_iff_eq.
  rewrite orb_true_iff, !bool_decide_eq_true, elem_of_cons. done.
Qed.

(** The first loop, over any list of cells. *)
Lemma update_cell_fold glyphs c cs : forall l,
  walkable (fold_left (update_cell glyphs) cs l) c
  = walkable l c
    || bool_decide (c ∈ cs)
       && (walk_glyph (glyphs c) || negb (wall_glyph (glyphs c)) && mon_glyph (glyphs c)) /\
  seen (fold_left (update_cell glyphs) cs l) c
  = seen l c
    || bool_decide (c ∈ cs)
       && (walk_glyph (glyphs c) || wall_glyph (glyphs c) || mon_glyph (glyphs c)) /\
  objects (fold_left (update_cell glyphs) cs l) c
  = if bool_decide (c ∈ cs) && (walk_glyph (glyphs c) || wall_glyph (glyphs c))
    then glyphs c else objects l c.
Proof.
  induction cs as [|a cs IH]; intros l; cbn [fold_left].
  - rewrite bool_decide_eq_false_2 by apply not_elem_of_nil.
    by rewrite !orb_false_r.
  - destruct (IH (update_cell glyphs l a)) as (-> & -> & ->).
    destruct (update_cell_at glyphs l a c) as (-> & -> & ->).
    rewrite bool_decide_elem_of_cons.
    destruct (bool_decide (c = a)); destruct (bool_decide (c ∈ cs));
      destruct (walk_glyph (glyphs c)); destruct (wall_glyph (glyphs c));
      destruct (mon_glyph (glyphs c)); simpl;
      rewrite ?orb_true_r, ?orb_false_r; done.
Qed.

(** The second loop, over any list of cells. *)
Lemma update_stone_fold glyphs c cs : forall l,
  walkable (fold_left (update_stone glyphs) cs l) c = walkable l c /\
  seen (fold_left (update_stone glyphs) cs l) c
  = seen l c || bool_decide (c ∈ cs) && glyph_in (glyphs c) (STONE G) /\
  objects (fold_left (update_stone glyphs) cs l) c
  = if bool_decide (c ∈ cs) && glyph_in (glyphs c) (STONE G)
    then glyphs c else objects l c.
Proof.
  induction cs as [|a cs IH]; intros l; cbn [fold_left].
  - rewrite bool_decide_eq_false_2 by apply not_elem_of_nil.
    by rewrite !orb_false_r.
  - destruct (IH (update_stone glyphs l a)) as (-> & -> & ->).
    destruct (update_stone_at glyphs l a c) as (-> & -> & ->).
    rewrite bool_decide_elem_of_cons.
    destruct (bool_decide (c = a)); destruct (bool_decide (c ∈ cs));
      destruct (glyph_in (glyphs c) (STONE G)); simpl;
      rewrite ?orb_true_r, ?orb_false_r; done.
Qed.

Lemma bool_decide_all_cells c : bool_decide (c ∈ all_cells) = in_bounds c.
Proof.
  apply eq_true_iff_eq. by rewrite bool_decide_eq_true, list_elem_of_In, in_all_cells.
Qed.

Lemma bool_decide_neighbors rng y x shuffle diagonal c :
  bool_decide (c ∈ (neighbors rng y x shuffle diagonal).1)
  = bool_decide (c ∈ neighbors_fixed y x diagonal).
Proof.
  apply eq_true_iff_eq. by rewrite !bool_decide_eq_true, !list_elem_of_In, in_neighbors.
Qed.

(** [update_level] in closed form, cell by cell. *)
Lemma update_level_at glyphs y x st c :
  walkable (update_level glyphs y x st).1 c
  = walkable st.1 c
    || in_bounds c
       && (walk_glyph (glyphs c) || negb (wall_glyph (glyphs c)) && mon_glyph (glyphs c)) /\
  seen (update_level glyphs y x st).1 c
  = seen st.1 c
    || in_bounds c
       && (walk_glyph (glyphs c) || wall_glyph (glyphs c) || mon_glyph (glyphs c))
    || stone_near glyphs y x c /\
  objects (update_level glyphs y x st).1 c
  = (if in_bounds c && (walk_glyph (glyphs c) || wall_glyph (glyphs c))
        || stone_near glyphs y x c
     then glyphs c else objects st.1 c).
Proof.
  unfold update_level, stone_near.
  pose proof (bool_decide_neighbors st.2 y x true true c) as Hnb.
  destruct (neighbors st.2 y x true true) as [nb r]. cbn [fst snd] in *.
  destruct (update_stone_fold glyphs c nb (fold_left (update_cell glyphs) all_cells st.1))
    as (-> & -> & ->).
  destruct (update_cell_fold glyphs c all_cells st.1) as (-> & -> & ->).
  rewrite Hnb, bool_decide_all_cells.
  split; [done|]. split; [done|].
  destruct (bool_decide (c ∈ neighbors_fixed y x true) && glyph_in (glyphs c) (STONE G));
    [by rewrite orb_true_r|by rewrite orb_false_r].
Qed.

(** X2: what [update_level] leaves at a cell, in terms of the glyph the
    observation shows there.  A cell of the grid becomes walkable if it shows
    floor, a corridor, stairs or an open door, or a monster or pet that is
    not also a wall or closed-door glyph; it becomes seen if it shows any of
    those or a wall or closed door; its recorded object becomes the glyph
    shown if that is terrain of the first two kinds, and is kept under a
    monster or pet.  A cell next to the agent that shows stone becomes seen
    and records the stone.  Nothing else changes: no flag is cleared, cells
    outside the grid and the search counters are left as they were. *)
Theorem update_level_cell (glyphs : grid Z) (y x : Z)
    (st : Level * RandomState R) (c : cell) :
  walkable (update_level glyphs y x st).1 c
  = walkable st.1 c
    || in_bounds c
       && (walk_glyph (glyphs c) || negb (wall_glyph (glyphs c)) && mon_glyph (glyphs c)) /\
  seen (update_level glyphs y x st).1 c
  = seen st.1 c
    || in_bounds c
       && (walk_glyph (glyphs c) || wall_glyph (glyphs c) || mon_glyph (glyphs c))
    || stone_near glyphs y x c /\
  objects (update_level glyphs y x st).1 c
  = (if in_bounds c && (walk_glyph (glyphs c) || wall_glyph (glyphs c))
        || stone_near glyphs y x c
     then glyphs c else objects st.1 c) /\
  search_count (update_level glyphs y x st).1 c = search_count st.1 c.
Proof.
  destruct (update_level_at glyphs y x st c) as (Hw & Hs & Ho).
  by rewrite update_level_search_count.
Qed.

(** X3: [update_level] applied again to the observation it has just
    merged, with the agent on the same cell, changes none of the four grids,
    whatever order the shuffle gives the neighbours the second time. *)
Theorem update_level_idempotent (glyphs : grid Z) (y x : Z)
    (st : Level * RandomState R) (rng' : RandomState R) (c : cell) :
  walkable (update_level glyphs y x ((update_level glyphs y x st).1, rng')).1 c
  = walkable (update_level glyphs y x st).1 c /\
  seen (update_level glyphs y x ((update_level glyphs y x st).1, rng')).1 c
  = seen (update_level glyphs y x st).1 c /\
  objects (update_level glyphs y x ((update_level glyphs y x st).1, rng')).1 c
  = objects (update_level glyphs y x st).1 c /\
  search_count (update_level glyphs y x ((update_level glyphs y x st).1, rng')).1 c
  = search_count (update_level glyphs y x st).1 c.
Proof.
  destruct (update_level_at glyphs y x
              ((update_level glyphs y x st).1, rng') c) as (-> & -> & ->).
  rewrite update_level_search_count. cbn [fst].
  destruct (update_level_at glyphs y x st c) as (-> & -> & ->).
  destruct (walkable st.1 c); destruct (seen st.1 c); destruct (in_bounds c);
    destruct (walk_glyph (glyphs c)); destruct (wall_glyph (glyphs c));
    destruct (mon_glyph (glyphs c)); destruct (stone_near glyphs y x c);
    simpl; done.
Qed.

(** A level only grows under [update_level]. *)
Lemma update_level_grows glyphs y x st : grows st.1 (update_level glyphs y x st).1.
Proof.
  intros c. destruct (update_level_at glyphs y x st c) as (-> & -> & _).
  split; intros ->; done.
Qed.

Lemma grows_refl l : grows l l.
Proof. by intros c. Qed.

Lemma grows_trans l1 l2 l3 : grows l1 l2 -> grows l2 l3 -> grows l1 l3.
Proof.
  intros H12 H23 c. destruct (H12 c) as [? ?]. destruct (H23 c) as [? ?]. auto.
Qed.

Lemma bump_search_count_grows c l : grows l (bump_search_count c l).
Proof. by intros c'. Qed.

End UpdateLevelFacts.

Section RegistryGrows.

Context `{Config}.

(** A property of the registry alone that the operations keep is kept by
    the control loop. *)
Lemma preserves_main (Q : gmap (Z * Z) Level -> Prop) rounds fuel :
  preserves (fun w => Q (Agent_levels w)) (select_strategy fuel) ->
  preserves (fun w => Q (Agent_levels w)) (main rounds fuel).
Proof.
  intros Hs. induction rounds as [|rounds IH]; intros w Hw; simpl; [done|].
  unfold main_round. specialize (Hs w Hw).
  destruct (select_strategy fuel w) as [[[]|[]|] w1]; simpl in *;
    try done; by apply IH.
Qed.

Lemma registry_grows_refl m : registry_grows m m.
Proof. intros key l Hl. exists l. split; [done|apply grows_refl]. Qed.

Lemma registry_grows_insert m0 m key l' :
  registry_grows m0 m ->
  (forall l, m !! key = Some l -> grows l l') ->
  registry_grows m0 (<[key := l']> m).
Proof.
  intros Hm Hl key0 l0 Hl0. destruct (Hm key0 l0 Hl0) as (l & Hlk & Hg).
  destruct (decide (key0 = key)) as [->|Hne].
  - exists l'. rewrite lookup_insert_eq. split; [done|].
    eapply grows_trans; [exact Hg|by apply Hl].
  - exists l. by rewrite lookup_insert_ne.
Qed.

Lemma registry_grows_select_strategy m0 fuel :
  preserves (fun w => registry_grows m0 (Agent_levels w)) (select_strategy fuel).
Proof.
  apply preserves_select_strategy.
  - intros w a _ Hw. exact Hw.
  - intros w key Hnone Hw. simpl. apply registry_grows_insert; [done|].
    intros l Hl. congruence.
  - intros w key l glyphs y x rng Hl Hw. simpl.
    apply registry_grows_insert; [done|]. intros l1 Hl1.
    assert (l1 = l) as -> by congruence.
    apply (update_level_grows glyphs y x (l, rng)).
  - intros w key l c Hl Hw. simpl.
    apply registry_grows_insert; [done|]. intros l1 Hl1.
    assert (l1 = l) as -> by congruence. apply bump_search_count_grows.
Qed.

Lemma registry_grows_update_map m0 fuel is_first :
  preserves (fun w => registry_grows m0 (Agent_levels w)) (update_map fuel is_first).
Proof.
  apply preserves_update_map.
  - intros w a _ Hw. exact Hw.
  - intros w key Hnone Hw. simpl. apply registry_grows_insert; [done|].
    intros l Hl. congruence.
  - intros w key l glyphs y x rng Hl Hw. simpl.
    apply registry_grows_insert; [done|]. intros l1 Hl1.
    assert (l1 = l) as -> by congruence.
    apply (update_level_grows glyphs y x (l, rng)).
Qed.

(** X4: the registry never loses a level and no level ever loses a seen
    or walkable cell: whatever the environment replies, every level that is
    in the registry before the construction of an agent or before any number
    of rounds of the control loop is still there afterwards, under the same
    key, with [seen] and [walkable] at least what they were. *)
Theorem registry_never_shrinks :
  (forall rounds fuel w,
     registry_grows (Agent_levels w) (Agent_levels (main rounds fuel w).2)) /\
  (forall fuel levels e seed verb,
     registry_grows levels (Agent_levels (Agent_init fuel levels e seed verb).2)).
Proof.
  split.
  - intros rounds fuel w.
    apply (preserves_main (registry_grows (Agent_levels w)) rounds fuel);
      [apply registry_grows_select_strategy|apply registry_grows_refl].
  - intros fuel levels e seed verb. unfold Agent_init.
    destruct (env_reset e) as [obs e'].
    apply (registry_grows_update_map levels fuel true). apply registry_grows_refl.
Qed.

End RegistryGrows.

(** X4 on a run: the level the constructor has stored under [(0, 1)] is
    still there after the control loop, and the cell that was walkable
    still is. *)
Lemma registry_never_shrinks_witness :
  let w := agent_on [(open_floor, false); (open_floor, false)] in
  exists l l',
    @Agent_levels nle w !! (0, 1) = Some l /\
    @Agent_levels nle (@main nle 3 10 w).2 !! (0, 1) = Some l' /\
    walkable l (5, 4) = true /\ walkable l' (5, 4) = true.
Proof.
  cbv zeta.
  set (w := agent_on [(open_floor, false); (open_floor, false)]).
  destruct (@Agent_levels nle w !! (0, 1)) as [l|] eqn:Hl.
  - destruct (proj1 (@registry_never_shrinks nle) 3%nat 10%nat w (0, 1) l Hl)
      as (l' & Hl' & Hg).
    assert (Hw : walkable l (5, 4) = true).
    { assert (Hc : (fun o => match o with Some l0 => walkable l0 (5, 4) | None => false end)
                     (@Agent_levels nle w !! (0, 1)) = true)
        by (vm_compute; reflexivity).
      by rewrite Hl in Hc. }
    exists l, l'. split; [done|]. split; [done|]. split; [done|].
    by apply (Hg (5, 4)).
  - exfalso.
    assert (Hc : (fun o => match o with Some _ => true | None => false end)
                   (@Agent_levels nle w !! (0, 1)) = true)
      by (vm_compute; reflexivity).
    by rewrite Hl in Hc.
Defined.

Section PathFacts.

Context `{Config}.

Variable level : Level.
Variable src : cell.
Variable dis : grid Z.

Hypothesis src_in_bounds : in_bounds src = true.
Hypothesis dis_field : distance_field (legal level) src dis.

Lemma reach_by_0_inv step n c : n = 0%nat -> reach_by step src n c -> c = src.
Proof. intros Hn Hr. destruct Hr; [done|discriminate]. Qed.

Lemma field_src : dis src = 0.
Proof.
  destruct (dis_field src) as [[_ Hno]|(H0 & _ & Hmin)].
  - exfalso. apply (Hno 0%nat). constructor.
  - specialize (Hmin 0%nat (reach_0 _ _)). lia.
Qed.

Lemma reach_in_bounds n c : reach level src n c -> in_bounds c = true.
Proof.
  intros Hr. destruct Hr as [|n p q Hr [Hq _]]; [done|].
  by eapply neighbors_fixed_in_bounds.
Qed.

(** A cell the field reaches is in the grid and, unless it is the source,
    walkable. *)
Lemma field_reached c :
  dis c <> -1 -> in_bounds c = true /\ (c <> src -> walkable level c = true).
Proof.
  intros Hc. destruct (dis_field c) as [[? _]|(H0 & Hr & _)]; [done|].
  split; [by eapply reach_in_bounds|]. intros Hne.
  destruct Hr as [|n p q Hr [_ Hok]]; [done|]. by eapply step_ok_walkable.
Qed.

Lemma neighbors_fixed_sym p q :
  in_bounds p = true -> In q (neighbors_fixed p.1 p.2 true) ->
  In p (neighbors_fixed q.1 q.2 true).
Proof.
  intros Hp Hq. apply neighbors_fixed_spec in Hq as (Hb & Hne & Hy & Hx & _).
  apply neighbors_fixed_spec. split; [done|]. split.
  { intros ->. apply Hne. by destruct q. }
  split; [lia|]. split; [lia|done].
Qed.

(** A reached cell other than the source has a neighbour of smaller
    distance: the loop of [path] finds its next cell. *)
Lemma field_predecessor c :
  dis c <> -1 -> c <> src ->
  exists p, In p (neighbors_fixed c.1 c.2 true) /\ 0 <= dis p < dis c.
Proof.
  intros Hc Hne. destruct (dis_field c) as [[? _]|(H0 & Hr & _)]; [done|].
  remember (Z.to_nat (dis c)) as n eqn:Hn.
  destruct Hr as [|n p q Hr Hstep]; [done|].
  exists p. pose proof (reach_in_bounds _ _ Hr) as Hb.
  split; [apply neighbors_fixed_sym; [done|apply Hstep]|].
  destruct (dis_field p) as [[_ Hno]|(Hp0 & _ & Hmin)]; [by destruct (Hno n)|].
  specialize (Hmin n Hr). lia.
Qed.

Lemma path_loop_ok fuel : forall rng cur path_rev,
  dis cur <> -1 -> (Z.to_nat (dis cur) < fuel)%nat ->
  exists ext rng',
    path_loop fuel rng dis src cur path_rev = (Ok (path_rev ++ ext), rng') /\
    descends dis cur ext /\ last (cur :: ext) = Some src.
Proof.
  induction fuel as [|fuel IH]; intros rng cur path_rev Hc Hfuel; [lia|].
  cbn [path_loop]. destruct (decide (cur = src)) as [->|Hne].
  { exists [], rng. by rewrite app_nil_r. }
  pose proof (in_neighbors rng cur.1 cur.2 true true) as Hnb.
  destruct (neighbors rng cur.1 cur.2 true true) as [nb rng1]. cbn [fst] in Hnb.
  destruct (find _ nb) as [c|] eqn:Hfind.
  - apply find_some in Hfind as [Hin Hp]. apply andb_prop in Hp as [Hlt H0].
    apply Z.ltb_lt in Hlt. apply Z.leb_le in H0.
    destruct (IH rng1 c (path_rev ++ [c])) as (ext & rng' & Hrun & Hd & Hlast);
      [lia|lia|].
    exists (c :: ext), rng'. rewrite Hrun, <- app_assoc. split; [done|].
    split; [|done]. cbn [descends]. split; [by apply Hnb|]. split; [lia|done].
  - exfalso. destruct (field_predecessor cur Hc Hne) as (p & Hp & Hlt).
    pose proof (find_none _ _ Hfind p (proj2 (Hnb p) Hp)) as Hf.
    cbv beta in Hf. apply andb_false_iff in Hf as [Hf|Hf].
    + apply Z.ltb_ge in Hf. lia.
    + apply Z.leb_gt in Hf. lia.
Qed.

Lemma descends_length cur ext :
  0 <= dis cur -> descends dis cur ext -> (length ext <= Z.to_nat (dis cur))%nat.
Proof.
  revert cur. induction ext as [|c ext IH]; intros cur H0 Hd; simpl; [lia|].
  destruct Hd as (_ & Hlt & Hd). specialize (IH c (proj1 Hlt) Hd). lia.
Qed.

Lemma descends_reached cur ext c :
  dis cur <> -1 -> descends dis cur ext -> In c (cur :: ext) -> dis c <> -1.
Proof.
  revert cur. induction ext as [|a ext IH]; intros cur Hc Hd [<-|Hin]; try done.
  destruct Hd as (_ & Hlt & Hd). apply (IH a); [lia|done|done].
Qed.

Lemma climbs_snoc l c cur :
  climbs dis (l ++ [c]) ->
  In cur (neighbors_fixed c.1 c.2 true) -> dis c < dis cur ->
  climbs dis ((l ++ [c]) ++ [cur]).
Proof.
  intros Hl Hin Hlt. induction l as [|a l IH]; cbn [app climbs] in *; [done|].
  destruct Hl as [Hhead Hl]. split; [|by apply IH].
  destruct l; exact Hhead.
Qed.

Lemma descends_climbs cur ext :
  in_bounds cur = true -> descends dis cur ext -> climbs dis (rev (cur :: ext)).
Proof.
  revert cur. induction ext as [|c ext IH]; intros cur Hb Hd; [done|].
  destruct Hd as (Hin & Hlt & Hd).
  pose proof (neighbors_fixed_in_bounds _ _ _ _ Hin) as Hbc.
  specialize (IH c Hbc Hd).
  change (rev (cur :: c :: ext)) with (rev (c :: ext) ++ [cur]).
  cbn [rev] in *. apply climbs_snoc; [done| |lia].
  apply (neighbors_fixed_sym cur c Hb Hin).
Qed.

End PathFacts.

Section PathTheorem.

Context `{Config}.

Lemma head_rev {A : Type} (l : list A) : head (rev l) = last l.
Proof.
  induction l as [|x l _] using rev_ind; [done|].
  by rewrite rev_app_distr, last_snoc.
Qed.

Lemma last_rev {A : Type} (l : list A) : last (rev l) = head l.
Proof. destruct l as [|a l]; [done|]. simpl. by rewrite last_snoc. Qed.

(** X5: on the distance field of a source in the grid, [path] to any cell
    the field reaches returns: the loop ends and no assertion fires.  The
    path starts at the source and ends at the target; each of its cells is
    followed by one of its neighbours, of greater distance; it has at most
    [dis[target] + 1] cells; all of them are in the grid and, the source
    apart, walkable. *)
Theorem path_on_distance_field (level : Level) (rng : RandomState R)
    (from_y from_x to_y to_x : Z) (dis : grid Z) :
  in_bounds (from_y, from_x) = true ->
  distance_field (legal level) (from_y, from_x) dis ->
  dis (to_y, to_x) <> -1 ->
  exists p rng',
    path level rng from_y from_x to_y to_x (Some dis) = (Ok p, rng') /\
    head p = Some (from_y, from_x) /\
    last p = Some (to_y, to_x) /\
    climbs dis p /\
    (length p <= Z.to_nat (dis (to_y, to_x)) + 1)%nat /\
    (forall c, In c p ->
       in_bounds c = true /\ (c <> (from_y, from_x) -> walkable level c = true)).
Proof.
  intros Hb Hfield Hto. unfold path.
  pose proof (field_src level _ dis Hfield) as Hsrc.
  destruct (decide (from_y = to_y /\ from_x = to_x)) as [[-> ->]|Hne].
  { exists [(to_y, to_x)], rng. split; [done|]. split; [done|]. split; [done|].
    split; [done|]. split; [simpl; lia|]. intros c [<-|[]]. by split. }
  unfold path_with. rewrite (proj2 (Z.eqb_neq _ _) Hto).
  destruct (path_loop_ok level _ dis Hb Hfield
              (S (Z.to_nat (dis (to_y, to_x)))) rng (to_y, to_x) [(to_y, to_x)]
              Hto (Nat.lt_succ_diag_r _)) as (ext & rng' & -> & Hd & Hlast).
  rewrite Hsrc, Z.eqb_refl.
  change ([(to_y, to_x)] ++ ext) with ((to_y, to_x) :: ext).
  assert (Hhead : head (rev ((to_y, to_x) :: ext)) = Some (from_y, from_x)).
  { rewrite head_rev. exact Hlast. }
  assert (Hl : last (rev ((to_y, to_x) :: ext)) = Some (to_y, to_x)).
  { by rewrite last_rev. }
  rewrite bool_decide_eq_true_2 by done.
  destruct (field_reached level _ dis Hb Hfield (to_y, to_x) Hto) as [Hbt _].
  exists (rev ((to_y, to_x) :: ext)), rng'.
  split; [done|]. split; [done|]. split; [done|].
  split; [by apply descends_climbs|]. split.
  - rewrite length_rev, length_cons.
    destruct (Hfield (to_y, to_x)) as [[? _]|(H0 & _)]; [done|].
    rewrite Nat.add_1_r. apply le_n_S. by apply (descends_length dis).
  - intros c Hc. apply in_rev in Hc.
    apply (field_reached level _ dis Hb Hfield).
    by apply (descends_reached dis (to_y, to_x) ext).
Qed.

End PathTheorem.

(** X5 on [door_corner], from the agent's cell to the open door. *)
Lemma path_on_distance_field_witness :
  exists p rng',
    @path nle (level_of door_corner) tt 1 1 2 2
      (Some (@bfs_field nle (level_of door_corner) tt 1 1)) = (Ok p, rng') /\
    head p = Some (1, 1) /\
    last p = Some (2, 2) /\
    @climbs nle (@bfs_field nle (level_of door_corner) tt 1 1) p /\
    (length p <= Z.to_nat (@bfs_field nle (level_of door_corner) tt 1 1 (2, 2)%Z) + 1)%nat /\
    (forall c, In c p ->
       @in_bounds nle c = true /\
       (c <> (1, 1) -> walkable (level_of door_corner) c = true)).
Proof.
  apply (@path_on_distance_field nle (level_of door_corner) tt 1 1 2 2).
  - reflexivity.
  - destruct (@bfs_distance_field nle (level_of door_corner) (1, 1)
                ltac:(vm_compute; discriminate) tt 1 1 eq_refl eq_refl)
      as (dis & rng' & Hrun & _ & Hfield & _).
    unfold bfs_field. rewrite Hrun. exact Hfield.
  - vm_compute. discriminate.
Defined.

Section DirectionTheorems.

Context `{Config}.

(** X6: asked for a cell more than one step away, [direction] and [move]
    raise [AssertionError] from [calc_direction] before anything is
    submitted: the process state is left as it was. *)
Theorem direction_beyond_reach (fuel : nat) (y x : Z) (w : World) :
  1 < Z.max (Z.abs (bl_y (blstats (self w)) - y)) (Z.abs (bl_x (blstats (self w)) - x)) ->
  direction fuel (At y x) w = (Raise AssertionError, w) /\
  move fuel (At y x) w = (Raise AssertionError, w).
Proof.
  intros Hfar. rewrite move_At. unfold direction, resolve, bind, get.
  by rewrite (calc_direction_far _ _ _ _ Hfar).
Qed.

(** X7: asked for one of the eight cells around the agent, [direction]
    submits the compass action of that displacement and nothing else, and the
    cell [move] predicts from the direction word is the cell asked for. *)
Theorem direction_adjacent (fuel : nat) (y x : Z) (w : World) :
  Z.abs (y - bl_y (blstats (self w))) <= 1 ->
  Z.abs (x - bl_x (blstats (self w))) <= 1 ->
  (y, x) <> position w ->
  exists dir action,
    In (dir, action, (y - bl_y (blstats (self w)), x - bl_x (blstats (self w)))) compass /\
    direction fuel (At y x) w = (do_ step fuel action; ret true) w /\
    move fuel (At y x) w = move fuel (Word dir) w /\
    predicted w dir = (y, x).
Proof.
  intros Hy Hx Hne.
  destruct (calc_direction_near (bl_y (blstats (self w))) (bl_x (blstats (self w))) y x)
    as (dir & Hd & Ey & Ex & Hdot & Ha); [lia|lia|].
  destruct Ha as (a & Hin & Hlook).
  { intros Hdir. apply Hdot in Hdir as [-> ->]. by apply Hne. }
  exists dir, a. split; [done|]. split; [|split].
  - unfold direction, resolve. unfold bind at 1. unfold bind at 1, get at 1.
    rewrite Hd. unfold ret at 1. by rewrite Hlook.
  - by rewrite move_At, Hd.
  - unfold predicted. by rewrite Ey, Ex.
Qed.

End DirectionTheorems.

(** X6 by the closed door of [by_door]: a target two cells east. *)
Lemma direction_beyond_reach_witness :
  @direction nle 10 (At 5 7) (agent_on [(by_door, false)])
  = (Raise AssertionError, agent_on [(by_door, false)]) /\
  @move nle 10 (At 5 7) (agent_on [(by_door, false)])
  = (Raise AssertionError, agent_on [(by_door, false)]).
Proof.
  apply (@direction_beyond_reach nle 10 5 7 (agent_on [(by_door, false)])).
  vm_compute. reflexivity.
Defined.

(** X7 by the closed door of [by_door]: the door, one cell east. *)
Lemma direction_adjacent_witness :
  exists dir action,
    In (dir, action,
        (5 - bl_y (@blstats nle (@self nle (agent_on [(by_door, false)]))),
         6 - bl_x (@blstats nle (@self nle (agent_on [(by_door, false)])))))
       compass /\
    @direction nle 10 (At 5 6) (agent_on [(by_door, false)])
    = (do_ @step nle 10 action; ret true) (agent_on [(by_door, false)]) /\
    @move nle 10 (At 5 6) (agent_on [(by_door, false)])
    = @move nle 10 (Word dir) (agent_on [(by_door, false)]) /\
    @predicted nle (agent_on [(by_door, false)]) dir = (5, 6).
Proof.
  apply (@direction_adjacent nle 10 5 6 (agent_on [(by_door, false)])).
  - vm_compute. discriminate.
  - vm_compute. discriminate.
  - vm_compute. discriminate.
Defined.

Section StepTheorems.

Context `{Config}.

Lemma is_any_mon_on_map_false w : is_any_mon_on_map w = false <-> no_monster w.
Proof.
  unfold is_any_mon_on_map, no_monster, glyph_in. split.
  - intros Hno c Hb Hne Hmon.
    assert (Hex : existsb (fun c => negb (bool_decide (c = position w))
                            && bool_decide (glyphs (self w) c ∈ MONS G)) all_cells = true);
      [|congruence].
    apply existsb_exists. exists c. split; [by apply in_all_cells|].
    by rewrite bool_decide_eq_false_2, bool_decide_eq_true_2.
  - intros Hno. apply not_true_is_false. intros Hex.
    apply existsb_exists in Hex as (c & Hc & Hp). apply andb_prop in Hp as [Hne Hmon].
    apply negb_true_iff, bool_decide_eq_false in Hne.
    apply bool_decide_eq_true in Hmon. apply in_all_cells in Hc.
    by apply (Hno c).
Qed.

(** [update_level] on the agent returns, with the agent's attributes other
    than the generator as they were and the merged level under the current
    key. *)
Lemma update_level_m_spec w :
  exists w',
    update_level_m w = (Ok tt, w') /\
    last_observation (self w') = last_observation (self w) /\
    blstats (self w') = blstats (self w) /\
    glyphs (self w') = glyphs (self w) /\
    message (self w') = message (self w) /\
    Agent_levels w' !! current_key w
    = Some (update_level (glyphs (self w)) (bl_y (blstats (self w)))
              (bl_x (blstats (self w)))
              (default Level_init (Agent_levels w !! current_key w), rng (self w))).1.
Proof.
  unfold update_level_m.
  destruct (current_level_spec w) as (w1 & Hrun & Hself & [l Hl] & _ & Hcur).
  unfold bind at 1. rewrite Hrun.
  unfold bind at 1, level_at, bind at 1, get. rewrite Hl. unfold ret at 1.
  unfold bind at 1, get. rewrite Hself.
  rewrite Hl in Hcur. injection Hcur as ->.
  destruct (update_level _ _ _ _) as [l' r'] eqn:Hupd.
  unfold bind, modify_levels, modify_self. eexists. split; [done|]. simpl.
  rewrite Hself, lookup_insert_eq. done.
Qed.

(** [update_map], for any [step] that returns only settled (with no
    monster in sight) and raises only the two exceptions of [step]. *)
Lemma update_map_with_settled (stepf : Action -> M unit) is_first w :
  (forall a w0,
     match stepf a w0 with
     | (Ok _, w') => settled w' /\ no_monster w'
     | (Raise e, _) => e = AgentFinished \/ e = AgentChangeStrategy
     | (Diverge, _) => True
     end) ->
  match update_map_with stepf is_first w with
  | (Ok _, w') => settled w' /\ (is_first = false -> no_monster w')
  | (Raise e, _) => e = AgentFinished \/ e = AgentChangeStrategy
  | (Diverge, _) => True
  end.
Proof.
  intros Hstep. unfold update_map_with.
  unfold bind at 1, modify_self at 1. unfold bind at 1, get at 1. cbv zeta.
  set (w2 := {| Agent_levels := Agent_levels w; self := set_observed (self w) |}).
  change (last_observation (self w2)) with (last_observation (self w)).
  destruct (contains "--More--" _) eqn:Hmore.
  { specialize (Hstep Command_ESC w2).
    destruct (stepf Command_ESC w2) as [[[]| |] w']; [|done|done].
    split; [apply Hstep|intros _; apply Hstep]. }
  destruct (contains "[yn]" _) eqn:Hyn.
  { specialize (Hstep CompassDirection_NW w2).
    destruct (stepf CompassDirection_NW w2) as [[[]| |] w']; [|done|done].
    split; [apply Hstep|intros _; apply Hstep]. }
  destruct (update_level_m_spec w2) as (w3 & Hrun & Hobs & Hbl & Hgl & Hmsg & Hlev).
  unfold bind at 1. rewrite Hrun.
  assert (Hsettled : settled w3).
  { unfold settled. cbv zeta. rewrite Hobs, Hbl, Hgl, Hmsg.
    split; [done|]. split; [done|]. split; [done|]. split; [done|]. split; [done|].
    eexists. split.
    - unfold current_key in *. rewrite Hbl. exact Hlev.
    - intros c Hb Hwalk.
      match goal with |- context [update_level ?g ?y ?x ?st] =>
        destruct (update_level_at g y x st c) as (-> & -> & ->) end.
      rewrite Hb, Hwalk. simpl. by rewrite !orb_true_r. }
  unfold on_update. destruct is_first; [by split|].
  unfold bind, get. destruct (is_any_mon_on_map w3) eqn:Hmon; [by right|].
  split; [done|]. intros _. by apply is_any_mon_on_map_false.
Qed.

Lemma step_settled fuel : forall action w,
  match step fuel action w with
  | (Ok _, w') => settled w' /\ no_monster w'
  | (Raise e, _) => e = AgentFinished \/ e = AgentChangeStrategy
  | (Diverge, _) => True
  end.
Proof.
  induction fuel as [|fuel IH]; intros action w; [done|].
  cbn [step]. unfold bind at 1, get at 1.
  destruct (env_step (env (self w)) action) as [[[obs reward] done] e].
  unfold bind at 1, modify_self at 1.
  destruct done; [by left|].
  match goal with |- context [update_map_with _ false ?w1] =>
    pose proof (update_map_with_settled (step fuel) false w1 IH) as Hu;
    destruct (update_map_with (step fuel) false w1) as [[[]| |] w']
  end; [|done|done].
  destruct Hu as [Hs Hm]. split; [done|by apply Hm].
Qed.

(** X8: when [step] returns, no prompt is pending in the last observation,
    the agent's position, glyphs and message are those of that observation,
    the level of the current key is in the registry and records every cell
    that shows walkable terrain, and no monster is in sight; the exceptions
    [step] raises are [AgentFinished] and [AgentChangeStrategy].  The same
    holds of [update_map], which looks for monsters only when it is not the
    first update. *)
Theorem step_postcondition (fuel : nat) (w : World) :
  (forall action,
     match step fuel action w with
     | (Ok _, w') => settled w' /\ no_monster w'
     | (Raise e, _) => e = AgentFinished \/ e = AgentChangeStrategy
     | (Diverge, _) => True
     end) /\
  (forall is_first,
     match update_map fuel is_first w with
     | (Ok _, w') => settled w' /\ (is_first = false -> no_monster w')
     | (Raise e, _) => e = AgentFinished \/ e = AgentChangeStrategy
     | (Diverge, _) => True
     end).
Proof.
  split.
  - intros action. apply step_settled.
  - intros is_first. unfold update_map.
    apply update_map_with_settled. apply step_settled.
Qed.

Lemma log_kept_update_map fuel is_first : log_kept (update_map fuel is_first).
Proof.
  apply log_kept_intro. intros w0. apply preserves_update_map;
    solve [ intros w a Ha Hw; simpl; congruence | intros; simpl; assumption ].
Qed.

(** X9: the constructor leaves the same settled state, whether or not a
    monster is in sight, with an empty log; it raises only what [step]
    raises, while it answers the prompts of the first observation. *)
Theorem Agent_init_postcondition (fuel : nat) (levels : gmap (Z * Z) Level)
    (e : Env) (seed : Z) (verb : bool) :
  match Agent_init fuel levels e seed verb with
  | (Ok _, w) => settled w /\ all_panics (self w) = []
  | (Raise e, w) =>
    (e = AgentFinished \/ e = AgentChangeStrategy) /\ all_panics (self w) = []
  | (Diverge, w) => all_panics (self w) = []
  end.
Proof.
  unfold Agent_init. destruct (env_reset e) as [obs e'].
  match goal with |- context [update_map fuel true ?w0] =>
    pose proof (update_map_with_settled (step fuel) true w0 (step_settled fuel)) as Hu;
    pose proof (log_kept_update_map fuel true w0) as Hlog;
    unfold update_map in *;
    destruct (update_map_with (step fuel) true w0) as [[[]| |] w']
  end; simpl in *.
  - destruct Hu as [Hs _]. done.
  - done.
  - done.
Qed.

End StepTheorems.

Section StrategyOutcome.

Context `{Config}.

Lemma bind_ext {A B : Type} (m : M A) (k1 k2 : A -> M B) w :
  (forall a w', k1 a w' = k2 a w') -> bind m k1 w = bind m k2 w.
Proof. intros Hk. unfold bind. destruct (m w) as [[a| |] w']; auto. Qed.

Lemma bind_never_false {A : Type} (m : M A) (k : A -> M bool) w :
  (forall a w', (k a w').1 <> Ok false) -> (bind m k w).1 <> Ok false.
Proof. intros Hk. unfold bind. destruct (m w) as [[a| |] w']; [apply Hk|done|done]. Qed.

(** [search1] has no [return False]. *)
Lemma search1_never_false fuel w : (search1 fuel w).1 <> Ok false.
Proof.
  unfold search1.
  apply bind_never_false; intros key w1.
  apply bind_never_false; intros level w2.
  apply bind_never_false; intros dis w3.
  destruct (search_target level dis) as [[ty tx]| |]; [|done|done].
  apply bind_never_false; intros w4 w5.
  apply bind_never_false; intros p w6.
  apply bind_never_false; intros walked w7.
  destruct walked; [|done].
  apply bind_never_false; intros b w8. done.
Qed.

(** X10: the [assert 0] that ends [select_strategy] is never reached:
    [search1] never answers [False], so [select_strategy] is the same
    computation as the one that runs [search1] last and returns. *)
Theorem select_strategy_assert_unreachable (fuel : nat) (w : World) :
  (search1 fuel w).1 <> Ok false /\
  select_strategy fuel w =
  (do w0 <- get;
   do fought <- (if is_any_mon_on_map w0 then fight1 fuel else ret false);
   if fought : bool then ret tt
   else
     do explored <- explore1 fuel;
     if explored : bool then ret tt
     else
       do descended <- move_down fuel;
       if descended : bool then ret tt
       else do_ search1 fuel; ret tt) w.
Proof.
  split; [apply search1_never_false|].
  unfold select_strategy.
  apply bind_ext; intros w0 w1.
  apply bind_ext; intros [] w2; [done|].
  apply bind_ext; intros [] w3; [done|].
  apply bind_ext; intros [] w4; [done|].
  unfold bind. pose proof (search1_never_false fuel w4) as Hs.
  destruct (search1 fuel w4) as [[[]| |] w5]; done.
Qed.

End StrategyOutcome.

(** ** The protocol of the environment

    The agent touches the environment in [step] only.  A protocol that
    every step keeps while the episode runs is kept by every operation. *)

Create HintDb ensure discriminated.

Section EnvProtocol.

Context `{Config}.

Variables I V : Env -> Prop.

Hypothesis I_V : forall e, I e -> V e.

Hypothesis I_step : forall e a,
  I e -> V (env_step e a).2 /\ ((env_step e a).1.2 = false -> I (env_step e a).2).

Lemma ensures_ret {A : Type} (a : A) : ensures I V (ret a).
Proof. by intros w Hw. Qed.

Lemma ensures_raise {A : Type} e : ensures I V (@raise _ A e).
Proof. intros w Hw. unfold raise. destruct e; auto. Qed.

Lemma ensures_diverge {A : Type} : ensures I V (@diverge _ A).
Proof. by intros w Hw. Qed.

Lemma ensures_get : ensures I V get.
Proof. by intros w Hw. Qed.

Lemma ensures_bind {A B : Type} (m : M A) (k : A -> M B) :
  ensures I V m -> (forall a, ensures I V (k a)) -> ensures I V (bind m k).
Proof.
  intros Hm Hk w Hw. unfold bind. specialize (Hm w Hw).
  destruct (m w) as [[a|e|] w1]; [by apply Hk| |done]. by destruct e.
Qed.

Lemma ensures_modify_levels f : ensures I V (modify_levels f).
Proof. by intros w Hw. Qed.

Lemma ensures_set_rng r : ensures I V (modify_self (set_rng r)).
Proof. by intros w Hw. Qed.

Lemma ensures_set_observed : ensures I V (modify_self set_observed).
Proof. by intros w Hw. Qed.

Ltac ensure_step :=
  first
    [ assumption
    | solve [eauto with ensure]
    | progress cbv zeta
    | match goal with
      | |- ensures _ _ (match ?x with _ => _ end) => destruct x
      | |- ensures _ _ (bind _ _) => apply ensures_bind; [|intros ?]
      end ].

Ltac ensure := repeat ensure_step.

Local Hint Resolve ensures_ret ensures_raise ensures_diverge ensures_get
  ensures_modify_levels ensures_set_rng ensures_set_observed : ensure.

Lemma ensures_current_level : ensures I V current_level.
Proof. unfold current_level. ensure. Qed.

Lemma ensures_level_at key : ensures I V (level_at key).
Proof. unfold level_at. ensure. Qed.

Local Hint Resolve ensures_current_level ensures_level_at : ensure.

Lemma ensures_update_level_m : ensures I V update_level_m.
Proof. unfold update_level_m. ensure. Qed.

Lemma ensures_on_update is_first : ensures I V (on_update is_first).
Proof. unfold on_update. ensure. Qed.

Local Hint Resolve ensures_update_level_m ensures_on_update : ensure.

Lemma ensures_update_map_with stepf is_first :
  (forall a, ensures I V (stepf a)) -> ensures I V (update_map_with stepf is_first).
Proof. intros Hstep. unfold update_map_with. ensure. Qed.

Lemma ensures_step fuel : forall action, ensures I V (step fuel action).
Proof.
  induction fuel as [|fuel IH]; intros action; [apply ensures_diverge|].
  intros w Hw. cbn [step]. unfold bind at 1, get at 1.
  destruct (I_step (env (self w)) action Hw) as [HV HI].
  destruct (env_step (env (self w)) action) as [[[obs reward] done] e].
  unfold bind at 1, modify_self at 1. cbn [fst snd] in *.
  destruct done; [exact HV|].
  apply (ensures_update_map_with (step fuel) false IH). simpl. by apply HI.
Qed.

Local Hint Resolve ensures_step : ensure.

Lemma ensures_update_map fuel is_first : ensures I V (update_map fuel is_first).
Proof. unfold update_map. apply ensures_update_map_with. ensure. Qed.

Lemma ensures_resolve t : ensures I V (resolve t).
Proof. unfold resolve. ensure. Qed.

Local Hint Resolve ensures_resolve : ensure.

Lemma ensures_direction fuel t : ensures I V (direction fuel t).
Proof. unfold direction. ensure. Qed.

Local Hint Resolve ensures_direction : ensure.

Lemma ensures_move fuel t : ensures I V (move fuel t).
Proof. unfold move. ensure. Qed.

Local Hint Resolve ensures_move : ensure.

Lemma ensures_open_door fuel y x : ensures I V (open_door fuel y x).
Proof. unfold open_door. ensure. Qed.

Lemma ensures_fight fuel y x : ensures I V (fight fuel y x).
Proof. unfold fight. ensure. Qed.

Lemma ensures_kick fuel y x : ensures I V (kick fuel y x).
Proof. unfold kick. ensure. Qed.

Lemma ensures_search fuel : ensures I V (search fuel).
Proof. unfold search. ensure. Qed.

Local Hint Resolve ensures_open_door ensures_fight ensures_kick ensures_search : ensure.

Lemma ensures_bfs_m y x : ensures I V (bfs_m y x).
Proof. unfold bfs_m. ensure. Qed.

Local Hint Resolve ensures_bfs_m : ensure.

Lemma ensures_path_m from_y from_x to_y to_x dis :
  ensures I V (path_m from_y from_x to_y to_x dis).
Proof. unfold path_m. ensure. Qed.

Local Hint Resolve ensures_path_m : ensure.

Lemma ensures_walk fuel cells : ensures I V (walk fuel cells).
Proof. induction cells as [|c cells IH]; simpl; ensure. Qed.

Lemma ensures_kick_loop rounds fuel py px : ensures I V (kick_loop rounds fuel py px).
Proof. induction rounds as [|rounds IH]; simpl; ensure. Qed.

Local Hint Resolve ensures_walk ensures_kick_loop : ensure.

Lemma ensures_fight1 fuel : ensures I V (fight1 fuel).
Proof. unfold fight1. ensure. Qed.

Lemma ensures_explore1 fuel : ensures I V (explore1 fuel).
Proof. unfold explore1. ensure. Qed.

Lemma ensures_move_down fuel : ensures I V (move_down fuel).
Proof. unfold move_down. ensure. Qed.

Lemma ensures_search1 fuel : ensures I V (search1 fuel).
Proof. unfold search1. ensure. Qed.

Local Hint Resolve ensures_fight1 ensures_explore1 ensures_move_down
  ensures_search1 : ensure.

Lemma ensures_select_strategy fuel : ensures I V (select_strategy fuel).
Proof. unfold select_strategy. ensure. Qed.

(** The control loop ends on an environment of which [V] holds. *)
Lemma ensures_main rounds fuel : forall w,
  I (env (self w)) -> V (env (self (main rounds fuel w).2)).
Proof.
  induction rounds as [|rounds IH]; intros w Hw; simpl; [by apply I_V|].
  unfold main_round. pose proof (ensures_select_strategy fuel w Hw) as Hs.
  destruct (select_strategy fuel w) as [[[]|[]|] w1]; simpl in *;
    first [by apply IH | by apply I_V | done].
Qed.

(** So does a whole run: the constructor on an environment whose [reset]
    establishes [I], then the control loop if the constructor returns. *)
Lemma ensures_run rounds fuel fuel' levels e seed verb :
  I (env_reset e).2 ->
  match Agent_init fuel' levels e seed verb with
  | (Ok _, w) => V (env (self (main rounds fuel w).2))
  | (_, w) => V (env (self w))
  end.
Proof.
  intros Hreset. unfold Agent_init.
  destruct (env_reset e) as [obs e']. cbn [snd] in Hreset.
  match goal with |- context [update_map fuel' true ?w0] =>
    pose proof (ensures_update_map fuel' true w0 Hreset) as Hu;
    destruct (update_map fuel' true w0) as [[[]|ex|] w1]
  end.
  - by apply ensures_main.
  - destruct ex; auto.
  - by apply I_V.
Qed.

End EnvProtocol.

(** X11: the agent never steps an environment that has reported the end
    of the episode.  On any environment, monitored by a flag that is raised
    when [env.step] is called after a reply with [done], the flag is down
    after the constructor and, if the constructor returns, after any number
    of rounds of the control loop. *)
Theorem never_steps_when_done (H : Config) (rounds fuel fuel' : nat)
    (levels : gmap (Z * Z) Level) (e : @Env H) (done : bool) (seed : Z) (verb : bool) :
  match @Agent_init (monitored H) fuel' levels (e, (done, false)) seed verb with
  | (Ok _, w) => stepped_when_done (@main (monitored H) rounds fuel w).2 = false
  | (_, w) => stepped_when_done w = false
  end.
Proof.
  apply (@ensures_run (monitored H)
           (fun e => e.2 = (false, false)) (fun e => e.2.2 = false)).
  - by intros [e0 [fin bad]] [= -> ->].
  - intros [e0 [fin bad]] a [= -> ->]. unfold env_step, monitored. cbn [fst snd].
    destruct (@env_step H e0 a) as [[[obs reward] done'] e1]. cbn.
    split; [done|]. by intros ->.
  - unfold env_reset, monitored. cbn [fst snd].
    by destruct (@env_reset H e) as [obs e1].
Qed.

Section LimitedRun.

Context (H : Config) (turns : @Env H -> Z).

Lemma limited_step_protocol (limit : Z) (e : @Env (limited H turns)) (a : Action) :
  e.2 = None /\ EnvLimitWrapper.step_limit _ e.1 = limit /\ steps_at_most limit e.1 ->
  ((@env_step (limited H turns) e a).2.2 = None /\
   EnvLimitWrapper.step_limit _ (@env_step (limited H turns) e a).2.1 = limit /\
   steps_at_most (limit + 1) (@env_step (limited H turns) e a).2.1) /\
  ((@env_step (limited H turns) e a).1.2 = false ->
   (@env_step (limited H turns) e a).2.2 = None /\
   EnvLimitWrapper.step_limit _ (@env_step (limited H turns) e a).2.1 = limit /\
   steps_at_most limit (@env_step (limited H turns) e a).2.1).
Proof.
  destruct e as [w err]. cbn [fst snd]. intros (-> & Hlimit & c & Hc & Hle).
  unfold env_step, limited. cbn [fst snd]. unfold EnvLimitWrapper.step.
  destruct (@env_step H (EnvLimitWrapper.env _ w) a) as [[[obs reward] done] e'].
  rewrite Hc. cbv zeta. cbn [EnvLimitWrapper.cur_step].
  rewrite Hlimit.
  destruct (Z.eqb_spec (EnvLimitWrapper.cur_step c + 1) (limit + 1)) as [Heq|Hne].
  - cbn. split; [|done]. split; [done|]. split; [done|].
    eexists. split; [done|]. simpl. lia.
  - destruct (Z.ltb_spec (limit + 1) (EnvLimitWrapper.cur_step c + 1)) as [Hlt|Hge];
      [lia|].
    cbn. split.
    + split; [done|]. split; [done|]. eexists. split; [done|]. simpl. lia.
    + intros _. split; [done|]. split; [done|]. eexists. split; [done|]. simpl. lia.
Qed.

(** X12: an agent run on an [EnvLimitWrapper] whose limit is not negative
    never makes the wrapper fail: the [assert 0] of its [step] is not
    reached, neither in the constructor nor in any number of rounds of the
    control loop, and the wrapper counts at most [step_limit + 1] steps. *)
Theorem limit_wrapper_never_fails (limit : Z) (rounds fuel fuel' : nat)
    (levels : gmap (Z * Z) Level) (e : @Env H) (seed : Z) (verb : bool) :
  0 <= limit ->
  match @Agent_init (limited H turns) fuel' levels
          (EnvLimitWrapper.init _ e limit, None) seed verb with
  | (Ok _, w) =>
    raised_by_wrapper (@main (limited H turns) rounds fuel w).2 = None /\
    steps_at_most (limit + 1) (wrapper_of (@main (limited H turns) rounds fuel w).2)
  | (_, w) =>
    raised_by_wrapper w = None /\ steps_at_most (limit + 1) (wrapper_of w)
  end.
Proof.
  intros Hlimit.
  pose proof (@ensures_run (limited H turns)
    (fun e => e.2 = None /\ EnvLimitWrapper.step_limit _ e.1 = limit /\
              steps_at_most limit e.1)
    (fun e => e.2 = None /\ EnvLimitWrapper.step_limit _ e.1 = limit /\
              steps_at_most (limit + 1) e.1)) as Hrun.
  specialize (Hrun
    ltac:(intros e0 (? & ? & c & ? & ?); split; [done|]; split; [done|];
          exists c; split; [done|lia])
    (limited_step_protocol limit)
    rounds fuel fuel' levels (EnvLimitWrapper.init _ e limit, None) seed verb).
  unfold raised_by_wrapper, wrapper_of.
  destruct (@Agent_init (limited H turns) fuel' levels _ seed verb) as [[[]| |] w];
    (destruct Hrun as (? & _ & ?); [|by split]).
  all: unfold env_reset, limited, EnvLimitWrapper.reset, EnvLimitWrapper.init;
    cbn [fst snd EnvLimitWrapper.env EnvLimitWrapper.step_limit];
    destruct (@env_reset H e) as [obs e1]; cbn;
    split; [done|]; split; [done|]; eexists; split; [done|]; simpl; lia.
Qed.

End LimitedRun.

(** X12 on a scripted environment, wrapped with a limit of one step. *)
Lemma limit_wrapper_never_fails_witness :
  match @Agent_init (limited nle (fun _ => 0)) 10 ∅
          (EnvLimitWrapper.init _
             [(open_floor, false); (open_floor, false); (open_floor, false);
              (open_floor, false)] 1, None) 0 false with
  | (Ok _, w) =>
    raised_by_wrapper (@main (limited nle (fun _ => 0)) 5 10 w).2 = None /\
    steps_at_most (1 + 1) (wrapper_of (@main (limited nle (fun _ => 0)) 5 10 w).2)
  | (_, w) =>
    raised_by_wrapper w = None /\ steps_at_most (1 + 1) (wrapper_of w)
  end.
Proof.
  apply (limit_wrapper_never_fails nle (fun _ => 0) 1 5 10 10 ∅). lia.
Defined.

Section TargetFacts.

Context `{Config}.

Lemma fold_closest_spec (ok : cell -> bool) (dis : grid Z) (l : list cell) :
  StronglySorted row_major_lt l ->
  forall init,
    (forall i, init = Some i -> forall c, In c l -> row_major_lt i c) ->
    match fold_left
            (fun (closest : option cell) c =>
               if ok c && match closest with
                          | None => true
                          | Some c' => dis c <? dis c'
                          end
               then Some c else closest) l init with
    | None => init = None /\ forall c, In c l -> ok c = false
    | Some t =>
      (init = Some t \/ (In t l /\ ok t = true)) /\
      (forall i, init = Some i -> dis t <= dis i /\ (dis i = dis t -> i = t)) /\
      (forall c, In c l -> ok c = true ->
         dis t <= dis c /\ (dis c = dis t -> c = t \/ row_major_lt t c))
    end.
Proof.
  induction 1 as [|a l Hs IH Hall]; intros init Hinit; cbn [fold_left].
  { destruct init as [i|].
    - split; [by left|]. split; [|intros c []].
      intros i' [= <-]. split; [lia|done].
    - split; [done|]. intros c []. }
  rewrite Forall_forall in Hall.
  set (init' := if ok a && match init with
                           | None => true
                           | Some c' => dis a <? dis c'
                           end
                then Some a else init).
  assert (Hinit' : forall i, init' = Some i -> forall c, In c l -> row_major_lt i c).
  { intros i Hi c Hc. unfold init' in Hi. destruct (ok a && _).
    - injection Hi as <-. by apply Hall, list_elem_of_In.
    - apply (Hinit i Hi). by right. }
  specialize (IH init' Hinit').
  destruct (fold_left _ l init') as [t|].
  - destruct IH as (Hfrom & Hi & Hc). split; [|split].
    + destruct Hfrom as [Ht|[Ht Hok]]; [|right; split; [by right|done]].
      unfold init' in Ht. destruct (ok a && _) eqn:E; [|by left].
      injection Ht as <-. right. split; [by left|].
      by apply andb_prop in E as [? _].
    + intros i ->. unfold init' in Hi. destruct (ok a) eqn:Hok; simpl in Hi.
      * destruct (Z.ltb_spec (dis a) (dis i)) as [Hlt|Hge].
        -- destruct (Hi a eq_refl) as [Hle _]. split; [lia|]. intros. lia.
        -- by apply Hi.
      * by apply Hi.
    + intros c [<-|Hin] Hok; [|by apply Hc].
      unfold init' in Hi. rewrite Hok in Hi. simpl in Hi.
      destruct init as [i|].
      * destruct (Z.ltb_spec (dis a) (dis i)) as [Hlt|Hge].
        -- destruct (Hi a eq_refl) as [Hle Heq]. split; [done|].
           intros Hd. left. by apply Heq.
        -- destruct (Hi i eq_refl) as [Hle Heq]. split; [lia|].
           intros Hd. right. assert (i = t) as <- by (apply Heq; lia).
           apply (Hinit i eq_refl). by left.
      * destruct (Hi a eq_refl) as [Hle Heq]. split; [done|].
        intros Hd. left. by apply Heq.
  - destruct IH as [Hnone Hall']. unfold init' in Hnone.
    destruct (ok a) eqn:Hok; simpl in Hnone.
    + destruct init as [i|]; [|done].
      destruct (dis a <? dis i); done.
    + split; [done|]. intros c [<-|Hc]; [done|by apply Hall'].
Qed.

(** X13: [fight1] heads for a monster of least distance among those that
    are in sight on another cell than the agent's and that the field reaches,
    the first of them in row-major order; it answers [False] exactly when
    there is none. *)
Theorem fight1_target (fuel : nat) (w : World) (dis : grid Z) :
  fight1 fuel w =
  (do dis <- bfs_m None None;
   do w <- get;
   match closest_monster w dis with
   | None => ret false
   | Some (y, x) =>
     do p <- path_m (bl_y (blstats (self w))) (bl_x (blstats (self w))) y x None;
     match tail p with
     | [] => raise IndexError
     | [c] => do_ fight fuel c.1 c.2; ret true
     | c :: _ => do_ move fuel (At c.1 c.2); ret true
     end
   end) w /\
  match closest_monster w dis with
  | Some t =>
    in_bounds t = true /\ monster_at w dis t = true /\
    forall c, in_bounds c = true -> monster_at w dis c = true ->
      dis t <= dis c /\ (dis c = dis t -> c = t \/ row_major_lt t c)
  | None => forall c, in_bounds c = true -> monster_at w dis c = false
  end.
Proof.
  split; [reflexivity|].
  pose proof (fold_closest_spec (monster_at w dis) dis all_cells all_cells_sorted None) as Hf.
  unfold closest_monster.
  destruct (fold_left _ all_cells None) as [t|].
  - destruct Hf as ([?|[Hin Hok]] & _ & Hc); [done..|].
    split; [by apply in_all_cells|]. split; [done|].
    intros c Hb. apply Hc. by apply in_all_cells.
  - destruct Hf as [_ Hall]; [done|]. intros c Hb. by apply Hall, in_all_cells.
Qed.

Lemma find_sorted {A : Type} (Rel : A -> A -> Prop) (f : A -> bool) (l : list A) :
  StronglySorted Rel l ->
  match find f l with
  | Some t => In t l /\ f t = true /\ forall c, In c l -> f c = true -> c = t \/ Rel t c
  | None => forall c, In c l -> f c = false
  end.
Proof.
  induction 1 as [|a l Hs IH Hall]; cbn [find]; [intros c []|].
  rewrite Forall_forall in Hall. destruct (f a) eqn:Hfa.
  - split; [by left|]. split; [done|].
    intros c [<-|Hc] _; [by left|right; by apply Hall, list_elem_of_In].
  - destruct (find f l) as [t|].
    + destruct IH as (Hin & Hft & Hfirst). split; [by right|]. split; [done|].
      intros c [<-|Hc] Hfc; [congruence|by apply Hfirst].
    + intros c [<-|Hc]; [done|by apply IH].
Qed.

(** X14: [move_down] heads for the first cell in row-major order whose
    recorded object is a staircase down, and for no other: it answers
    [False] when no cell records one and when the field does not reach that
    first one. *)
Theorem move_down_target (fuel : nat) (w : World) (level : Level) :
  move_down fuel w =
  (do key <- current_level;
   do level <- level_at key;
   match first_stairs_down level with
   | None => ret false
   | Some (ty, tx) =>
     do dis <- bfs_m None None;
     if dis (ty, tx) =? -1 then ret false
     else
       do w <- get;
       do p <- path_m (bl_y (blstats (self w))) (bl_x (blstats (self w))) ty tx (Some dis);
       do walked <- walk fuel (tail p);
       if walked : bool then do_ direction fuel (Word ">"); ret true else ret true
   end) w /\
  match first_stairs_down level with
  | Some t =>
    in_bounds t = true /\ objects level t ∈ STAIR_DOWN G /\
    forall c, in_bounds c = true -> objects level c ∈ STAIR_DOWN G ->
      c = t \/ row_major_lt t c
  | None => forall c, in_bounds c = true -> objects level c ∉ STAIR_DOWN G
  end.
Proof.
  split; [reflexivity|].
  pose proof (find_sorted row_major_lt
                (fun c => glyph_in (objects level c) (STAIR_DOWN G))
                all_cells all_cells_sorted) as Hf.
  unfold first_stairs_down. destruct (find _ all_cells) as [t|].
  - destruct Hf as (Hin & Hft & Hfirst). split; [by apply in_all_cells|].
    split; [by apply bool_decide_eq_true in Hft|].
    intros c Hb Hc. apply Hfirst; [by apply in_all_cells|].
    by apply bool_decide_eq_true.
  - intros c Hb Hc. specialize (Hf c (proj2 (in_all_cells c) Hb)).
    by apply bool_decide_eq_false in Hf.
Qed.

End TargetFacts.

(** The monitor does see a step after the end of the episode: if the reply
    to one step is [done], any further step raises the second flag. *)
Lemma monitored_detects (H : Config) (e : @Env H) (bad : bool) (a a' : Action) :
  (@env_step H e a).1.2 = true ->
  (@env_step (monitored H) (@env_step (monitored H) (e, (false, bad)) a).2 a').2.2.2 = true.
Proof.
  unfold env_step at 2 3, monitored. cbn [fst snd].
  destruct (@env_step H e a) as [[[obs reward] done] e1]. cbn [fst snd].
  intros ->. destruct (@env_step H e1 a') as [r e2]. cbn. by rewrite orb_true_r.
Qed.

(** A scripted run under a limit of one step: the wrapper ends the episode
    at its second step, with a reply of the script still unread, and the
    control loop returns. *)
Lemma limit_wrapper_ends_run :
  let L := limited nle (fun _ => 0) in
  let e := (EnvLimitWrapper.init _
              [(open_floor, false); (open_floor, false); (open_floor, false);
               (open_floor, false)] 1, None) in
  (@Agent_init L 10 ∅ e 0 false).1 = Ok tt /\
  (@main L 5 10 (@Agent_init L 10 ∅ e 0 false).2).1 = Ok tt /\
  EnvLimitWrapper.cur_step
    <$> EnvLimitWrapper.counters _
          (wrapper_of (@main L 5 10 (@Agent_init L 10 ∅ e 0 false).2).2) = Some 2 /\
  length (EnvLimitWrapper.env _
            (wrapper_of (@main L 5 10 (@Agent_init L 10 ∅ e 0 false).2).2)) = 1%nat.
Proof.
  cbv zeta. repeat apply conj; vm_compute; reflexivity.
Qed.

Section BfsReached.

Context `{Config}.

(** X16: the field [bfs] returns is 0 at the source and nowhere else, and
    every cell it reaches is in the grid, at a distance that fits the 16-bit
    array, and, the source apart, walkable. *)
Theorem bfs_reached_cells (level : Level) (rng : RandomState R) (y x : Z) :
  SIZE_Y * SIZE_X <= 32767 ->
  in_bounds (y, x) = true ->
  exists dis rng',
    bfs level rng y x = Some (dis, rng') /\
    (forall c, dis c = 0 <-> c = (y, x)) /\
    (forall c, dis c <> -1 ->
       in_bounds c = true /\ 0 <= dis c <= 32767 /\
       (c <> (y, x) -> walkable level c = true)).
Proof.
  intros Hsize Hb.
  destruct (bfs_distance_field level (y, x) Hsize rng y x eq_refl Hb)
    as (dis & rng' & Hrun & H0 & Hfield & Hrange).
  exists dis, rng'. split; [done|]. split.
  - intros c. split; [|by intros ->].
    intros Hc. destruct (Hfield c) as [[? _]|(_ & Hr & _)]; [lia|].
    rewrite Hc in Hr. by apply (reach_by_0_inv (y, x) (legal level) 0%nat c).
  - intros c Hc. destruct (field_reached level (y, x) dis Hb Hfield c Hc) as [Hbc Hw].
    split; [done|]. split; [|done]. pose proof (Hrange c). lia.
Qed.

End BfsReached.

(** X16 on [door_corner], from the agent's cell. *)
Lemma bfs_reached_cells_witness :
  exists dis rng',
    @bfs nle (level_of door_corner) tt 1 1 = Some (dis, rng') /\
    (forall c, dis c = 0 <-> c = (1, 1)) /\
    (forall c, dis c <> -1 ->
       @in_bounds nle c = true /\ 0 <= dis c <= 32767 /\
       (c <> (1, 1) -> walkable (level_of door_corner) c = true)).
Proof.
  apply (@bfs_reached_cells nle (level_of door_corner) tt 1 1).
  - vm_compute. discriminate.
  - reflexivity.
Defined.

Section WalkFacts.

Context `{Config}.

(** X17: the loop [for y, x in path[1:]] of the strategies.  When it runs
    to its end the agent stands on the last cell of the path (where it was,
    for an empty path): every [move] on the way has reached its cell.  It
    stops early, without an error, only in front of a cell that the level of
    that moment does not hold walkable; and it raises a position mismatch
    only for a cell of the path. *)
Theorem walk_reaches_last_cell (fuel : nat) (cells : list cell) : forall w : World,
  match walk fuel cells w with
  | (Ok true, w') => position w' = default (position w) (last cells)
  | (Ok false, w') =>
    exists c l, In c cells /\ Agent_levels w' !! current_key w' = Some l /\
                walkable l c = false
  | (Raise (AgentPanic expected got), w') =>
    In expected cells /\ got = position w' /\ got <> expected
  | _ => True
  end.
Proof.
  induction cells as [|c rest IH]; intros w; cbn [walk]; [done|].
  destruct (current_level_spec w) as (w1 & Hrun & Hself & [l Hl] & _ & _).
  unfold bind at 1. rewrite Hrun.
  unfold bind at 1, level_at, bind at 1, get. rewrite Hl. unfold ret at 1.
  destruct (walkable l c) eqn:Hw; cbn [negb].
  - unfold bind. pose proof (move_At_outcome fuel c.1 c.2 w1) as Hm.
    destruct (move fuel (At c.1 c.2) w1) as [[[]|e|] w2].
    + specialize (IH w2).
      destruct (walk fuel rest w2) as [[[]|e|] w3]; [| | |done].
      * rewrite IH, Hm. rewrite last_cons. destruct (last rest); [done|].
        by destruct c.
      * destruct IH as (c' & l' & Hin & Hl' & Hw'). exists c', l'.
        split; [by right|done].
      * destruct e; try done. destruct IH as (Hin & ? & ?).
        split; [by right|done].
    + destruct e; try done. destruct Hm as (-> & ? & ?).
      split; [left; by destruct c|]. split; [done|]. by destruct c.
    + done.
  - exists c, l. split; [by left|]. split; [|done].
    unfold current_key in *. by rewrite Hself.
Qed.

End WalkFacts.

Section FloatFacts.

Lemma wrap64_id z :
  -9223372036854775808 <= z < 9223372036854775808 -> wrap64 z = z.
Proof. intros Hz. unfold wrap64. rewrite Z.mod_small; lia. Qed.

(** A float holds every integer of magnitude up to [2^prec]. *)
Lemma round_float_exact prec z :
  0 < prec -> Z.abs z <= 2 ^ prec -> round_float prec z = z.
Proof.
  intros Hprec Hz. unfold round_float.
  destruct (Z.leb_spec (Z.log2 (Z.abs z) + 1 - prec) 0) as [He|He]; [done|].
  assert (Hlog : prec <= Z.log2 (Z.abs z)) by lia.
  assert (Hpos : 0 < Z.abs z).
  { destruct (Z.eq_dec (Z.abs z) 0) as [H0|H0]; [|lia].
    rewrite H0 in Hlog. simpl in Hlog. lia. }
  assert (Habs : Z.abs z = 2 ^ prec).
  { apply Z.log2_le_pow2 in Hlog; [|done]. lia. }
  rewrite Habs, Z.log2_pow2 by lia.
  replace (prec + 1 - prec) with 1 by lia.
  change (2 ^ 1) with 2.
  assert (Hpow : 2 ^ prec = 2 * 2 ^ (prec - 1)).
  { rewrite <- Z.pow_succ_r by lia. f_equal. lia. }
  assert (Hhalf : 0 < 2 ^ (prec - 1)) by (apply Z.pow_pos_nonneg; lia).
  rewrite Hpow, (Z.mul_comm 2 (2 ^ (prec - 1))), Z.div_mul, Z.mod_mul by lia.
  change (2 * 0 <? 2) with true. cbv iota.
  rewrite Hpow in Habs. destruct z as [|p|p]; cbn [Z.sgn Z.abs] in *; lia.
Qed.

Lemma float32_exact z : -2 ^ 24 <= z <= 2 ^ 24 -> float32 z = z.
Proof. intros Hz. apply round_float_exact; lia. Qed.

Lemma float64_exact z : -2 ^ 53 <= z <= 2 ^ 53 -> float64 z = z.
Proof. intros Hz. apply round_float_exact; lia. Qed.

(** Beyond [2^24] the stores round, to the even mantissa on a tie. *)
Lemma float32_rounds :
  float32 16777217 = 16777216 /\ float32 16777219 = 16777220 /\
  float32 (-16900021) = -16900020 /\ float32 (-16899980) = -16899980.
Proof. repeat apply conj; reflexivity. Qed.

End FloatFacts.

Section SearchPriority.

Context `{Config}.

Lemma fold_left_bonus (f g : cell -> bool) l : forall a,
  -2 ^ 24 <= a -> a + 60 * Z.of_nat (length l) <= 2 ^ 24 ->
  fold_left (fun acc p =>
               float32 (float64 (acc + (Z.b2z (f p) * 40 + Z.b2z (g p) * 20)))) l a
  = a + 40 * count_in f l + 20 * count_in g l.
Proof.
  induction l as [|p l IH]; intros a Hlo Hhi; cbn [fold_left].
  - rewrite !count_in_nil. lia.
  - rewrite length_cons in Hhi.
    assert (Hb : 0 <= Z.b2z (f p) * 40 + Z.b2z (g p) * 20 <= 60)
      by (destruct (f p), (g p); simpl; lia).
    rewrite float64_exact, float32_exact by lia.
    rewrite IH, !count_in_cons by lia. lia.
Qed.

(** While the square of the search count leaves the priority within
    [2^24], no store rounds and the priority is the integer of the
    formula. *)
Lemma search_prio_score level dis c :
  0 <= dis c ->
  20 + dis c + 10 * search_count level c ^ 2 <= 2 ^ 24 ->
  search_prio level dis c =
  if negb (walkable level c) || (dis c =? -1) then NegInf
  else Fin (search_score level dis c).
Proof.
  intros Hdis Hbound. unfold search_prio, search_score.
  destruct (negb (walkable level c) || (dis c =? -1)); [done|].
  assert (Hsq : 0 <= search_count level c ^ 2) by (apply Z.pow_even_nonneg; by exists 1).
  assert (Hb : 0 <= Z.b2z (glyph_in (objects level c) (CORRIDOR G)) * 15
                    + Z.b2z (glyph_in (objects level c) (DOORS G)) * 80 <= 95)
    by (destruct (glyph_in _ (CORRIDOR G)), (glyph_in _ (DOORS G)); simpl; lia).
  pose proof (neighbors_fixed_length c.1 c.2 true) as Hlen. cbv iota in Hlen.
  rewrite (float32_exact (-20 - dis c)) by lia.
  rewrite (wrap64_id (search_count level c ^ 2)) by lia.
  rewrite wrap64_id by lia.
  rewrite (float64_exact (search_count level c ^ 2 * 10)) by lia.
  rewrite (float64_exact (-20 - dis c - search_count level c ^ 2 * 10)) by lia.
  rewrite (float32_exact (-20 - dis c - search_count level c ^ 2 * 10)) by lia.
  rewrite float64_exact, float32_exact by lia.
  rewrite fold_left_bonus by lia. f_equal. lia.
Qed.

(** C3, as amended: while [20 + dis + 10 * search_count^2] is at most
    [2^24] at the walkable cells the field reaches, so that the [float32]
    array holds every value exactly, the priority of such a cell is -20,
    minus its distance, minus 10 times the square of its search count, plus
    15 if its recorded object is a corridor, plus 80 if it is a door, plus,
    over its up to eight neighbours in the fixed order, 40 for each whose
    recorded object is stone and 20 for each whose recorded object is a
    wall; every other cell scores minus infinity; the target is a cell of
    greatest priority, the first of them in row-major order. *)
Theorem C3_search_priority (level : Level) (dis : grid Z) :
  (forall c, in_bounds c = true -> walkable level c = true -> dis c <> -1 ->
     0 <= dis c /\ 20 + dis c + 10 * search_count level c ^ 2 <= 2 ^ 24) ->
  (forall c, in_bounds c = true ->
     search_prio level dis c =
     if negb (walkable level c) || (dis c =? -1) then NegInf
     else Fin (search_score level dis c)) /\
  (all_cells <> [] -> exists t, search_target level dis = Ok t) /\
  (forall t, search_target level dis = Ok t ->
     in_bounds t = true /\
     (forall c, in_bounds c = true ->
        prio_le (search_prio level dis c) (search_prio level dis t)) /\
     (forall c, in_bounds c = true ->
        search_prio level dis c = search_prio level dis t ->
        c = t \/ row_major_lt t c)).
Proof.
  intros Hfit. split; [|split; [apply search_target_total|apply search_target_spec]].
  intros c Hb.
  destruct (walkable level c) eqn:Hw; [|by unfold search_prio; rewrite Hw].
  destruct (Z.eqb_spec (dis c) (-1)) as [Hd|Hd].
  { unfold search_prio. rewrite Hw, Hd. done. }
  destruct (Hfit c Hb Hw Hd) as [H0 Hbound].
  rewrite (search_prio_score level dis c H0 Hbound), Hw.
  by rewrite (proj2 (Z.eqb_neq _ _) Hd).
Qed.

End SearchPriority.

(** C3, the theorem at work on [door_corner], where no cell has been
    searched. *)
Lemma C3_search_priority_witness :
  (forall c, @in_bounds nle c = true ->
     @search_prio nle (level_of door_corner)
       (@bfs_field nle (level_of door_corner) tt 1 1) c =
     if negb (walkable (level_of door_corner) c)
        || (@bfs_field nle (level_of door_corner) tt 1 1 c =? -1)
     then NegInf
     else Fin (@search_score nle (level_of door_corner)
                 (@bfs_field nle (level_of door_corner) tt 1 1) c)) /\
  (@all_cells nle <> [] ->
   exists t, @search_target nle (level_of door_corner)
               (@bfs_field nle (level_of door_corner) tt 1 1) = Ok t) /\
  (forall t, @search_target nle (level_of door_corner)
               (@bfs_field nle (level_of door_corner) tt 1 1) = Ok t ->
     @in_bounds nle t = true /\
     (forall c, @in_bounds nle c = true ->
        prio_le (@search_prio nle (level_of door_corner)
                   (@bfs_field nle (level_of door_corner) tt 1 1) c)
                (@search_prio nle (level_of door_corner)
                   (@bfs_field nle (level_of door_corner) tt 1 1) t)) /\
     (forall c, @in_bounds nle c = true ->
        @search_prio nle (level_of door_corner)
          (@bfs_field nle (level_of door_corner) tt 1 1) c
        = @search_prio nle (level_of door_corner)
            (@bfs_field nle (level_of door_corner) tt 1 1) t ->
        c = t \/ row_major_lt t c)).
Proof.
  apply (@C3_search_priority nle (level_of door_corner)
           (@bfs_field nle (level_of door_corner) tt 1 1)).
  intros c Hb Hw Hd.
  assert (Hall :
    (let level := level_of door_corner in
     let dis := @bfs_field nle (level_of door_corner) tt 1 1 in
     forallb
       (fun c => negb (walkable level c)
                 || (dis c =? -1)
                 || ((0 <=? dis c)
                     && (20 + dis c + 10 * search_count level c ^ 2 <=? 2 ^ 24)))
       (@all_cells nle)) = true) by (vm_compute; reflexivity).
  cbv zeta in Hall.
  rewrite forallb_forall in Hall.
  specialize (Hall c (proj2 (@in_all_cells nle c) Hb)). cbv beta in Hall.
  apply orb_true_iff in Hall as [Hall|Hfit].
  - exfalso. apply orb_true_iff in Hall as [Hnw|Heq].
    + apply negb_true_iff in Hnw. rewrite Hw in Hnw. discriminate Hnw.
    + apply Z.eqb_eq in Heq. exact (Hd Heq).
  - apply andb_true_iff in Hfit as [H0 Hfit].
    apply Z.leb_le in H0. apply Z.leb_le in Hfit. exact (conj H0 Hfit).
Defined.

(** Past the bound the stores do round: on [door_corner] with 1300 searches
    of every cell, the floor at [(1, 2)], at distance 1 with three neighbours
    recorded as stone, holds -16899900 where the formula gives -16899901. *)
Lemma search_prio_rounds :
  @search_prio nle (searched 1300 (level_of door_corner))
    (@bfs_field nle (level_of door_corner) tt 1 1) (1, 2) = Fin (-16899900) /\
  @search_score nle (searched 1300 (level_of door_corner))
    (@bfs_field nle (level_of door_corner) tt 1 1) (1, 2) = -16899901.
Proof.
  repeat apply conj; vm_compute; reflexivity.
Qed.

(** And the rounding changes the target: in [closet] with 1296 searches of
    both cells the two stored priorities tie at -16796040 and the target is
    [(1, 1)], the first of them, where the formula puts the agent's own cell
    [(1, 2)] one above; with 1295 searches nothing is rounded and the target
    is [(1, 2)]. *)
Lemma search_target_tie :
  @search_prio nle (searched 1296 (level_of closet))
    (@bfs_field nle (level_of closet) tt 1 2) (1, 1) = Fin (-16796040) /\
  @search_prio nle (searched 1296 (level_of closet))
    (@bfs_field nle (level_of closet) tt 1 2) (1, 2) = Fin (-16796040) /\
  @search_score nle (searched 1296 (level_of closet))
    (@bfs_field nle (level_of closet) tt 1 2) (1, 1) = -16796041 /\
  @search_score nle (searched 1296 (level_of closet))
    (@bfs_field nle (level_of closet) tt 1 2) (1, 2) = -16796040 /\
  @search_target nle (searched 1296 (level_of closet))
    (@bfs_field nle (level_of closet) tt 1 2) = Ok (1, 1) /\
  @search_target nle (searched 1295 (level_of closet))
    (@bfs_field nle (level_of closet) tt 1 2) = Ok (1, 2).
Proof.
  repeat apply conj; vm_compute; reflexivity.
Qed.
